(** * MergePics: the collage engine of [PhotoCollage.tsx]

    A shallow embedding of the geometry, the compositor loop and the
    interaction handlers of [src/components/PhotoCollage.tsx] (and of the
    twin size function [calculateSize] of [PuzzleBoard.tsx]).

    Numbers.  JavaScript numbers are IEEE doubles.  Here a finite number is
    an exact rational ([Q]); the non-finite results of a division by zero
    are kept ([Infinity], [NegInfinity], [NaN]) wherever the source divides
    by a quantity that can be zero.  Zero is unsigned (JS [-0] is [0]), and
    rounding error of the doubles is not modelled.

    Arrays are lists; [arr.map((t, i) => ...)] is stdpp's [imap],
    [arr[i]] is the lookup [arr !! i], [splice] is written out. *)

From Stdlib Require Import ZArith QArith Qround Qminmax Lia Lra Psatz.
From stdpp Require Import base list strings.

Local Open Scope Q_scope.

(** ** JavaScript numbers *)

Inductive jsnum : Type :=
  | Num (q : Q)
  | Infinity
  | NegInfinity
  | NaN.

Definition Qltb (a b : Q) : bool := negb (Qle_bool b a).

(** [a * b] *)
Definition jsmul (a b : jsnum) : jsnum :=
  match a, b with
  | NaN, _ | _, NaN => NaN
  | Num x, Num y => Num (x * y)
  | Num x, Infinity | Infinity, Num x =>
      if Qeq_bool x 0 then NaN else if Qltb 0 x then Infinity else NegInfinity
  | Num x, NegInfinity | NegInfinity, Num x =>
      if Qeq_bool x 0 then NaN else if Qltb 0 x then NegInfinity else Infinity
  | Infinity, Infinity | NegInfinity, NegInfinity => Infinity
  | Infinity, NegInfinity | NegInfinity, Infinity => NegInfinity
  end.

(** [a / b] *)
Definition jsdiv (a b : jsnum) : jsnum :=
  match a, b with
  | NaN, _ | _, NaN => NaN
  | Num x, Num y =>
      if Qeq_bool y 0
      then (if Qeq_bool x 0 then NaN
            else if Qltb 0 x then Infinity else NegInfinity)
      else Num (x / y)
  | Num _, Infinity | Num _, NegInfinity => Num 0
  | Infinity, Num y => if Qle_bool 0 y then Infinity else NegInfinity
  | NegInfinity, Num y => if Qle_bool 0 y then NegInfinity else Infinity
  | _, _ => NaN
  end.

(** [a >= b] *)
Definition jsge (a b : jsnum) : bool :=
  match a, b with
  | NaN, _ | _, NaN => false
  | Num x, Num y => Qle_bool y x
  | Infinity, _ => true
  | _, NegInfinity => true
  | _, _ => false
  end.

(** [a <= b] *)
Definition jsle (a b : jsnum) : bool := jsge b a.

(** [a > b] *)
Definition jsgt (a b : jsnum) : bool :=
  match a, b with
  | NaN, _ | _, NaN => false
  | Num x, Num y => Qltb y x
  | Infinity, Infinity => false
  | Infinity, _ => true
  | Num _, NegInfinity => true
  | _, _ => false
  end.

(** [Math.round]: the nearest integer, a tie going up. *)
Definition Math_round (a : jsnum) : jsnum :=
  match a with
  | Num x => Num (inject_Z (Qfloor (x + (1 # 2))))
  | other => other
  end.

(** ** Output size *)

Record OutputSize : Type := mkOutputSize { width : jsnum; height : jsnum }.

(** [calculateOutputSize] of PhotoCollage.tsx, [calculateSize] of
    PuzzleBoard.tsx (the same body).  [w] and [h] are the two numbers that
    [aspectRatio.split(':').map(Number)] yields. *)
Definition calculateOutputSize (w h resolution : jsnum) : OutputSize :=
  if jsge w h then
    {| width := resolution;
       height := Math_round (jsdiv (jsmul resolution h) w) |}
  else
    {| height := resolution;
       width := Math_round (jsdiv (jsmul resolution w) h) |}.

Definition calculateSize := calculateOutputSize.

(** ** Grid geometry

    The grid arithmetic that [drawCollage] and [getImageIndexAtPosition]
    both carry out, for a finite output size [W] x [H] (what
    [calculateOutputSize] returns whenever its divisor is not zero). *)

Record CollageTemplate : Type := mkTemplate {
  rows : nat;
  cols : nat;
  style : option string   (* [style?: string] *)
}.

Definition isPolaroid (t : CollageTemplate) : bool :=
  match style t with
  | Some s => String.eqb s "polaroid"
  | None => false
  end.

(** [template.style || 'grid'] *)
Definition styleOrGrid (t : CollageTemplate) : string :=
  match style t with
  | Some s => if String.eqb s EmptyString then "grid"%string else s
  | None => "grid"%string
  end.

(** a loop counter as a number *)
Definition Qnat (n : nat) : Q := inject_Z (Z.of_nat n).

(** [Math.min(outputSize.width, outputSize.height) * 0.02] *)
Definition padding (W H : Q) : Q := Qmin W H * (2 # 100).

(** [template.style === 'polaroid' ? padding * 2 : padding * 0.5] *)
Definition gap (t : CollageTemplate) (W H : Q) : Q :=
  if isPolaroid t then padding W H * 2 else padding W H * (1 # 2).

Definition availableWidth (t : CollageTemplate) (W H : Q) : Q :=
  W - padding W H * 2 - gap t W H * (Qnat (cols t) - 1).

Definition availableHeight (t : CollageTemplate) (W H : Q) : Q :=
  H - padding W H * 2 - gap t W H * (Qnat (rows t) - 1).

(** Only read inside the loops over the cells, where [cols t] and
    [rows t] are at least 1. *)
Definition cellWidth (t : CollageTemplate) (W H : Q) : Q :=
  availableWidth t W H / Qnat (cols t).

Definition cellHeight (t : CollageTemplate) (W H : Q) : Q :=
  availableHeight t W H / Qnat (rows t).

(** [padding + col * (cellWidth + gap)] *)
Definition cellX (t : CollageTemplate) (W H : Q) (col : nat) : Q :=
  padding W H + Qnat col * (cellWidth t W H + gap t W H).

(** [padding + row * (cellHeight + gap)] *)
Definition cellY (t : CollageTemplate) (W H : Q) (row : nat) : Q :=
  padding W H + Qnat row * (cellHeight t W H + gap t W H).

Record Rect : Type := mkRect { rx : Q; ry : Q; rw : Q; rh : Q }.

Definition cellRect (t : CollageTemplate) (W H : Q) (row col : nat) : Rect :=
  {| rx := cellX t W H col; ry := cellY t W H row;
     rw := cellWidth t W H; rh := cellHeight t W H |}.

(** The iteration space of
    [for (row < rows) for (col < cols)], in the order the loops visit it. *)
Definition cells (t : CollageTemplate) : list (nat * nat) :=
  row ← seq 0 (rows t); (λ col, (row, col)) <$> seq 0 (cols t).

(** The rectangles of the grid, in loop order. *)
Definition cellRects (t : CollageTemplate) (W H : Q) : list Rect :=
  (λ rc, cellRect t W H rc.1 rc.2) <$> cells t.

(** ** Component state *)

Record ImageTransform : Type := mkTransform { x : Q; y : Q; scale : Q }.

(** [{ x: 0, y: 0, scale: 1 }] *)
Definition defaultTransform : ImageTransform :=
  {| x := 0; y := 0; scale := 1 |}.

#[export] Instance ImageTransform_inhabited : Inhabited ImageTransform :=
  populate defaultTransform.

(** [Partial<ImageTransform>] *)
Record PartialTransform : Type := mkPartial {
  p_x : option Q;
  p_y : option Q;
  p_scale : option Q
}.

(** [{ ...t, ...transform }] *)
Definition spread (t : ImageTransform) (p : PartialTransform) : ImageTransform :=
  {| x := default (x t) (p_x p);
     y := default (y t) (p_y p);
     scale := default (scale t) (p_scale p) |}.

Record DragState : Type := mkDragState {
  isDragging : bool;
  imageIndex : nat;
  startX : Q;
  startY : Q;
  initialTransform : ImageTransform
}.

(** The fields of the bounding rectangle that the handlers read. *)
Record DOMRect : Type := mkDOMRect { left : Q; top : Q }.

(** [canvasRef.current]: its displayed size, and whether a 2d context
    can be had. *)
Record Canvas : Type := mkCanvas {
  offsetWidth : Q;
  offsetHeight : Q;
  context2d : bool
}.

(** The props of the component that the handlers read. *)
Record Props : Type := mkProps {
  template : CollageTemplate;
  outW : Q;                 (* outputSize.width *)
  outH : Q;                 (* outputSize.height *)
  filter : string;
  canvas : option Canvas
}.

(** The [images] prop (the parent stores what [onImageOrderChange] hands
    it, see [handleImageOrderChange] of Home.tsx) and the [useState] cells.
    [dragState] and [canvasRect] are read and set by the handlers; their
    [useState] lines are not in the file. *)
Record State : Type := mkState {
  images : list string;
  imageTransforms : list ImageTransform;
  selectedImageIndex : option nat;
  dragIndex : option nat;
  dropIndex : option nat;
  dragState : option DragState;
  canvasRect : option DOMRect
}.

Definition setImageTransforms (f : list ImageTransform → list ImageTransform)
    (st : State) : State :=
  {| images := images st;
     imageTransforms := f (imageTransforms st);
     selectedImageIndex := selectedImageIndex st;
     dragIndex := dragIndex st;
     dropIndex := dropIndex st;
     dragState := dragState st;
     canvasRect := canvasRect st |}.

Definition setSelectedImageIndex (s : option nat) (st : State) : State :=
  {| images := images st;
     imageTransforms := imageTransforms st;
     selectedImageIndex := s;
     dragIndex := dragIndex st;
     dropIndex := dropIndex st;
     dragState := dragState st;
     canvasRect := canvasRect st |}.

Definition setDragState (d : option DragState) (st : State) : State :=
  {| images := images st;
     imageTransforms := imageTransforms st;
     selectedImageIndex := selectedImageIndex st;
     dragIndex := dragIndex st;
     dropIndex := dropIndex st;
     dragState := d;
     canvasRect := canvasRect st |}.

(** ** Transform reconciliation (the first [useEffect]) *)

(** [images.map((_, index) => prevTransforms[index] ? prevTransforms[index]
    : { x: 0, y: 0, scale: 1 })] *)
Definition reconcileTransforms (imgs : list string)
    (prevTransforms : list ImageTransform) : list ImageTransform :=
  imap (λ index _,
          match prevTransforms !! index with
          | Some t => t
          | None => {| x := 0; y := 0; scale := 1 |}
          end) imgs.

Definition reconcileEffect (st : State) : State :=
  let st' := setImageTransforms (reconcileTransforms (images st)) st in
  match selectedImageIndex st with
  | Some sel =>
      if (length (images st) <=? sel)%nat
      then setSelectedImageIndex None st' else st'
  | None => st'
  end.

(** ** Thumbnail reordering *)

(** [arr.splice(start, 1)]: the removed elements and the array left. *)
Definition splice1 {A} (start : nat) (arr : list A) : list A * list A :=
  (take 1 (drop start arr), take start arr ++ drop (S start) arr).

(** [arr.splice(start, 0, item)]: past the end, [splice] appends. *)
Definition spliceInsert {A} (start : nat) (item : A) (arr : list A) : list A :=
  take start arr ++ item :: drop start arr.

(** [const [dragged] = arr.splice(from, 1); arr.splice(to, 0, dragged)].
    When [from] is past the end nothing is removed and JS binds [dragged]
    to [undefined]; the inhabitant of the element type stands for it. *)
Definition moveItem {A} `{Inhabited A} (from to : nat) (arr : list A) : list A :=
  let '(removed, rest) := splice1 from arr in
  let dragged := default inhabitant (head removed) in
  spliceInsert to dragged rest.

Definition handleDragStart (index : nat) (st : State) : State :=
  {| images := images st;
     imageTransforms := imageTransforms st;
     selectedImageIndex := selectedImageIndex st;
     dragIndex := Some index;
     dropIndex := dropIndex st;
     dragState := dragState st;
     canvasRect := canvasRect st |}.

(** [onDrop={() => setDropIndex(index)}] *)
Definition handleDrop (index : nat) (st : State) : State :=
  {| images := images st;
     imageTransforms := imageTransforms st;
     selectedImageIndex := selectedImageIndex st;
     dragIndex := dragIndex st;
     dropIndex := Some index;
     dragState := dragState st;
     canvasRect := canvasRect st |}.

(** The body of the [if] of [handleDragEnd]: the same two splices on a
    copy of [images] (handed to [onImageOrderChange]) and on a copy of
    [imageTransforms]. *)
Definition reorder (i j : nat) (st : State) : State :=
  {| images := moveItem i j (images st);
     imageTransforms := moveItem i j (imageTransforms st);
     selectedImageIndex := selectedImageIndex st;
     dragIndex := dragIndex st;
     dropIndex := dropIndex st;
     dragState := dragState st;
     canvasRect := canvasRect st |}.

Definition clearThumbnailDrag (st : State) : State :=
  {| images := images st;
     imageTransforms := imageTransforms st;
     selectedImageIndex := selectedImageIndex st;
     dragIndex := None;
     dropIndex := None;
     dragState := dragState st;
     canvasRect := canvasRect st |}.

Definition handleDragEnd (st : State) : State :=
  clearThumbnailDrag
    match dragIndex st, dropIndex st with
    | Some i, Some j => if negb (i =? j)%nat then reorder i j st else st
    | _, _ => st
    end.

(** ** Transform updates *)

(** [prev.map((t, i) => i === index ? { ...t, ...transform } : t)] *)
Definition updateImageTransform (index : nat) (transform : PartialTransform)
    (st : State) : State :=
  setImageTransforms
    (imap (λ i t, if (i =? index)%nat then spread t transform else t)) st.

Definition resetImageTransform (index : nat) (st : State) : State :=
  updateImageTransform index
    {| p_x := Some 0; p_y := Some 0; p_scale := Some 1 |} st.

(** The three range inputs.  They are rendered only while
    [selectedImageIndex !== null && imageTransforms[selectedImageIndex]].
    An [<input type="range">] has the attributes [min], [max] and [step];
    the two position sliders give no [step], which then is 1. *)
Record RangeInput : Type := mkRange {
  range_min : Q;
  range_max : Q;
  range_step : Q
}.

(** [min="-50" max="50"] *)
Definition positionSlider : RangeInput :=
  {| range_min := -50; range_max := 50; range_step := 1 |}.

(** [min="0.5" max="2" step="0.1"] *)
Definition scaleSlider : RangeInput :=
  {| range_min := 5 # 10; range_max := 2; range_step := 1 # 10 |}.

(** [Number(e.target.value)] in the [onChange] of a range input that was
    asked, by the pointer, the keyboard or a script, to take the number
    [requested].  The handler never sees [requested] itself: a range input
    holds a sanitised value only, which is [requested] brought up to [min]
    or down to [max] and then moved to the nearest [min + n * step], a tie
    going up, and one step down if that passes [max]. *)
Definition targetValue (input : RangeInput) (requested : Q) : Q :=
  let lo := range_min input in
  let hi := range_max input in
  let step := range_step input in
  let v :=
    if Qltb requested lo then lo
    else if Qltb hi requested then hi else requested in
  let n := Qfloor ((v - lo) / step + (1 # 2)) in
  let snapped := lo + inject_Z n * step in
  if Qltb hi snapped then snapped - step else snapped.

Definition sliderChange (transform : PartialTransform) (st : State) : State :=
  match selectedImageIndex st with
  | Some sel =>
      match imageTransforms st !! sel with
      | Some _ => updateImageTransform sel transform st
      | None => st
      end
  | None => st
  end.

(** The [onChange] of the three inputs, each asked to take [requested]:
    [updateImageTransform(selectedImageIndex,
       { x: Number(e.target.value) })], and the same for [y] and
    [scale]. *)
Definition onXSliderChange (requested : Q) : State → State :=
  sliderChange {| p_x := Some (targetValue positionSlider requested);
                  p_y := None; p_scale := None |}.

Definition onYSliderChange (requested : Q) : State → State :=
  sliderChange {| p_x := None;
                  p_y := Some (targetValue positionSlider requested);
                  p_scale := None |}.

Definition onScaleSliderChange (requested : Q) : State → State :=
  sliderChange {| p_x := None; p_y := None;
                  p_scale := Some (targetValue scaleSlider requested) |}.

(** The reset button sits in the same panel as the sliders. *)
Definition onResetClick (st : State) : State :=
  match selectedImageIndex st with
  | Some sel =>
      match imageTransforms st !! sel with
      | Some _ => resetImageTransform sel st
      | None => st
      end
  | None => st
  end.

(** ** Hit test *)

(** [canvasX >= cellX && canvasX <= cellX + cellWidth &&
     canvasY >= cellY && canvasY <= cellY + cellHeight] *)
Definition insideCell (t : CollageTemplate) (W H : Q)
    (canvasX canvasY : jsnum) (row col : nat) : bool :=
  jsge canvasX (Num (cellX t W H col)) &&
  jsle canvasX (Num (cellX t W H col + cellWidth t W H)) &&
  jsge canvasY (Num (cellY t W H row)) &&
  jsle canvasY (Num (cellY t W H row + cellHeight t W H)).

(** The result is the image index, or [-1].  The comparisons are those of
    exact rationals: at a point on the border of a cell, or in a grid whose
    cell width comes out at exactly zero, the doubles of the source can
    decide the other way.  The theorems on the hit test speak of points
    inside a cell or outside all of them. *)
Definition getImageIndexAtPosition (p : Props) (st : State) (px py : Q) : Z :=
  match canvasRect st with
  | None => (-1)%Z
  | Some _ =>
      match canvas p with
      | None => (-1)%Z
      | Some cv =>
          let scaleX := jsdiv (Num (offsetWidth cv)) (Num (outW p)) in
          let scaleY := jsdiv (Num (offsetHeight cv)) (Num (outH p)) in
          let canvasX := jsdiv (Num px) scaleX in
          let canvasY := jsdiv (Num py) scaleY in
          let t := template p in
          let hit :=
            find (λ rc,
                    let index := (rc.1 * cols t + rc.2)%nat in
                    negb (length (images st) <=? index)%nat &&
                    insideCell t (outW p) (outH p) canvasX canvasY rc.1 rc.2)
                 (cells t) in
          match hit with
          | Some rc => Z.of_nat (rc.1 * cols t + rc.2)
          | None => (-1)%Z
          end
      end
  end.

(** ** Dragging on the canvas *)

Definition handleCanvasDragStart (p : Props) (clientX clientY : Q)
    (st : State) : State :=
  match canvasRect st with
  | None => st
  | Some rect =>
      let px := clientX - left rect in
      let py := clientY - top rect in
      let imageIndex := getImageIndexAtPosition p st px py in
      if (0 <=? imageIndex)%Z then
        match imageTransforms st !! Z.to_nat imageIndex with
        | Some t =>
            setSelectedImageIndex (Some (Z.to_nat imageIndex))
              (setDragState
                 (Some {| isDragging := true;
                          imageIndex := Z.to_nat imageIndex;
                          startX := clientX;
                          startY := clientY;
                          initialTransform := t |}) st)
        | None => st
        end
      else st
  end.

(** [Math.max(-maxOffset, Math.min(maxOffset, v))] with [maxOffset = 100] *)
Definition clampOffset (v : Q) : Q := Qmax (-100) (Qmin 100 v).

Definition handleCanvasDragMove (clientX clientY : Q) (st : State) : State :=
  match dragState st with
  | None => st
  | Some ds =>
      if negb (isDragging ds) then st
      else
        let deltaX := clientX - startX ds in
        let deltaY := clientY - startY ds in
        let sensitivity := 1 # 2 in
        let newX := x (initialTransform ds) + deltaX * sensitivity in
        let newY := y (initialTransform ds) + deltaY * sensitivity in
        updateImageTransform (imageIndex ds)
          {| p_x := Some (clampOffset newX);
             p_y := Some (clampOffset newY);
             p_scale := None |} st
  end.

Definition handleCanvasDragEnd (st : State) : State := setDragState None st.

(** ** The compositor, [drawCollage] *)

Record HTMLImageElement : Type := mkImg {
  img_src : string;
  img_width : Q;
  img_height : Q
}.

(** What [drawCollage] puts on the canvas, in order. *)
Inductive DrawOp : Type :=
  | FillBackground (w h : Q)
  | DrawWithStyle (img : HTMLImageElement) (r : Rect) (style filter : string)
      (transform : ImageTransform)
  | StrokeSelected (r : Rect)
  | DrawPlaceholder (r : Rect) (label : nat)   (* the text [图片 label] *)
  | DrawWatermark (px py : Q).

Definition isImageOp (op : DrawOp) : bool :=
  match op with DrawWithStyle _ _ _ _ _ => true | _ => false end.



(** A finished call: the drawing and the indices given to [console.error]. *)
Record Render : Type := mkRender { ops : list DrawOp; errors : list nat }.

Section Compositor.

(** The outcome of [await loadImage(src)]: the decoded image, or [None]
    when the promise rejects. *)
Variable loadImage : string → option HTMLImageElement.

(** The values [Math.random()] returns, in call order. *)
Variable random : nat → Q.

(** [for (let i = 0; i < n; i++) { try { push } catch { console.error } }]
    over the sources [images[i], images[i+1], ...] still to load. *)
Fixpoint loadLoop (i : nat) (srcs : list string)
    (loadedImages : list HTMLImageElement) (log : list nat)
    : list HTMLImageElement * list nat :=
  match srcs with
  | [] => (loadedImages, log)
  | src :: srcs' =>
      match loadImage src with
      | Some img => loadLoop (S i) srcs' (loadedImages ++ [img]) log
      | None => loadLoop (S i) srcs' loadedImages (log ++ [i])
      end
  end.

(** The loop bound is [Math.min(images.length, totalSlots)]. *)
Definition loadImages (imgs : list string) (totalSlots : nat)
    : list HTMLImageElement * list nat :=
  loadLoop 0 (take (length imgs `min` totalSlots) imgs) [] [].

(** The body of the two loops over the cells. *)
Definition drawCell (p : Props) (st : State)
    (loadedImages : list HTMLImageElement) (row col : nat) : list DrawOp :=
  let t := template p in
  let W := outW p in
  let H := outH p in
  let index := (row * cols t + col)%nat in
  let jitter := isPolaroid t && (index <? length loadedImages)%nat in
  let cx :=
    if jitter
    then cellX t W H col + (random (2 * index) - (1 # 2)) * padding W H
    else cellX t W H col in
  let cy :=
    if jitter
    then cellY t W H row + (random (2 * index + 1) - (1 # 2)) * padding W H
    else cellY t W H row in
  let r := {| rx := cx; ry := cy;
              rw := cellWidth t W H; rh := cellHeight t W H |} in
  match loadedImages !! index, imageTransforms st !! index with
  | Some img, Some transform =>
      DrawWithStyle img r (styleOrGrid t) (filter p) transform ::
      (if decide (selectedImageIndex st = Some index)
       then [StrokeSelected r] else [])
  | _, _ => [DrawPlaceholder r (index + 1)]
  end.

Definition drawCollage (p : Props) (st : State) : Render :=
  match canvas p with
  | None => {| ops := []; errors := [] |}
  | Some cv =>
      if negb (context2d cv) then {| ops := []; errors := [] |}
      else
        let t := template p in
        let totalSlots := (rows t * cols t)%nat in
        let '(loadedImages, log) := loadImages (images st) totalSlots in
        {| ops :=
             FillBackground (outW p) (outH p) ::
             (cells t ≫= λ rc, drawCell p st loadedImages rc.1 rc.2) ++
             (if (0 <? length loadedImages)%nat
              then [DrawWatermark (outW p - padding (outW p) (outH p))
                      (outH p - padding (outW p) (outH p) / 2)]
              else []);
           errors := log |}
  end.

End Compositor.


(** ** The specification's vocabulary

    These definitions follow the words of the specification; the
    theorems below compare them with the embedding of the code above. *)

(** "round": [r] is the integer nearest to [v], a tie going up; a
    non-finite value has no nearest integer and is left as it is. *)
Definition isRounded (v r : jsnum) : Prop :=
  match v with
  | Num q => ∃ n : Z, r = Num (inject_Z n) ∧
                      inject_Z n - (1 # 2) <= q ∧ q < inject_Z n + (1 # 2)
  | other => r = other
  end.

(** The outcome of a call of the size function in the specification's
    terms: a size, or the error the specification names. *)
Inductive SizeResult : Type :=
  | SizeOk (s : OutputSize)
  | ConfigurationError.

(** [computeOutputSize] as sections 3, 4.1 and 7 of the specification
    word it: an error for a non-positive argument, else the size. *)
Definition spec_computeOutputSize (aspectW aspectH resolution : jsnum)
    : SizeResult :=
  if jsle aspectW (Num 0) || jsle aspectH (Num 0) || jsle resolution (Num 0)
  then ConfigurationError
  else if jsge aspectW aspectH
  then SizeOk {| width := resolution;
                 height := Math_round (jsdiv (jsmul resolution aspectH) aspectW) |}
  else SizeOk {| width := Math_round (jsdiv (jsmul resolution aspectW) aspectH);
                 height := resolution |}.

(** A call of [calculateOutputSize]: the body has no [throw], the call
    returns. *)
Definition call_calculateOutputSize (w h resolution : jsnum) : SizeResult :=
  SizeOk (calculateOutputSize w h resolution).

(** "clamp(v, lo, hi)" *)
Definition clamp (v lo hi : Q) : Q :=
  if Qltb v lo then lo else if Qltb hi v then hi else v.

(** The canvas coordinate that the hit test computes from a screen
    coordinate: [coord / (displayed / logical)]. *)
Definition toCanvas (displayed logical coord : Q) : jsnum :=
  jsdiv (Num coord) (jsdiv (Num displayed) (Num logical)).

(** The points of the canvas that a rectangle covers: those between its
    corner and the opposite corner, which lies to the left of it or above
    it when the width or the height is negative (this is how a canvas path
    takes a rectangle of negative size). *)
Definition covers (r : Rect) (qx qy : Q) : Prop :=
  Qmin (rx r) (rx r + rw r) <= qx ∧ qx <= Qmax (rx r) (rx r + rw r) ∧
  Qmin (ry r) (ry r + rh r) <= qy ∧ qy <= Qmax (ry r) (ry r + rh r).

(** "within the output canvas bounds minus padding": every point that the
    rectangle covers keeps the padding, 2% of the smaller side, away from
    the four sides of the canvas. *)
Definition insidePadding (W H : Q) (r : Rect) : Prop :=
  ∀ qx qy, covers r qx qy →
    (2 # 100) * Qmin W H <= qx ∧ qx <= W - (2 # 100) * Qmin W H ∧
    (2 # 100) * Qmin W H <= qy ∧ qy <= H - (2 # 100) * Qmin W H.

(** "non-overlapping": no point is covered by both rectangles. *)
Definition disjointRects (a b : Rect) : Prop :=
  ∀ qx qy, ¬ (covers a qx qy ∧ covers b qx qy).


(** "keep existing entries by index, append defaults for growth, truncate
    for shrinkage", the default being the specification's [{0, 0, 1}]. *)
Definition spec_reconcile (newLength : nat) (prev : list ImageTransform)
    : list ImageTransform :=
  take newLength prev
  ++ replicate (newLength - length prev) {| x := 0; y := 0; scale := 1 |}.

(** The position whose element a move from [i] to [j] brings to
    position [k]. *)
Definition movedFrom (i j k : nat) : nat :=
  if (k =? j)%nat then i
  else if (i <? j)%nat
       then (if (i <=? k)%nat && (k <? j)%nat then S k else k)
       else (if (j <? k)%nat && (k <=? i)%nat then pred k else k).

(** The frame of an update of one transform: the images stay, the number
    of transforms stays, and the transform at [j] stays. *)
Definition keepsIndex (j : nat) (st st' : State) : Prop :=
  images st' = images st ∧
  length (imageTransforms st') = length (imageTransforms st) ∧
  imageTransforms st' !! j = imageTransforms st !! j.

(** ** Sample states for the instances below *)

Definition twoImages : State :=
  {| images := ["a"; "b"]%string;
     imageTransforms := [defaultTransform; {| x := 7; y := 8; scale := 2 |}];
     selectedImageIndex := Some 0%nat; dragIndex := None; dropIndex := None;
     dragState := None; canvasRect := None |}.

(** A drag of the first image that began at the screen point (100, 100). *)
Definition draggingFirst : State :=
  {| images := ["a"; "b"]%string;
     imageTransforms := [defaultTransform; {| x := 7; y := 8; scale := 2 |}];
     selectedImageIndex := Some 0%nat; dragIndex := None; dropIndex := None;
     dragState := Some {| isDragging := true; imageIndex := 0;
                          startX := 100; startY := 100;
                          initialTransform := defaultTransform |};
     canvasRect := Some {| left := 0; top := 0 |} |}.

(** The sequence [A, B, C] with the first thumbnail dragged and dropped
    on the third. *)
Definition draggedFirstToThird : State :=
  {| images := ["A"; "B"; "C"]%string;
     imageTransforms := [ {| x := 1; y := 1; scale := 1 |};
                          {| x := 2; y := 2; scale := 1 |};
                          {| x := 3; y := 3; scale := 1 |} ];
     selectedImageIndex := None;
     dragIndex := Some 0%nat; dropIndex := Some 2%nat;
     dragState := None; canvasRect := None |}.

(** The template [2x2] of Home.tsx. *)
Definition classicFour : CollageTemplate :=
  {| rows := 2; cols := 2; style := Some "grid"%string |}.

(** The template [polaroid-4] of the template selector, and one row of
    sixty framed cells. *)
Definition polaroidFour : CollageTemplate :=
  {| rows := 2; cols := 2; style := Some "polaroid"%string |}.

Definition sixtyFramed : CollageTemplate :=
  {| rows := 1; cols := 60; style := Some "polaroid"%string |}.

(** A mounted canvas shown at 300 x 300, and a loader for which the
    source ["bad"] fails and every other source decodes. *)
Definition shownCanvas : Canvas :=
  {| offsetWidth := 300; offsetHeight := 300; context2d := true |}.

Definition fourSlots : Props :=
  {| template := classicFour; outW := 1080; outH := 1080;
     filter := "none"%string; canvas := Some shownCanvas |}.

Definition fourFramedSlots : Props :=
  {| template := polaroidFour; outW := 1080; outH := 1080;
     filter := "none"%string; canvas := Some shownCanvas |}.

Definition loadUnlessBad (src : string) : option HTMLImageElement :=
  if String.eqb src "bad" then None
  else Some {| img_src := src; img_width := 640; img_height := 480 |}.

Definition oneBadOfThree : State :=
  {| images := ["a"; "bad"; "c"]%string;
     imageTransforms := [defaultTransform; defaultTransform; defaultTransform];
     selectedImageIndex := None; dragIndex := None; dropIndex := None;
     dragState := None; canvasRect := Some {| left := 0; top := 0 |} |}.





(** ** More of PhotoCollage.tsx: the style renderer and the filters *)

(** [a + b] *)
Definition jsadd (a b : jsnum) : jsnum :=
  match a, b with
  | NaN, _ | _, NaN => NaN
  | Num p, Num q => Num (p + q)
  | Infinity, NegInfinity | NegInfinity, Infinity => NaN
  | Infinity, _ | _, Infinity => Infinity
  | NegInfinity, _ | _, NegInfinity => NegInfinity
  end.

(** [- a] *)
Definition jsneg (a : jsnum) : jsnum :=
  match a with
  | Num p => Num (- p)
  | Infinity => NegInfinity
  | NegInfinity => Infinity
  | NaN => NaN
  end.

(** [a - b] *)
Definition jssub (a b : jsnum) : jsnum := jsadd a (jsneg b).

(** [Math.max(a, b)] *)
Definition jsmax (a b : jsnum) : jsnum :=
  match a, b with
  | NaN, _ | _, NaN => NaN
  | Num p, Num q => Num (Qmax p q)
  | Infinity, _ | _, Infinity => Infinity
  | NegInfinity, other | other, NegInfinity => other
  end.

(** The own properties of the object literal [filterMap]. *)
Definition filterMap : list (string * string) :=
  [ ("none", "none");
    ("vintage", "sepia(0.5) contrast(1.2) brightness(1.1)");
    ("blackwhite", "grayscale(1) contrast(1.1)");
    ("warm", "hue-rotate(10deg) saturate(1.2) brightness(1.1)");
    ("cool", "hue-rotate(-10deg) saturate(1.1) brightness(0.95)");
    ("dramatic", "contrast(1.5) saturate(1.3) brightness(0.9)");
    ("soft", "brightness(1.1) saturate(0.8) blur(0.5px)");
    ("vivid", "saturate(1.5) contrast(1.2)") ]%string.

(** The names that every object literal inherits from [Object.prototype];
    [filterMap[name]] is then a function or an object, never [undefined]. *)
Definition objectPrototypeKeys : list string :=
  [ "constructor"; "hasOwnProperty"; "isPrototypeOf"; "propertyIsEnumerable";
    "toLocaleString"; "toString"; "valueOf"; "__proto__";
    "__defineGetter__"; "__defineSetter__";
    "__lookupGetter__"; "__lookupSetter__" ]%string.

Fixpoint assoc (key : string) (table : list (string * string)) : option string :=
  match table with
  | [] => None
  | (k, v) :: rest => if String.eqb k key then Some v else assoc key rest
  end.

(** What [getFilterCSS] returns: a filter string, or the inherited value
    found under a name of [Object.prototype]. *)
Inductive FilterValue : Type :=
  | Css (s : string)
  | Inherited (name : string).

(** [filterMap[filterId] || 'none']; every string of the table is
    non-empty, so [||] takes over for [undefined] only. *)
Definition getFilterCSS (filterId : string) : FilterValue :=
  match assoc filterId filterMap with
  | Some css => Css css
  | None =>
      if bool_decide (filterId ∈ objectPrototypeKeys)
      then Inherited filterId
      else Css "none"
  end.

(** [filterOptions] of FilterSelector.tsx: the [id] and the [cssFilter] of
    each option (name, description and icon are left out). *)
Definition filterOptions : list (string * string) :=
  [ ("none", "none");
    ("vintage", "sepia(0.5) contrast(1.2) brightness(1.1)");
    ("blackwhite", "grayscale(1) contrast(1.1)");
    ("warm", "hue-rotate(10deg) saturate(1.2) brightness(1.1)");
    ("cool", "hue-rotate(-10deg) saturate(1.1) brightness(0.95)");
    ("dramatic", "contrast(1.5) saturate(1.3) brightness(0.9)");
    ("soft", "brightness(1.1) saturate(0.8) blur(0.5px)");
    ("vivid", "saturate(1.5) contrast(1.2)") ]%string.

(** Arguments 2 to 5 of [ctx.drawImage(img, dx, dy, dw, dh)]. *)
Record DrawnImage : Type := mkDrawn {
  dx : jsnum; dy : jsnum; dw : jsnum; dh : jsnum
}.

Inductive ClipPath : Type :=
  | ClipRect (r : Rect)                     (* [ctx.rect] *)
  | ClipRoundRect (r : Rect) (radii : Q).   (* [ctx.roundRect] *)

(** What one call of [drawWithStyle] does: the filter it sets, the white
    frame it fills under a shadow (polaroid), the clip, the image it draws,
    and the gradient it lays over the cell (magazine). *)
Record StyledDraw : Type := mkStyled {
  sd_filter : FilterValue;
  sd_frame : option Rect;
  sd_clip : ClipPath;
  sd_image : DrawnImage;
  sd_overlay : option Rect
}.

(** The five lines that every branch of the [switch] repeats: the scale
    that covers a [w] x [h] area, times [transform.scale]; the scaled
    size; the offsets that centre it, plus [transform.x] and
    [transform.y]; the corner handed to [drawImage], which is the corner
    [(ox, oy)] of the area plus the offsets. *)
Definition placeImage (img : HTMLImageElement) (ox oy w h : Q)
    (transform : ImageTransform) : DrawnImage :=
  let scale_ :=
    jsmul (jsmax (jsdiv (Num w) (Num (img_width img)))
                 (jsdiv (Num h) (Num (img_height img))))
          (Num (scale transform)) in
  let scaledWidth := jsmul (Num (img_width img)) scale_ in
  let scaledHeight := jsmul (Num (img_height img)) scale_ in
  let offsetX :=
    jsadd (jsdiv (jssub (Num w) scaledWidth) (Num 2)) (Num (x transform)) in
  let offsetY :=
    jsadd (jsdiv (jssub (Num h) scaledHeight) (Num 2)) (Num (y transform)) in
  {| dx := jsadd (Num ox) offsetX; dy := jsadd (Num oy) offsetY;
     dw := scaledWidth; dh := scaledHeight |}.

Definition drawWithStyle (img : HTMLImageElement) (r : Rect)
    (style_ filterId : string) (transform : ImageTransform) : StyledDraw :=
  if String.eqb style_ "polaroid" then
    let borderSize := Qmin (rw r) (rh r) * (1 # 10) in
    let photoWidth := rw r - borderSize * 2 in
    let photoHeight := rh r - borderSize * 2 in
    {| sd_filter := getFilterCSS filterId;
       sd_frame := Some r;
       sd_clip := ClipRect {| rx := rx r + borderSize; ry := ry r + borderSize;
                              rw := photoWidth; rh := photoHeight |};
       sd_image := placeImage img (rx r + borderSize) (ry r + borderSize)
                     photoWidth photoHeight transform;
       sd_overlay := None |}
  else if String.eqb style_ "magazine" then
    {| sd_filter := getFilterCSS filterId;
       sd_frame := None;
       sd_clip := ClipRect r;
       sd_image := placeImage img (rx r) (ry r) (rw r) (rh r) transform;
       sd_overlay := Some r |}
  else if String.eqb style_ "creative" then
    {| sd_filter := getFilterCSS filterId;
       sd_frame := None;
       sd_clip := ClipRoundRect r (Qmin (rw r) (rh r) * (1 # 10));
       sd_image := placeImage img (rx r) (ry r) (rw r) (rh r) transform;
       sd_overlay := None |}
  else
    {| sd_filter := getFilterCSS filterId;
       sd_frame := None;
       sd_clip := ClipRoundRect r 8;
       sd_image := placeImage img (rx r) (ry r) (rw r) (rh r) transform;
       sd_overlay := None |}.

(** The rectangle that a clip path bounds. *)
Definition clipBounds (c : ClipPath) : Rect :=
  match c with
  | ClipRect r => r
  | ClipRoundRect r _ => r
  end.

(** [onClick] of a thumbnail:
    [setSelectedImageIndex(selectedImageIndex === index ? null : index)] *)
Definition handleThumbnailClick (index : nat) (st : State) : State :=
  setSelectedImageIndex
    (if decide (selectedImageIndex st = Some index) then None else Some index)
    st.



Definition opRect (op : DrawOp) : option Rect :=
  match op with
  | DrawWithStyle _ r _ _ _ | StrokeSelected r | DrawPlaceholder r _ => Some r
  | _ => None
  end.

(** The parent's [setUploadedImages]: the [images] prop changes, the
    component's own state stays. *)
Definition setImages (imgs : list string) (st : State) : State :=
  {| images := imgs;
     imageTransforms := imageTransforms st;
     selectedImageIndex := selectedImageIndex st;
     dragIndex := dragIndex st;
     dropIndex := dropIndex st;
     dragState := dragState st;
     canvasRect := canvasRect st |}.

(** The state in which every image has a transform and the selection, if
    any, is an image. *)
Definition settled (st : State) : Prop :=
  length (imageTransforms st) = length (images st) ∧
  ∀ sel, selectedImageIndex st = Some sel → (sel < length (images st))%nat.

(** A whole thumbnail drag: start on [i], drop on [j], end. *)
Definition dragThumbnail (i j : nat) (st : State) : State :=
  handleDragEnd (handleDrop j (handleDragStart i st)).

(** ** The size selector (SizeSelector, in PuzzleBoard.tsx)

    The [ratio] strings of [aspectRatioOptions] with the two numbers that
    [ratio.split(':').map(Number)] yields from each, and the [value]s of
    [resolutionOptions]. *)
Definition aspectRatioOptions : list (string * (Z * Z)) :=
  [ ("1:1", (1, 1)); ("3:4", (3, 4)); ("4:3", (4, 3));
    ("9:16", (9, 16)); ("16:9", (16, 9)); ("2:3", (2, 3)) ]%string%Z.

Definition resolutionOptions : list Z := [720; 1080; 1440; 2048]%Z.

(** [calculateSize(aspectRatio, resolution)] for a pair of integers.  The
    arithmetic is that of exact rationals, which the doubles of the source
    follow for the ratios and resolutions of any screen; the theorem on
    arbitrary integers below bounds them. *)
Definition sizeFor (ratio : Z * Z) (resolution : Z) : OutputSize :=
  calculateSize (Num (inject_Z ratio.1)) (Num (inject_Z ratio.2))
    (Num (inject_Z resolution)).

(** ** The template selector (TemplateSelector, in PuzzleBoard.tsx)

    A template with its [id]; [name] and [description] are left out. *)
Record TemplateOption : Type := mkOption {
  option_id : string;
  layout : CollageTemplate
}.

Definition templateOption (id_ : string) (rows_ cols_ : nat) (style_ : string)
    : TemplateOption :=
  {| option_id := id_;
     layout := {| rows := rows_; cols := cols_; style := Some style_ |} |}.

(** [generateTemplatesForCount]: the six [if (count === n)] blocks push
    in turn; no other count pushes anything. *)
Definition generateTemplatesForCount (count : nat) : list TemplateOption :=
  if (count =? 0)%nat then []
  else
    (if (count =? 1)%nat
     then [ templateOption "1x1" 1 1 "grid";
            templateOption "polaroid-1" 1 1 "polaroid" ] else []) ++
    (if (count =? 2)%nat
     then [ templateOption "2x1" 1 2 "grid";
            templateOption "1x2" 2 1 "grid";
            templateOption "magazine-2" 1 2 "magazine" ] else []) ++
    (if (count =? 3)%nat
     then [ templateOption "3x1" 1 3 "grid";
            templateOption "1x3" 3 1 "grid";
            templateOption "triangle-3" 2 2 "creative";
            templateOption "polaroid-3" 2 2 "polaroid" ] else []) ++
    (if (count =? 4)%nat
     then [ templateOption "2x2" 2 2 "grid";
            templateOption "4x1" 1 4 "grid";
            templateOption "magazine-4" 2 2 "magazine";
            templateOption "collage-4" 2 2 "creative" ] else []) ++
    (if (count =? 6)%nat
     then [ templateOption "3x2" 2 3 "grid";
            templateOption "2x3" 3 2 "grid";
            templateOption "magazine-6" 2 3 "magazine" ] else []) ++
    (if (count =? 9)%nat
     then [ templateOption "3x3" 3 3 "grid";
            templateOption "polaroid-9" 3 3 "polaroid" ] else []).

(** [filledCells] of [renderTemplatePreview]. *)
Definition filledCells (imageCount : nat) (t : CollageTemplate) : nat :=
  imageCount `min` (rows t * cols t).

(** ** The recommendation of Home.tsx *)

(** The object [templates] of [getRecommendedTemplate], by key. *)
Definition recommendedTemplates : list (nat * TemplateOption) :=
  [ (1%nat, templateOption "1x1" 1 1 "grid");
    (2%nat, templateOption "2x1" 1 2 "grid");
    (3%nat, templateOption "3x1" 1 3 "grid");
    (4%nat, templateOption "2x2" 2 2 "grid");
    (6%nat, templateOption "3x2" 2 3 "grid");
    (9%nat, templateOption "3x3" 3 3 "grid") ].

Fixpoint lookupCount (count : nat) (table : list (nat * TemplateOption))
    : option TemplateOption :=
  match table with
  | [] => None
  | (k, t) :: rest => if (k =? count)%nat then Some t else lookupCount count rest
  end.

(** The loop over the entries sorted by key: the first whose key is at
    least [count]. *)
Fixpoint firstAtLeast (count : nat) (table : list (nat * TemplateOption))
    : option TemplateOption :=
  match table with
  | [] => None
  | (k, t) :: rest => if (count <=? k)%nat then Some t else firstAtLeast count rest
  end.

(** [getRecommendedTemplate]: the exact key, else the first key that is
    large enough (the table above is in the order of its keys, the order
    of the sorted entries), else [templates[9]]. *)
Definition getRecommendedTemplate (count : nat) : TemplateOption :=
  match lookupCount count recommendedTemplates with
  | Some t => t
  | None =>
      match firstAtLeast count recommendedTemplates with
      | Some t => t
      | None => templateOption "3x3" 3 3 "grid"
      end
  end.

(** The effect of Home.tsx on [uploadedImages.length] and
    [selectedTemplate]: the new selected template. *)
Definition recommendEffect (imageCount : nat) (selectedTemplate : TemplateOption)
    : TemplateOption :=
  if (0 <? imageCount)%nat then
    let recommendedTemplate := getRecommendedTemplate imageCount in
    let currentSlots :=
      (rows (layout selectedTemplate) * cols (layout selectedTemplate))%nat in
    if (currentSlots <? imageCount)%nat then recommendedTemplate
    else selectedTemplate
  else selectedTemplate.

(** ** Removing an image (ImageUploader.tsx) *)

(** [uploadedImages.filter((_, i) => i !== index)] *)
Definition handleRemoveImage (index : nat) (uploadedImages : list string)
    : list string :=
  omap (λ x, x)
    (imap (λ i image, if (i =? index)%nat then None else Some image)
       uploadedImages).

(** * The puzzle game (PuzzleBoard.tsx)

    The board is [size] by [size]; [size] and the piece ids and positions
    are natural numbers, as the loops of the source produce them.  The
    component state is passed explicitly; the calls of [onComplete] that
    [checkCompletion] schedules with [setTimeout] are counted in the
    state.  The state also records whether React runs in StrictMode (the
    sources do not show how the component is mounted): there React calls
    every state updater twice.  [Math.random] is an oracle: the function
    [random] gives the result of its n-th call. *)

(** [Math.floor(a)] *)
Definition Math_floor (a : jsnum) : jsnum :=
  match a with
  | Num x => Num (inject_Z (Qfloor x))
  | other => other
  end.

(** [Math.trunc] on a rational: towards zero. *)
Definition Qtruncate (x : Q) : Z :=
  if Qle_bool 0 x then Qfloor x else Qceiling x.

(** [a % b]: the remainder has the sign of the dividend. *)
Definition jsmod (a b : jsnum) : jsnum :=
  match a, b with
  | NaN, _ | _, NaN => NaN
  | Infinity, _ | NegInfinity, _ => NaN
  | Num x, Infinity | Num x, NegInfinity => Num x
  | Num x, Num y =>
      if Qeq_bool y 0 then NaN
      else Num (x - y * inject_Z (Qtruncate (x / y)))
  end.

(** A natural number as a JavaScript number. *)
Definition ofNat (n : nat) : jsnum := Num (inject_Z (Z.of_nat n)).

(** [array.findIndex(f)]; [None] is the source's [-1]. *)
Fixpoint findIndex {A} (f : A → bool) (l : list A) : option nat :=
  match l with
  | [] => None
  | a :: l => if f a then Some 0%nat else S <$> findIndex f l
  end.

(** [set.add(x)] on a [Set], kept in insertion order. *)
Definition setAdd (x : nat) (s : list nat) : list nat :=
  if bool_decide (x ∈ s) then s else s ++ [x].

Module PuzzleBoard.

Record PuzzlePieceData : Type := {
  id : nat;
  correctPosition : nat;
  currentPosition : nat;
  imageUrl : string
}.

(** [piece.currentPosition = position] *)
Definition setCurrentPosition (position : nat) (piece : PuzzlePieceData)
  : PuzzlePieceData :=
  {| id := id piece;
     correctPosition := correctPosition piece;
     currentPosition := position;
     imageUrl := imageUrl piece |}.

Record State : Type := {
  pieces : list PuzzlePieceData;
  completedPieces : list nat;
  draggedPiece : option nat;
  gameCompleted : bool;
  (** calls of [onComplete] scheduled so far *)
  onCompleteTimers : nat;
  (** the environment: React runs in StrictMode *)
  strictMode : bool
}.

(** The state of the first render, outside StrictMode. *)
Definition initialState : State :=
  {| pieces := [];
     completedPieces := [];
     draggedPiece := None;
     gameCompleted := false;
     onCompleteTimers := 0;
     strictMode := false |}.

(** [[a[i], a[j]] = [a[j], a[i]]]: both entries are read, then [a[i]] and
    [a[j]] are written in this order.  The result is [None] where an index
    lies outside the array (the source would read [undefined] there and
    grow the array); by [shuffleFrom_perm] the shuffle never gets there. *)
Definition swapEntries (i : nat) (j : Z) (a : list nat) : option (list nat) :=
  if (0 <=? j)%Z then
    match a !! i, a !! Z.to_nat j with
    | Some ai, Some aj => Some (<[Z.to_nat j := ai]> (<[i := aj]> a))
    | _, _ => None
    end
  else None.

(** The loop [for (let i = length - 1; i > 0; i--)] of the shuffle, entered
    at index [i] with [call] calls of [Math.random] made before. *)
Fixpoint shuffleFrom (random : nat → Q) (call : nat) (i : nat) (a : list nat)
  : option (list nat) :=
  match i with
  | O => Some a
  | S i' =>
      let j := Qfloor (random call * inject_Z (Z.of_nat i + 1)) in
      a' ← swapEntries i j a;
      shuffleFrom random (S call) i' a'
  end.

(** [PuzzleBoard.tsx], lines 32-59.  The pieces and the shuffled positions
    are both [totalPieces] long (a swap keeps the length), so that pairing
    them up is the indexed read [shuffledPositions[index]]. *)
Definition initializePuzzle (image : string) (size : nat)
    (random : nat → Q) (st : State) : option State :=
  let totalPieces := (size * size)%nat in
  let newPieces :=
    map (λ i, {| id := i; correctPosition := i; currentPosition := i;
                 imageUrl := image |}) (seq 0 totalPieces) in
  shuffledPositions ←
    shuffleFrom random 0 (totalPieces - 1) (seq 0 totalPieces);
  Some {| pieces := zip_with (λ piece position,
                                setCurrentPosition position piece)
                      newPieces shuffledPositions;
          completedPieces := [];
          draggedPiece := draggedPiece st;
          gameCompleted := false;
          onCompleteTimers := onCompleteTimers st;
          strictMode := strictMode st |}.

Definition isCorrect (piece : PuzzlePieceData) : bool :=
  (correctPosition piece =? currentPosition piece)%nat.

(** [PuzzleBoard.tsx], lines 64-84.  The callback reads the [gameCompleted]
    of the render that made it ([rendered]), not the state of the moment
    it runs in. *)
Definition checkCompletion (rendered : bool)
    (currentPieces : list PuzzlePieceData) (st : State) : State :=
  let completed :=
    foldl (λ completed piece,
             if isCorrect piece then setAdd (id piece) completed
             else completed) [] currentPieces in
  let allCorrect := forallb isCorrect currentPieces in
  let fire := allCorrect && negb rendered in
  {| pieces := pieces st;
     completedPieces := completed;
     draggedPiece := draggedPiece st;
     gameCompleted := if fire then true else gameCompleted st;
     onCompleteTimers :=
       if fire then S (onCompleteTimers st) else onCompleteTimers st;
     strictMode := strictMode st |}.

(** [PuzzleBoard.tsx], lines 89-91. *)
Definition handleDragStart (pieceId : nat) (st : State) : State :=
  {| pieces := pieces st;
     completedPieces := completedPieces st;
     draggedPiece := Some pieceId;
     gameCompleted := gameCompleted st;
     onCompleteTimers := onCompleteTimers st;
     strictMode := strictMode st |}.

(** [PuzzleBoard.tsx], lines 96-98. *)
Definition handleDragEnd (st : State) : State :=
  {| pieces := pieces st;
     completedPieces := completedPieces st;
     draggedPiece := None;
     gameCompleted := gameCompleted st;
     onCompleteTimers := onCompleteTimers st;
     strictMode := strictMode st |}.

(** The updater of [handleDrop], lines 107-116: the pieces after the
    exchange.  When both indices are the same piece, the two writes put
    back what was there. *)
Definition exchange (dragged targetPosition : nat)
    (currentPieces : list PuzzlePieceData) : list PuzzlePieceData :=
  match findIndex (λ p, (id p =? dragged)%nat) currentPieces,
        findIndex (λ p, (currentPosition p =? targetPosition)%nat)
          currentPieces with
  | Some draggedIndex, Some targetIndex =>
      match currentPieces !! draggedIndex, currentPieces !! targetIndex with
      | Some draggedEntry, Some targetEntry =>
          let temp := currentPosition draggedEntry in
          alter (setCurrentPosition temp) targetIndex
            (alter (setCurrentPosition (currentPosition targetEntry))
               draggedIndex currentPieces)
      | _, _ => currentPieces
      end
  | _, _ => currentPieces
  end.

(** One run of the updater that [handleDrop] hands to [setPieces], lines
    106-120, on the pieces as they stand.  The copy [[...currentPieces]]
    shares the piece objects, which the exchange writes to: a second run
    finds the positions that the first run has left. *)
Definition dropUpdater (dragged targetPosition : nat) (rendered : bool)
    (st : State) : State :=
  let newPieces := exchange dragged targetPosition (pieces st) in
  checkCompletion rendered newPieces
    {| pieces := newPieces;
       completedPieces := completedPieces st;
       draggedPiece := draggedPiece st;
       gameCompleted := gameCompleted st;
       onCompleteTimers := onCompleteTimers st;
       strictMode := strictMode st |}.

(** [PuzzleBoard.tsx], lines 103-121.  React runs the updater once, and
    twice in StrictMode; each run calls [checkCompletion], with the
    [gameCompleted] of the render that made [handleDrop]. *)
Definition handleDrop (targetPosition : nat) (st : State) : State :=
  match draggedPiece st with
  | None => st
  | Some dragged =>
      let once :=
        dropUpdater dragged targetPosition (gameCompleted st) st in
      if strictMode st
      then dropUpdater dragged targetPosition (gameCompleted st) once
      else once
  end.

(** [PuzzleBoard.tsx], lines 126-132: the two percentages of the
    returned string. *)
Definition getBackgroundPosition (size pieceId : nat) : jsnum * jsnum :=
  let row := Math_floor (jsdiv (ofNat pieceId) (ofNat size)) in
  let col := jsmod (ofNat pieceId) (ofNat size) in
  let percentX := jsmul (jsdiv col (jssub (ofNat size) (Num 1))) (Num 100) in
  let percentY := jsmul (jsdiv row (jssub (ofNat size) (Num 1))) (Num 100) in
  (percentX, percentY).

(** [PuzzleBoard.tsx], line 146. *)
Definition progress (st : State) : jsnum :=
  Math_round
    (jsmul (jsdiv (ofNat (length (completedPieces st)))
              (ofNat (length (pieces st))))
       (Num 100)).

(** The piece shown in the cell [position], line 181. *)
Definition pieceAt (position : nat) (st : State) : option PuzzlePieceData :=
  find (λ p, (currentPosition p =? position)%nat) (pieces st).

(** The events the cells of the board pass on, lines 193-195. *)
Inductive Event : Type :=
  | DragStart (pieceId : nat)
  | DragEnd
  | Drop (position : nat).

Definition handle (e : Event) (st : State) : State :=
  match e with
  | DragStart pieceId => handleDragStart pieceId st
  | DragEnd => handleDragEnd st
  | Drop position => handleDrop position st
  end.

Definition play (events : list Event) (st : State) : State :=
  foldl (λ st e, handle e st) st events.

End PuzzleBoard.

(** A 2 by 2 puzzle in play: the pieces 0 and 3 stand in each other's
    place, and piece 0 is being dragged. *)
Definition swappedCorners : PuzzleBoard.State :=
  {| PuzzleBoard.pieces :=
       [ {| PuzzleBoard.id := 0; PuzzleBoard.correctPosition := 0;
            PuzzleBoard.currentPosition := 3;
            PuzzleBoard.imageUrl := "photo" |};
         {| PuzzleBoard.id := 1; PuzzleBoard.correctPosition := 1;
            PuzzleBoard.currentPosition := 1;
            PuzzleBoard.imageUrl := "photo" |};
         {| PuzzleBoard.id := 2; PuzzleBoard.correctPosition := 2;
            PuzzleBoard.currentPosition := 2;
            PuzzleBoard.imageUrl := "photo" |};
         {| PuzzleBoard.id := 3; PuzzleBoard.correctPosition := 3;
            PuzzleBoard.currentPosition := 0;
            PuzzleBoard.imageUrl := "photo" |} ];
     PuzzleBoard.completedPieces := [];
     PuzzleBoard.draggedPiece := Some 0%nat;
     PuzzleBoard.gameCompleted := false;
     PuzzleBoard.onCompleteTimers := 0;
     PuzzleBoard.strictMode := false |}.

(** The same board in StrictMode. *)
Definition swappedCornersStrict : PuzzleBoard.State :=
  {| PuzzleBoard.pieces := PuzzleBoard.pieces swappedCorners;
     PuzzleBoard.completedPieces := [];
     PuzzleBoard.draggedPiece := Some 0%nat;
     PuzzleBoard.gameCompleted := false;
     PuzzleBoard.onCompleteTimers := 0;
     PuzzleBoard.strictMode := true |}.

(** ** Numbers: the facts the proofs use *)

Lemma Qltb_lt (a b : Q) : Qltb a b = true ↔ a < b.
Proof.
  unfold Qltb. rewrite negb_true_iff.
  destruct (Qle_bool b a) eqn:E.
  - apply Qle_bool_iff in E. split; [discriminate | intros; exfalso; lra].
  - split; [intros _ | reflexivity].
    destruct (Qlt_le_dec a b) as [Hlt | Hle]; [exact Hlt |].
    apply Qle_bool_iff in Hle. congruence.
Qed.

Lemma Qltb_ge (a b : Q) : Qltb a b = false ↔ b <= a.
Proof.
  unfold Qltb. rewrite negb_false_iff. apply Qle_bool_iff.
Qed.

Lemma jsgt_not_jsge (a b : jsnum) : jsgt a b = true → jsge b a = false.
Proof.
  destruct a, b; simpl; try congruence.
  unfold Qltb. intros E. apply negb_true_iff in E. exact E.
Qed.

Lemma Math_round_isRounded (v : jsnum) : isRounded v (Math_round v).
Proof.
  destruct v as [q | | |]; simpl; try reflexivity.
  exists (Qfloor (q + (1 # 2))). split; [reflexivity |].
  pose proof (Qfloor_le (q + (1 # 2))) as Hlo.
  pose proof (Qlt_floor (q + (1 # 2))) as Hhi.
  rewrite inject_Z_plus in Hhi. change (inject_Z 1) with 1 in Hhi.
  split; lra.
Qed.

(** ** C1, C7: the output size *)

(** C1.  When [aspectW >= aspectH] the size has [width = resolution] and
    its height is [resolution * aspectH / aspectW] rounded to the nearest
    integer; when [aspectH > aspectW] it has [height = resolution] and the
    width is [resolution * aspectW / aspectH] rounded. *)
Theorem calculateOutputSize_spec (aspectW aspectH resolution : jsnum) :
  let s := calculateOutputSize aspectW aspectH resolution in
  (jsge aspectW aspectH = true →
     width s = resolution ∧
     height s = Math_round (jsdiv (jsmul resolution aspectH) aspectW) ∧
     isRounded (jsdiv (jsmul resolution aspectH) aspectW) (height s)) ∧
  (jsgt aspectH aspectW = true →
     height s = resolution ∧
     width s = Math_round (jsdiv (jsmul resolution aspectW) aspectH) ∧
     isRounded (jsdiv (jsmul resolution aspectW) aspectH) (width s)).
Proof.
  unfold calculateOutputSize. split; intros Hcmp.
  - rewrite Hcmp. simpl. auto using Math_round_isRounded.
  - rewrite (jsgt_not_jsge _ _ Hcmp). simpl. auto using Math_round_isRounded.
Qed.

Lemma calculateOutputSize_spec_witness :
  jsge (Num 16) (Num 9) = true ∧
  width (calculateOutputSize (Num 16) (Num 9) (Num 1080)) = Num 1080 ∧
  height (calculateOutputSize (Num 16) (Num 9) (Num 1080)) =
    Math_round (jsdiv (jsmul (Num 1080) (Num 9)) (Num 16)).
Proof.
  split; [reflexivity |].
  destruct (calculateOutputSize_spec (Num 16) (Num 9) (Num 1080)) as [Hw _].
  destruct (Hw eq_refl) as (H1 & H2 & _). split; [exact H1 | exact H2].
Defined.

Example calculateOutputSize_16_9_1080 :
  calculateOutputSize (Num 16) (Num 9) (Num 1080)
  = {| width := Num 1080; height := Num 608 |}.
Proof. reflexivity. Qed.

Example calculateOutputSize_9_16_1080 :
  calculateSize (Num 9) (Num 16) (Num 1080)
  = {| width := Num 608; height := Num 1080 |}.
Proof. reflexivity. Qed.

(** For arguments that are all positive the code returns what the
    specification's [computeOutputSize] returns. *)
Lemma calculateOutputSize_valid (aspectW aspectH resolution : jsnum) :
  jsgt aspectW (Num 0) = true → jsgt aspectH (Num 0) = true →
  jsgt resolution (Num 0) = true →
  call_calculateOutputSize aspectW aspectH resolution
  = spec_computeOutputSize aspectW aspectH resolution.
Proof.
  intros Hw Hh Hr. unfold spec_computeOutputSize, jsle.
  rewrite (jsgt_not_jsge _ _ Hw), (jsgt_not_jsge _ _ Hh), (jsgt_not_jsge _ _ Hr).
  simpl. unfold call_calculateOutputSize, calculateOutputSize.
  destruct (jsge aspectW aspectH); reflexivity.
Qed.

(** C7, as the code has it.  [calculateOutputSize] checks nothing: for an
    argument that is zero or negative the call still returns a size, built
    by the same two branches (one side is the resolution as given, the
    other the rounded quotient), and for a resolution that is not positive
    that size has a side that is not positive. *)
Theorem calculateOutputSize_unvalidated (aspectW aspectH resolution : jsnum) :
  jsle aspectW (Num 0) = true ∨ jsle aspectH (Num 0) = true ∨
  jsle resolution (Num 0) = true →
  ∃ s : OutputSize,
    call_calculateOutputSize aspectW aspectH resolution = SizeOk s ∧
    (jsge aspectW aspectH = true →
       width s = resolution ∧
       height s = Math_round (jsdiv (jsmul resolution aspectH) aspectW)) ∧
    (jsge aspectW aspectH = false →
       height s = resolution ∧
       width s = Math_round (jsdiv (jsmul resolution aspectW) aspectH)) ∧
    (jsle resolution (Num 0) = true →
       jsle (width s) (Num 0) = true ∨ jsle (height s) (Num 0) = true).
Proof.
  intros _. exists (calculateOutputSize aspectW aspectH resolution).
  split; [reflexivity |]. unfold calculateOutputSize.
  destruct (jsge aspectW aspectH); simpl;
    (split; [intros; try discriminate; auto |]);
    (split; [intros; try discriminate; auto |]); auto.
Qed.

Lemma calculateOutputSize_unvalidated_witness :
  ∃ s : OutputSize,
    call_calculateOutputSize (Num 1) (Num 1) (Num (-5)) = SizeOk s ∧
    (jsle (Num (-5)) (Num 0) = true →
       jsle (width s) (Num 0) = true ∨ jsle (height s) (Num 0) = true).
Proof.
  destruct (calculateOutputSize_unvalidated (Num 1) (Num 1) (Num (-5)))
    as (s & Hs & _ & _ & Hneg).
  - right. right. reflexivity.
  - exists s. split; [exact Hs | exact Hneg].
Defined.

(** C7, as the specification words it, fails: the aspect ratio [-1:-1] is
    not positive, yet the call returns the size 1080 x 1080. *)
Lemma calculateOutputSize_negative_aspect_returns :
  jsle (Num (-1)) (Num 0) = true ∧
  spec_computeOutputSize (Num (-1)) (Num (-1)) (Num 1080) = ConfigurationError ∧
  call_calculateOutputSize (Num (-1)) (Num (-1)) (Num 1080)
  = SizeOk {| width := Num 1080; height := Num 1080 |} ∧
  call_calculateOutputSize (Num (-1)) (Num (-1)) (Num 1080) ≠ ConfigurationError.
Proof.
  split; [reflexivity |]. split; [reflexivity |].
  split; [reflexivity | discriminate].
Qed.

(** The same with a zero aspect ratio and with a zero resolution. *)
Example calculateOutputSize_zero_aspect :
  calculateOutputSize (Num 0) (Num 0) (Num 1080)
  = {| width := Num 1080; height := NaN |}.
Proof. reflexivity. Qed.

Example calculateOutputSize_zero_resolution :
  calculateOutputSize (Num 4) (Num 3) (Num 0)
  = {| width := Num 0; height := Num 0 |}.
Proof. reflexivity. Qed.

(** ** C8: reconciliation of the transform array *)

Lemma reconcileTransforms_lookup (imgs : list string)
    (prev : list ImageTransform) (k : nat) :
  reconcileTransforms imgs prev !! k =
    if decide (k < length imgs)%nat
    then Some (default {| x := 0; y := 0; scale := 1 |} (prev !! k))
    else None.
Proof.
  unfold reconcileTransforms. rewrite list_lookup_imap.
  case_decide as Hk.
  - apply lookup_lt_is_Some_2 in Hk as [src ->]. simpl.
    by destruct (prev !! k).
  - rewrite (lookup_ge_None_2 imgs k) by lia. reflexivity.
Qed.

Lemma reconcileTransforms_spec (imgs : list string) (prev : list ImageTransform) :
  reconcileTransforms imgs prev = spec_reconcile (length imgs) prev.
Proof.
  apply list_eq. intros k. rewrite reconcileTransforms_lookup.
  unfold spec_reconcile.
  destruct (decide (k < length prev)%nat) as [Hp | Hp].
  - case_decide as Hk.
    + rewrite lookup_app_l by (rewrite length_take; lia).
      rewrite lookup_take_lt by lia.
      apply lookup_lt_is_Some_2 in Hp as [t ->]. reflexivity.
    + symmetry. apply lookup_ge_None_2.
      rewrite length_app, length_take, length_replicate. lia.
  - rewrite (lookup_ge_None_2 prev k) by lia. simpl.
    case_decide as Hk.
    + rewrite lookup_app_r by (rewrite length_take; lia).
      rewrite length_take. symmetry. apply lookup_replicate_2. lia.
    + symmetry. apply lookup_ge_None_2.
      rewrite length_app, length_take, length_replicate. lia.
Qed.

Lemma reconcileEffect_fields (st : State) :
  images (reconcileEffect st) = images st ∧
  imageTransforms (reconcileEffect st)
  = reconcileTransforms (images st) (imageTransforms st).
Proof.
  unfold reconcileEffect.
  destruct (selectedImageIndex st) as [sel |]; [| done].
  by destruct (length (images st) <=? sel)%nat.
Qed.

(** C8.  The effect that runs when the number of images changes keeps the
    transform of every index that had one, gives the default transform
    [{x: 0, y: 0, scale: 1}] to the new indices, and drops what lies past
    the new length: the new array is the old one cut to the new length and
    filled up with defaults.  The images themselves are not touched. *)
Theorem reconcileEffect_arena (st : State) :
  let prev := imageTransforms st in
  let new := imageTransforms (reconcileEffect st) in
  let n := length (images st) in
  images (reconcileEffect st) = images st ∧
  length new = n ∧
  (∀ k t, (k < n)%nat → prev !! k = Some t → new !! k = Some t) ∧
  (∀ k, (length prev <= k)%nat → (k < n)%nat →
        new !! k = Some {| x := 0; y := 0; scale := 1 |}) ∧
  (∀ k, (n <= k)%nat → new !! k = None) ∧
  new = spec_reconcile n prev.
Proof.
  destruct (reconcileEffect_fields st) as [Hi Ht]. simpl. rewrite Ht.
  split; [exact Hi |].
  split; [unfold reconcileTransforms; apply length_imap |].
  repeat split.
  - intros k t Hk Hp. rewrite reconcileTransforms_lookup, Hp.
    by rewrite decide_True.
  - intros k Hp Hk. rewrite reconcileTransforms_lookup.
    rewrite decide_True by done. by rewrite lookup_ge_None_2.
  - intros k Hk. rewrite reconcileTransforms_lookup.
    by rewrite decide_False by lia.
  - apply reconcileTransforms_spec.
Qed.

(** Three images where one transform was known: the known one is kept and
    two defaults are added; one image where two were known: the second
    transform is dropped. *)
Lemma reconcileEffect_arena_witness :
  let nudged := {| x := 10; y := -5; scale := 15 # 10 |} in
  imageTransforms (reconcileEffect
    {| images := ["a"; "b"; "c"]%string; imageTransforms := [nudged];
       selectedImageIndex := None; dragIndex := None; dropIndex := None;
       dragState := None; canvasRect := None |})
  = [nudged; {| x := 0; y := 0; scale := 1 |};
     {| x := 0; y := 0; scale := 1 |}] ∧
  imageTransforms (reconcileEffect
    {| images := ["a"]%string;
       imageTransforms := [nudged; {| x := 0; y := 0; scale := 1 |}];
       selectedImageIndex := Some 1%nat; dragIndex := None; dropIndex := None;
       dragState := None; canvasRect := None |})
  = [nudged].
Proof.
  intros nudged. split.
  - destruct (reconcileEffect_arena
      {| images := ["a"; "b"; "c"]%string; imageTransforms := [nudged];
         selectedImageIndex := None; dragIndex := None; dropIndex := None;
         dragState := None; canvasRect := None |})
      as (_ & _ & _ & _ & _ & Heq).
    rewrite Heq. reflexivity.
  - destruct (reconcileEffect_arena
      {| images := ["a"]%string;
         imageTransforms := [nudged; {| x := 0; y := 0; scale := 1 |}];
         selectedImageIndex := Some 1%nat; dragIndex := None; dropIndex := None;
         dragState := None; canvasRect := None |})
      as (_ & _ & _ & _ & _ & Heq).
    rewrite Heq. reflexivity.
Defined.

(** ** C10, C4, C5: updates of one transform *)

Lemma updateImageTransform_lookup (index : nat) (patch : PartialTransform)
    (st : State) (k : nat) :
  imageTransforms (updateImageTransform index patch st) !! k =
    (λ t, if (k =? index)%nat then spread t patch else t)
      <$> imageTransforms st !! k.
Proof. unfold updateImageTransform. simpl. apply list_lookup_imap. Qed.

Lemma updateImageTransform_keeps (index j : nat) (patch : PartialTransform)
    (st : State) :
  index ≠ j → keepsIndex j st (updateImageTransform index patch st).
Proof.
  intros Hne. split; [reflexivity |]. split.
  - unfold updateImageTransform. simpl. apply length_imap.
  - rewrite updateImageTransform_lookup.
    destruct (imageTransforms st !! j) as [t |]; [simpl | reflexivity].
    destruct (Nat.eqb_spec j index); [congruence | reflexivity].
Qed.

Lemma sliderChange_keeps (i j : nat) (patch : PartialTransform) (st : State) :
  selectedImageIndex st = Some i → i ≠ j →
  keepsIndex j st (sliderChange patch st).
Proof.
  intros Hsel Hne. unfold sliderChange. rewrite Hsel.
  destruct (imageTransforms st !! i);
    [by apply updateImageTransform_keeps | by repeat split].
Qed.

(** C10.  An update of the transform at index [i] -- by
    [updateImageTransform] itself, by a reset, by a move of a canvas drag
    whose target is [i], or by a slider or the reset button while [i] is
    selected -- leaves the transform at every other index [j] as it was,
    and leaves the images and the number of transforms as they were. *)
Theorem transform_update_frame (st : State) (i j : nat) :
  i ≠ j →
  (∀ patch, keepsIndex j st (updateImageTransform i patch st)) ∧
  keepsIndex j st (resetImageTransform i st) ∧
  (∀ ds clientX clientY,
     dragState st = Some ds → imageIndex ds = i →
     keepsIndex j st (handleCanvasDragMove clientX clientY st)) ∧
  (∀ value,
     selectedImageIndex st = Some i →
     keepsIndex j st (onXSliderChange value st) ∧
     keepsIndex j st (onYSliderChange value st) ∧
     keepsIndex j st (onScaleSliderChange value st) ∧
     keepsIndex j st (onResetClick st)).
Proof.
  intros Hne. split; [| split; [| split]].
  - intros patch. by apply updateImageTransform_keeps.
  - by apply updateImageTransform_keeps.
  - intros ds clientX clientY Hds Hi. unfold handleCanvasDragMove.
    rewrite Hds. destruct (isDragging ds); simpl.
    + rewrite Hi. by apply updateImageTransform_keeps.
    + by repeat split.
  - intros value Hsel.
    split; [by apply (sliderChange_keeps i) |].
    split; [by apply (sliderChange_keeps i) |].
    split; [by apply (sliderChange_keeps i) |].
    unfold onResetClick. rewrite Hsel.
    destruct (imageTransforms st !! i);
      [by apply updateImageTransform_keeps | by repeat split].
Qed.

Lemma transform_update_frame_witness :
  keepsIndex 1 twoImages (resetImageTransform 0 twoImages) ∧
  keepsIndex 1 twoImages (onScaleSliderChange (3 # 2) twoImages) ∧
  keepsIndex 1 draggingFirst (handleCanvasDragMove 130 90 draggingFirst).
Proof.
  split; [| split].
  - destruct (transform_update_frame twoImages 0 1) as (_ & Hr & _);
      [lia | exact Hr].
  - destruct (transform_update_frame twoImages 0 1) as (_ & _ & _ & Hs);
      [lia |].
    destruct (Hs (3 # 2) eq_refl) as (_ & _ & Hscale & _). exact Hscale.
  - destruct (transform_update_frame draggingFirst 0 1) as (_ & _ & Hd & _);
      [lia |].
    exact (Hd _ 130 90 eq_refl eq_refl).
Defined.

Lemma clampOffset_clamp (v : Q) : clampOffset v == clamp v (-100) 100.
Proof.
  unfold clampOffset, clamp.
  destruct (Qltb v (-100)) eqn:Hlo.
  - apply Qltb_lt in Hlo. rewrite (Q.min_r 100 v) by lra.
    apply Q.max_l. lra.
  - apply Qltb_ge in Hlo. destruct (Qltb 100 v) eqn:Hhi.
    + apply Qltb_lt in Hhi. rewrite (Q.min_l 100 v) by lra.
      apply Q.max_r. lra.
    + apply Qltb_ge in Hhi. rewrite (Q.min_r 100 v) by lra.
      apply Q.max_r. lra.
Qed.

Lemma clamp_bounds (v lo hi : Q) : lo <= hi → lo <= clamp v lo hi <= hi.
Proof.
  intros Hle. unfold clamp.
  destruct (Qltb v lo) eqn:Hlo; [split; lra |].
  apply Qltb_ge in Hlo.
  destruct (Qltb hi v) eqn:Hhi; [split; lra |].
  apply Qltb_ge in Hhi. split; lra.
Qed.

(** C4.  While a canvas drag is active, a pointer move to
    [(clientX, clientY)] sets the [x] of the dragged image's transform to
    [clamp (origin.x + (clientX - startX) * 0.5, -100, 100)] and its [y]
    likewise; the [scale] of that transform and the drag state stay as
    they are. *)
Theorem handleCanvasDragMove_clamped (st : State) (ds : DragState)
    (t : ImageTransform) (clientX clientY : Q) :
  dragState st = Some ds → isDragging ds = true →
  imageTransforms st !! imageIndex ds = Some t →
  let st' := handleCanvasDragMove clientX clientY st in
  ∃ t', imageTransforms st' !! imageIndex ds = Some t' ∧
        x t' == clamp (x (initialTransform ds)
                       + (clientX - startX ds) * (1 # 2)) (-100) 100 ∧
        y t' == clamp (y (initialTransform ds)
                       + (clientY - startY ds) * (1 # 2)) (-100) 100 ∧
        -100 <= x t' <= 100 ∧ -100 <= y t' <= 100 ∧
        scale t' = scale t ∧
        dragState st' = Some ds.
Proof.
  intros Hds Hdrag Ht st'. subst st'.
  unfold handleCanvasDragMove. rewrite Hds, Hdrag. cbn [negb]. cbv zeta.
  eexists. split.
  { rewrite updateImageTransform_lookup, Ht. simpl.
    rewrite Nat.eqb_refl. reflexivity. }
  simpl. split; [apply clampOffset_clamp |]. split; [apply clampOffset_clamp |].
  split; [rewrite clampOffset_clamp; apply clamp_bounds; lra |].
  split; [rewrite clampOffset_clamp; apply clamp_bounds; lra |].
  split; [reflexivity | exact Hds].
Qed.

(** From the origin [{0, 0, 1}] a move by (+30, -10) gives (15, -5); a move
    by +500 in [x] is clamped to 100. *)
Lemma handleCanvasDragMove_clamped_witness :
  ∃ t', imageTransforms (handleCanvasDragMove 600 90 draggingFirst) !! 0%nat
        = Some t' ∧
        x t' == 100 ∧ y t' == -5 ∧ scale t' = 1.
Proof.
  destruct (handleCanvasDragMove_clamped draggingFirst
              {| isDragging := true; imageIndex := 0;
                 startX := 100; startY := 100;
                 initialTransform := defaultTransform |}
              defaultTransform 600 90 eq_refl eq_refl eq_refl)
    as (t' & Hl & Hx & Hy & _ & _ & Hs & _).
  exists t'. split; [exact Hl |].
  split; [rewrite Hx; reflexivity |].
  split; [rewrite Hy; reflexivity | exact Hs].
Defined.

Lemma sliderChange_lookup (st : State) (sel : nat) (t : ImageTransform)
    (patch : PartialTransform) :
  selectedImageIndex st = Some sel → imageTransforms st !! sel = Some t →
  imageTransforms (sliderChange patch st) !! sel = Some (spread t patch).
Proof.
  intros Hsel Ht. unfold sliderChange. rewrite Hsel, Ht.
  rewrite updateImageTransform_lookup, Ht. simpl.
  by rewrite Nat.eqb_refl.
Qed.

(** What a range input hands to its handler, for a range whose [max] lies
    a whole number of steps above its [min]. *)
Lemma targetValue_spec (input : RangeInput) (steps : Z) (requested : Q) :
  0 < range_step input → (0 <= steps)%Z →
  range_max input == range_min input + inject_Z steps * range_step input →
  let v := targetValue input requested in
  range_min input <= v ∧ v <= range_max input ∧
  (requested <= range_min input → v == range_min input) ∧
  (range_max input <= requested → v == range_max input) ∧
  (range_min input <= requested → requested <= range_max input →
     - (range_step input / 2) <= v - requested ∧
     v - requested <= range_step input / 2) ∧
  ∃ n : Z, v == range_min input + inject_Z n * range_step input.
Proof.
  intros Hstep Hsteps Hmax. cbv zeta. unfold targetValue.
  set (lo := range_min input) in *. set (hi := range_max input) in *.
  set (step := range_step input) in *.
  assert (inject_Z 0 <= inject_Z steps) as HstepsQ by (by rewrite <- Zle_Qle).
  change (inject_Z 0) with 0 in HstepsQ.
  assert (0 <= inject_Z steps * step) as Hspan
    by (apply Qmult_le_0_compat; lra).
  assert (lo <= hi) as Hlohi by lra.
  set (c := if Qltb requested lo then lo
            else if Qltb hi requested then hi else requested).
  assert (lo <= c ∧ c <= hi ∧
          (requested <= lo → c == lo) ∧ (hi <= requested → c == hi) ∧
          (lo <= requested → requested <= hi → c == requested))
    as (Hc0 & Hc1 & Hclo & Hchi & Hcin).
  { unfold c. destruct (Qltb requested lo) eqn:E1.
    - apply Qltb_lt in E1.
      repeat split; try lra; intros; try reflexivity; lra.
    - apply Qltb_ge in E1. destruct (Qltb hi requested) eqn:E2.
      + apply Qltb_lt in E2.
        repeat split; try lra; intros; try reflexivity; lra.
      + apply Qltb_ge in E2.
        repeat split; try lra; intros; try reflexivity; lra. }
  set (q := (c - lo) / step).
  assert (q * step == c - lo) as Hq by (unfold q; field; lra).
  assert (0 <= q) as Hq0 by (apply Qle_shift_div_l; lra).
  assert (q <= inject_Z steps) as Hq1 by (apply Qle_shift_div_r; lra).
  set (n := Qfloor (q + (1 # 2))).
  pose proof (Qfloor_le (q + (1 # 2))) as Hn0.
  pose proof (Qlt_floor (q + (1 # 2))) as Hn1.
  fold n in Hn0, Hn1. rewrite inject_Z_plus in Hn1.
  change (inject_Z 1) with 1 in Hn1.
  assert (0 <= n <= steps)%Z as [Hnlo Hnhi].
  { split.
    - rewrite <- (Qfloor_Z 0). apply Qfloor_resp_le.
      change (inject_Z 0) with 0. lra.
    - assert (inject_Z n < inject_Z (steps + 1)) as Hlt
        by (rewrite inject_Z_plus; change (inject_Z 1) with 1; lra).
      rewrite <- Zlt_Qlt in Hlt. lia. }
  assert (inject_Z 0 <= inject_Z n) as HnQ0 by (by rewrite <- Zle_Qle).
  assert (inject_Z n <= inject_Z steps) as HnQ1 by (by rewrite <- Zle_Qle).
  change (inject_Z 0) with 0 in HnQ0.
  assert (0 <= inject_Z n * step) as Hns0
    by (apply Qmult_le_0_compat; lra).
  assert (0 <= (inject_Z steps - inject_Z n) * step) as Hns1
    by (apply Qmult_le_0_compat; lra).
  assert (0 <= (q + (1 # 2) - inject_Z n) * step) as Hd0
    by (apply Qmult_le_0_compat; lra).
  assert (0 <= (inject_Z n + 1 - (q + (1 # 2))) * step) as Hd1
    by (apply Qmult_le_0_compat; lra).
  assert (step / 2 == step * (1 # 2)) as Hhalf by field.
  destruct (Qltb hi (lo + inject_Z n * step)) eqn:E.
  { apply Qltb_lt in E. exfalso. lra. }
  split; [lra |]. split; [lra |].
  split; [| split; [| split]].
  - intros Hr. specialize (Hclo Hr).
    assert (q == 0) as Hz.
    { unfold q. rewrite Hclo. field. lra. }
    assert (n = 0%Z) as ->.
    { unfold n. rewrite (Qfloor_comp _ (0 + (1 # 2))) by (by rewrite Hz).
      reflexivity. }
    change (inject_Z 0) with 0. ring.
  - intros Hr. specialize (Hchi Hr).
    assert (q == inject_Z steps) as Hz.
    { unfold q. rewrite Hchi, Hmax. field. lra. }
    assert (n = steps) as ->.
    { unfold n.
      rewrite (Qfloor_comp _ (inject_Z steps + (1 # 2))) by (by rewrite Hz).
      apply Z.le_antisymm.
      - assert (inject_Z (Qfloor (inject_Z steps + (1 # 2)))
                < inject_Z (steps + 1)) as Hlt.
        { pose proof (Qfloor_le (inject_Z steps + (1 # 2))).
          rewrite inject_Z_plus. change (inject_Z 1) with 1. lra. }
        rewrite <- Zlt_Qlt in Hlt. lia.
      - rewrite <- (Qfloor_Z steps) at 1. apply Qfloor_resp_le. lra. }
    lra.
  - intros Hr0 Hr1. specialize (Hcin Hr0 Hr1).
    rewrite Hhalf. rewrite <- Hcin.
    ring_simplify in Hd0. ring_simplify in Hd1. split; lra.
  - exists n. reflexivity.
Qed.

Lemma positionSlider_value (requested : Q) :
  let v := targetValue positionSlider requested in
  -50 <= v ∧ v <= 50 ∧
  (requested <= -50 → v == -50) ∧ (50 <= requested → v == 50) ∧
  (-50 <= requested → requested <= 50 →
     - (1 # 2) <= v - requested ∧ v - requested <= 1 # 2) ∧
  ∃ n : Z, v == inject_Z n.
Proof.
  destruct (targetValue_spec positionSlider 100 requested)
    as (H0 & H1 & Hlo & Hhi & Hin & n & Hn);
    [reflexivity | lia | reflexivity |].
  cbv zeta. change (range_min positionSlider) with (-50) in *.
  change (range_max positionSlider) with 50 in *.
  change (range_step positionSlider) with 1 in *.
  assert (1 / 2 == 1 # 2) as Htw by reflexivity. rewrite Htw in Hin.
  split; [exact H0 |]. split; [exact H1 |]. split; [exact Hlo |].
  split; [exact Hhi |]. split; [exact Hin |].
  exists (n - 50)%Z. rewrite Hn. unfold Z.sub.
  rewrite inject_Z_plus. change (inject_Z (- (50))) with (-50). ring.
Qed.

Lemma scaleSlider_value (requested : Q) :
  let v := targetValue scaleSlider requested in
  (1 # 2) <= v ∧ v <= 2 ∧
  (requested <= 1 # 2 → v == 1 # 2) ∧ (2 <= requested → v == 2) ∧
  ((1 # 2) <= requested → requested <= 2 →
     - (1 # 20) <= v - requested ∧ v - requested <= 1 # 20) ∧
  ∃ n : Z, v == (1 # 2) + inject_Z n * (1 # 10).
Proof.
  destruct (targetValue_spec scaleSlider 15 requested)
    as (H0 & H1 & Hlo & Hhi & Hin & n & Hn);
    [reflexivity | lia | reflexivity |].
  cbv zeta. change (range_min scaleSlider) with (5 # 10) in *.
  change (range_max scaleSlider) with 2 in *.
  change (range_step scaleSlider) with (1 # 10) in *.
  assert ((5 # 10) == (1 # 2)) as Hhalf by reflexivity.
  assert ((1 # 10) / 2 == (1 # 20)) as Htw by reflexivity.
  rewrite Htw in Hin.
  split; [lra |]. split; [lra |].
  split; [intros Hr; rewrite Hlo by lra; reflexivity |].
  split; [exact Hhi |].
  split; [intros Ha Hb; apply Hin; lra |].
  exists n. rewrite Hn. lra.
Qed.

(** C5.  A slider edit writes the value that the range input hands to its
    handler into the selected image's transform, and leaves the two other
    components as they were.  That value is the requested one clamped to
    the range of the input and moved to its nearest step: the stored [x]
    and [y] lie in [-50, 50], hence within the bounds [-100, 100] of the
    drags, and the stored [scale] lies in [0.5, 2]; a request at or above
    the top of the range stores the top (a scale of 3 is stored as 2), a
    request at or below the bottom stores the bottom, and a request
    within the range is stored at most half a step away. *)
Theorem slider_edit_within_bounds (st : State) (sel : nat)
    (t : ImageTransform) (requested : Q) :
  selectedImageIndex st = Some sel → imageTransforms st !! sel = Some t →
  (∃ v, imageTransforms (onXSliderChange requested st) !! sel
        = Some {| x := v; y := y t; scale := scale t |} ∧
        -50 <= v ∧ v <= 50 ∧ -100 <= v ∧ v <= 100 ∧
        (requested <= -50 → v == -50) ∧ (50 <= requested → v == 50) ∧
        (-50 <= requested → requested <= 50 →
           - (1 # 2) <= v - requested ∧ v - requested <= 1 # 2)) ∧
  (∃ v, imageTransforms (onYSliderChange requested st) !! sel
        = Some {| x := x t; y := v; scale := scale t |} ∧
        -50 <= v ∧ v <= 50 ∧ -100 <= v ∧ v <= 100 ∧
        (requested <= -50 → v == -50) ∧ (50 <= requested → v == 50) ∧
        (-50 <= requested → requested <= 50 →
           - (1 # 2) <= v - requested ∧ v - requested <= 1 # 2)) ∧
  (∃ v, imageTransforms (onScaleSliderChange requested st) !! sel
        = Some {| x := x t; y := y t; scale := v |} ∧
        (1 # 2) <= v ∧ v <= 2 ∧
        (requested <= 1 # 2 → v == 1 # 2) ∧ (2 <= requested → v == 2) ∧
        ((1 # 2) <= requested → requested <= 2 →
           - (1 # 20) <= v - requested ∧ v - requested <= 1 # 20)).
Proof.
  intros Hsel Ht.
  destruct (positionSlider_value requested)
    as (Hp0 & Hp1 & Hplo & Hphi & Hpin & _).
  destruct (scaleSlider_value requested)
    as (Hs0 & Hs1 & Hslo & Hshi & Hsin & _).
  cbv zeta in Hp0, Hp1, Hplo, Hphi, Hpin, Hs0, Hs1, Hslo, Hshi, Hsin.
  split; [| split].
  - exists (targetValue positionSlider requested).
    split; [exact (sliderChange_lookup st sel t _ Hsel Ht) |].
    repeat split; try assumption; try lra; by apply Hpin.
  - exists (targetValue positionSlider requested).
    split; [exact (sliderChange_lookup st sel t _ Hsel Ht) |].
    repeat split; try assumption; try lra; by apply Hpin.
  - exists (targetValue scaleSlider requested).
    split; [exact (sliderChange_lookup st sel t _ Hsel Ht) |].
    repeat split; try assumption; by apply Hsin.
Qed.

(** The scenario of the specification: the scale input of the first of two
    images is asked to take 3.0, and 2.0 is stored. *)
Lemma slider_edit_within_bounds_witness :
  ∃ v, imageTransforms (onScaleSliderChange 3 twoImages) !! 0%nat
       = Some {| x := 0; y := 0; scale := v |} ∧ v == 2.
Proof.
  destruct (slider_edit_within_bounds twoImages 0 defaultTransform 3
              eq_refl eq_refl) as (_ & _ & v & Hv & _ & _ & _ & Htop & _).
  exists v. split; [exact Hv |]. apply Htop. discriminate.
Defined.

(** The clamp is the input's, not the update's: [updateImageTransform]
    itself stores what it is given. *)
Example updateImageTransform_stores_verbatim :
  imageTransforms
    (updateImageTransform 0
       {| p_x := None; p_y := None; p_scale := Some 3 |} twoImages) !! 0%nat
  = Some {| x := 0; y := 0; scale := 3 |}.
Proof. reflexivity. Qed.

(** ** C3: reordering by a thumbnail drag *)

Section MoveItem.
Context {A : Type} `{Inhabited A}.
Implicit Types l : list A.

Lemma moveItem_in_range l (i j : nat) (a : A) :
  l !! i = Some a →
  moveItem i j l = take j (delete i l) ++ a :: drop j (delete i l).
Proof.
  intros Hi. unfold moveItem, splice1, spliceInsert.
  rewrite <- delete_take_drop.
  assert (head (take 1 (drop i l)) = Some a) as ->; [| reflexivity].
  pose proof (lookup_drop l i 0) as Hd.
  rewrite Nat.add_0_r, Hi in Hd.
  destruct (drop i l) as [| b rest]; [discriminate Hd |].
  simpl in *. congruence.
Qed.

Lemma moveItem_length l (i j : nat) :
  (i < length l)%nat → length (moveItem i j l) = length l.
Proof.
  intros Hi. destruct (lookup_lt_is_Some_2 l i Hi) as [a Ha].
  rewrite (moveItem_in_range l i j a Ha).
  rewrite length_app. simpl. rewrite length_take, length_drop, length_delete
    by (by exists a).
  lia.
Qed.

Lemma moveItem_Permutation l (i j : nat) :
  (i < length l)%nat → moveItem i j l ≡ₚ l.
Proof.
  intros Hi. destruct (lookup_lt_is_Some_2 l i Hi) as [a Ha].
  rewrite (moveItem_in_range l i j a Ha).
  rewrite <- Permutation_middle, take_drop.
  symmetry. by apply delete_Permutation.
Qed.

Lemma delete_lookup l (i k : nat) :
  delete i l !! k = if (k <? i)%nat then l !! k else l !! S k.
Proof.
  destruct (Nat.ltb_spec k i).
  - by apply list_lookup_delete_lt.
  - by apply list_lookup_delete_ge.
Qed.

Lemma moveItem_lookup l (i j k : nat) :
  (i < length l)%nat → (j < length l)%nat →
  moveItem i j l !! k = l !! movedFrom i j k.
Proof.
  intros Hi Hj. destruct (lookup_lt_is_Some_2 l i Hi) as [a Ha].
  rewrite (moveItem_in_range l i j a Ha).
  assert (length (take j (delete i l)) = j) as Hlen.
  { rewrite length_take, length_delete by (by exists a). lia. }
  unfold movedFrom.
  destruct (Nat.eqb_spec k j) as [-> | Hkj].
  { rewrite <- Hlen at 1. by rewrite list_lookup_middle. }
  destruct (decide (k < j)%nat) as [Hlt | Hge].
  - rewrite lookup_app_l by lia. rewrite lookup_take_lt by lia.
    rewrite delete_lookup.
    destruct (Nat.ltb_spec k i), (Nat.ltb_spec i j), (Nat.leb_spec i k),
      (Nat.ltb_spec k j), (Nat.ltb_spec j k), (Nat.leb_spec k i);
      simpl; try lia; reflexivity.
  - rewrite lookup_app_r by lia. rewrite Hlen.
    destruct (k - j)%nat as [| m] eqn:Hm; [lia |]. simpl.
    rewrite lookup_drop, delete_lookup.
    replace (j + m)%nat with (pred k) by lia.
    destruct (Nat.ltb_spec (pred k) i), (Nat.ltb_spec i j),
      (Nat.leb_spec i k), (Nat.ltb_spec k j), (Nat.ltb_spec j k),
      (Nat.leb_spec k i); simpl; try lia;
      try reflexivity; f_equal; lia.
Qed.

End MoveItem.

Lemma moveItem_zip {A B : Type} `{Inhabited A} `{Inhabited B}
    (la : list A) (lb : list B) (i j : nat) :
  length lb = length la → (i < length la)%nat → (j < length la)%nat →
  moveItem i j (zip la lb) = zip (moveItem i j la) (moveItem i j lb).
Proof.
  intros Hlen Hi Hj. apply list_eq. intros k.
  assert (length (zip la lb) = length la) as Hz.
  { rewrite length_zip_with. lia. }
  rewrite moveItem_lookup by lia.
  rewrite !lookup_zip_with.
  by rewrite !moveItem_lookup by lia.
Qed.

(** C3.  A thumbnail dragged from position [i] and dropped on position [j]:
    when [i = j] nothing changes; when [i ≠ j] the image at [i] is taken
    out and put back at [j] (what lay after the gap has moved down by one
    before the insertion), the images are the same multiset as before, the
    transforms undergo the same move, position by position, so that the
    pairs (image, transform) are the same multiset as before.  The drag
    indices are cleared either way. *)
Theorem handleDragEnd_reorders (st : State) (i j : nat) :
  dragIndex st = Some i → dropIndex st = Some j →
  (i < length (images st))%nat → (j < length (images st))%nat →
  length (imageTransforms st) = length (images st) →
  let st' := handleDragEnd st in
  dragIndex st' = None ∧ dropIndex st' = None ∧
  (i = j → images st' = images st ∧ imageTransforms st' = imageTransforms st) ∧
  (i ≠ j →
     (∃ a t, images st !! i = Some a ∧ imageTransforms st !! i = Some t ∧
        images st'
        = take j (delete i (images st)) ++ a :: drop j (delete i (images st)) ∧
        imageTransforms st'
        = take j (delete i (imageTransforms st))
          ++ t :: drop j (delete i (imageTransforms st))) ∧
     images st' ≡ₚ images st ∧
     (∀ k, images st' !! k = images st !! movedFrom i j k ∧
           imageTransforms st' !! k = imageTransforms st !! movedFrom i j k) ∧
     zip (images st') (imageTransforms st')
       ≡ₚ zip (images st) (imageTransforms st)).
Proof.
  intros Hdrag Hdrop Hi Hj Hlen st'. subst st'.
  unfold handleDragEnd. rewrite Hdrag, Hdrop.
  split; [reflexivity |]. split; [reflexivity |]. split.
  - intros ->. by rewrite Nat.eqb_refl.
  - intros Hne. destruct (Nat.eqb_spec i j) as [? | _]; [done |]. simpl.
    destruct (lookup_lt_is_Some_2 (images st) i Hi) as [a Ha].
    destruct (lookup_lt_is_Some_2 (imageTransforms st) i) as [t Ht]; [lia |].
    split; [| split; [| split]].
    + exists a, t. by rewrite <- !moveItem_in_range.
    + by apply moveItem_Permutation.
    + intros k. split; apply moveItem_lookup; lia.
    + rewrite <- moveItem_zip by lia.
      apply moveItem_Permutation. rewrite length_zip_with. lia.
Qed.

(** The scenario of the specification: position 0 dragged to position 2 in
    [A, B, C] gives [B, C, A], and the transforms follow. *)
Lemma handleDragEnd_reorders_witness :
  images (handleDragEnd draggedFirstToThird) = ["B"; "C"; "A"]%string ∧
  imageTransforms (handleDragEnd draggedFirstToThird)
  = [ {| x := 2; y := 2; scale := 1 |};
      {| x := 3; y := 3; scale := 1 |};
      {| x := 1; y := 1; scale := 1 |} ].
Proof.
  assert (0 < length (images draggedFirstToThird))%nat as H0 by (simpl; lia).
  assert (2 < length (images draggedFirstToThird))%nat as H2 by (simpl; lia).
  destruct (handleDragEnd_reorders draggedFirstToThird 0 2
              eq_refl eq_refl H0 H2 eq_refl) as (_ & _ & _ & Hmove).
  destruct Hmove as ((a & t & Ha & Ht & Himg & Htr) & _); [lia |].
  injection Ha as <-. injection Ht as <-.
  rewrite Himg, Htr. split; reflexivity.
Defined.

(** ** C2: the grid of cell rectangles *)

Lemma Qnat_le (a b : nat) : (a <= b)%nat → Qnat a <= Qnat b.
Proof. intros Hab. unfold Qnat. rewrite <- Zle_Qle. lia. Qed.

Lemma Qnat_S (a : nat) : Qnat (S a) == Qnat a + 1.
Proof.
  unfold Qnat. rewrite Nat2Z.inj_succ, <- Z.add_1_r, inject_Z_plus.
  reflexivity.
Qed.

Lemma Qnat_nonneg (a : nat) : 0 <= Qnat a.
Proof. apply (Qnat_le 0 a). lia. Qed.

Lemma Qnat_ge_1 (a : nat) : (1 <= a)%nat → 1 <= Qnat a.
Proof. intros Ha. apply (Qnat_le 1 a Ha). Qed.

Lemma Qnat_lt_succ (a b : nat) : (a < b)%nat → Qnat a + 1 <= Qnat b.
Proof. intros Hab. rewrite <- Qnat_S. apply Qnat_le. lia. Qed.

(** One axis of the grid: [n] cells of size [cw] with gaps [g] between
    them fill the length [L] between the two paddings [p]. *)
Lemma axis_inside (L p g n cw c : Q) :
  0 < g → p * 2 < L → 1 <= n →
  cw * n == L - p * 2 - g * (n - 1) →
  0 <= c → c + 1 <= n →
  p <= p + c * (cw + g) ∧ p + c * (cw + g) + cw <= L - p.
Proof.
  intros Hg Hp Hn Hcw Hc Hcn.
  assert (0 < cw + g) as Hstep.
  { assert (0 < (cw + g) * n) as Hprod by (ring_simplify; lra).
    destruct (Qlt_le_dec 0 (cw + g)) as [? | Hneg]; [assumption |].
    exfalso. assert ((cw + g) * n <= 0); [| lra].
    assert (0 <= (- (cw + g)) * n); [apply Qmult_le_0_compat; lra | lra]. }
  assert (0 <= c * (cw + g)) by (apply Qmult_le_0_compat; lra).
  assert (0 <= (n - 1 - c) * (cw + g)) as Hrest
    by (apply Qmult_le_0_compat; lra).
  split; [lra |]. ring_simplify in Hrest. ring_simplify in Hcw. lra.
Qed.

Lemma axis_apart (p g cw c1 c2 : Q) :
  0 < g → 0 < cw + g → c1 + 1 <= c2 →
  p + c1 * (cw + g) + cw < p + c2 * (cw + g).
Proof.
  intros Hg Hstep Hc.
  assert (0 <= (c2 - c1 - 1) * (cw + g)) as Hrest
    by (apply Qmult_le_0_compat; lra).
  ring_simplify in Hrest. lra.
Qed.

Lemma axis_step_pos (L p g n cw : Q) :
  0 < g → p * 2 < L → 1 <= n →
  cw * n == L - p * 2 - g * (n - 1) → 0 < cw + g.
Proof.
  intros Hg Hp Hn Hcw.
  assert (0 < (cw + g) * n) as Hprod by (ring_simplify; lra).
  destruct (Qlt_le_dec 0 (cw + g)) as [? | Hneg]; [assumption |].
  exfalso. assert ((cw + g) * n <= 0); [| lra].
  assert (0 <= (- (cw + g)) * n); [apply Qmult_le_0_compat; lra | lra].
Qed.

Section Grid.
Variables (t : CollageTemplate) (W H : Q).
Hypothesis HW : 0 < W.
Hypothesis HH : 0 < H.
Hypothesis Hrows : (1 <= rows t)%nat.
Hypothesis Hcols : (1 <= cols t)%nat.

Lemma padding_pos : 0 < padding W H.
Proof using HW HH.
  unfold padding.
  destruct (Q.min_spec W H) as [[_ ->] | [_ ->]]; lra.
Qed.

Lemma padding_twice_lt_W : padding W H * 2 < W.
Proof using HW HH.
  unfold padding. pose proof (Q.le_min_l W H). lra.
Qed.

Lemma padding_twice_lt_H : padding W H * 2 < H.
Proof using HW HH.
  unfold padding. pose proof (Q.le_min_r W H). lra.
Qed.

Lemma gap_pos : 0 < gap t W H.
Proof using HW HH.
  pose proof padding_pos. unfold gap. destruct (isPolaroid t); lra.
Qed.

Lemma cellWidth_cols :
  cellWidth t W H * Qnat (cols t) == availableWidth t W H.
Proof using Hcols.
  unfold cellWidth. rewrite Qmult_comm. apply Qmult_div_r.
  pose proof (Qnat_le 1 (cols t) Hcols) as Hn.
  change (Qnat 1) with 1 in Hn. intros Hz. rewrite Hz in Hn. lra.
Qed.

Lemma cellHeight_rows :
  cellHeight t W H * Qnat (rows t) == availableHeight t W H.
Proof using Hrows.
  unfold cellHeight. rewrite Qmult_comm. apply Qmult_div_r.
  pose proof (Qnat_le 1 (rows t) Hrows) as Hn.
  change (Qnat 1) with 1 in Hn. intros Hz. rewrite Hz in Hn. lra.
Qed.

Lemma cellRect_bounds (row col : nat) :
  (row < rows t)%nat → (col < cols t)%nat →
  padding W H <= cellX t W H col ∧
  cellX t W H col + cellWidth t W H <= W - padding W H ∧
  padding W H <= cellY t W H row ∧
  cellY t W H row + cellHeight t W H <= H - padding W H.
Proof using All.
  intros Hr Hc. unfold cellX, cellY.
  destruct (axis_inside W (padding W H) (gap t W H) (Qnat (cols t))
              (cellWidth t W H) (Qnat col)) as [Hx1 Hx2];
    auto using gap_pos, padding_twice_lt_W, Qnat_ge_1, Qnat_nonneg,
      Qnat_lt_succ, cellWidth_cols.
  destruct (axis_inside H (padding W H) (gap t W H) (Qnat (rows t))
              (cellHeight t W H) (Qnat row)) as [Hy1 Hy2];
    auto using gap_pos, padding_twice_lt_H, Qnat_ge_1, Qnat_nonneg,
      Qnat_lt_succ, cellHeight_rows.
Qed.

Lemma cellX_apart (c1 c2 : nat) :
  (c1 < c2)%nat →
  cellX t W H c1 + cellWidth t W H < cellX t W H c2.
Proof using All.
  intros Hc. unfold cellX. apply axis_apart.
  - apply gap_pos.
  - apply (axis_step_pos W (padding W H) (gap t W H) (Qnat (cols t)));
      auto using gap_pos, padding_twice_lt_W, Qnat_ge_1, cellWidth_cols.
  - by apply Qnat_lt_succ.
Qed.

Lemma cellY_apart (r1 r2 : nat) :
  (r1 < r2)%nat →
  cellY t W H r1 + cellHeight t W H < cellY t W H r2.
Proof using All.
  intros Hr. unfold cellY. apply axis_apart.
  - apply gap_pos.
  - apply (axis_step_pos H (padding W H) (gap t W H) (Qnat (rows t)));
      auto using gap_pos, padding_twice_lt_H, Qnat_ge_1, cellHeight_rows.
  - by apply Qnat_lt_succ.
Qed.

Lemma cellRect_apart (r1 c1 r2 c2 : nat) :
  (r1, c1) ≠ (r2, c2) →
  cellX t W H c1 + cellWidth t W H < cellX t W H c2 ∨
  cellX t W H c2 + cellWidth t W H < cellX t W H c1 ∨
  cellY t W H r1 + cellHeight t W H < cellY t W H r2 ∨
  cellY t W H r2 + cellHeight t W H < cellY t W H r1.
Proof using All.
  intros Hne.
  destruct (Nat.lt_total c1 c2) as [Hc | [Hc | Hc]].
  - left. by apply cellX_apart.
  - destruct (Nat.lt_total r1 r2) as [Hr | [Hr | Hr]].
    + right. right. left. by apply cellY_apart.
    + congruence.
    + right. right. right. by apply cellY_apart.
  - right. left. by apply cellX_apart.
Qed.

(** The test of the hit test: the point is a finite one and lies in the
    closed rectangle of the cell. *)
Lemma insideCell_true (cx cy : jsnum) (row col : nat) :
  insideCell t W H cx cy row col = true ↔
  ∃ qx qy, cx = Num qx ∧ cy = Num qy ∧
    cellX t W H col <= qx ∧ qx <= cellX t W H col + cellWidth t W H ∧
    cellY t W H row <= qy ∧ qy <= cellY t W H row + cellHeight t W H.
Proof using Type.
  unfold insideCell, jsle. rewrite !andb_true_iff. split.
  - intros [[[Hx1 Hx2] Hy1] Hy2].
    destruct cx as [qx | | |], cy as [qy | | |]; try discriminate.
    exists qx, qy. simpl in *. rewrite !Qle_bool_iff in *. auto 10.
  - intros (qx & qy & -> & -> & Hx1 & Hx2 & Hy1 & Hy2).
    simpl. rewrite !Qle_bool_iff. auto.
Qed.

(** A point lies in one cell at most. *)
Lemma insideCell_unique (cx cy : jsnum) (r1 c1 r2 c2 : nat) :
  insideCell t W H cx cy r1 c1 = true →
  insideCell t W H cx cy r2 c2 = true →
  (r1, c1) = (r2, c2).
Proof using All.
  intros (qx & qy & -> & -> & Hx1 & Hx2 & Hy1 & Hy2)%insideCell_true
         (qx' & qy' & [= <-] & [= <-] & Hx1' & Hx2' & Hy1' & Hy2')%insideCell_true.
  assert (c1 = c2) as ->.
  { destruct (Nat.lt_total c1 c2) as [Hc | [Hc | Hc]]; [| done |];
      apply cellX_apart in Hc; exfalso; lra. }
  assert (r1 = r2) as ->; [| done].
  destruct (Nat.lt_total r1 r2) as [Hr | [Hr | Hr]]; [| done |];
    apply cellY_apart in Hr; exfalso; lra.
Qed.

End Grid.

(** The loops visit the cells row by row: cell [(row, col)] is visit
    number [row * cols + col]. *)
Lemma loops_lookup (a n m row col : nat) :
  (row < n)%nat → (col < m)%nat →
  (seq a n ≫= λ r, (λ c, (r, c)) <$> seq 0 m) !! (row * m + col)%nat
  = Some ((a + row)%nat, col).
Proof.
  revert a row. induction n as [| n IH]; intros a row Hr Hc; [lia |].
  simpl.
  assert (length ((λ c, (a, c)) <$> seq 0 m) = m) as Hlen
    by (by rewrite length_fmap, length_seq).
  destruct row as [| row].
  - rewrite lookup_app_l by (rewrite Hlen; simpl; lia). simpl.
    rewrite list_lookup_fmap, lookup_seq_lt by lia. simpl.
    by rewrite Nat.add_0_r.
  - rewrite lookup_app_r by (rewrite Hlen; simpl; lia). rewrite Hlen.
    replace (S row * m + col - m)%nat with (row * m + col)%nat by (simpl; lia).
    rewrite IH by lia. do 2 f_equal. lia.
Qed.

Lemma loops_length (a n m : nat) :
  length (seq a n ≫= λ r, (λ c, (r, c)) <$> seq 0 m) = (n * m)%nat.
Proof.
  revert a. induction n as [| n IH]; intros a; [reflexivity |].
  simpl. rewrite length_app, length_fmap, length_seq, IH. reflexivity.
Qed.

Lemma cells_length (t : CollageTemplate) :
  length (cells t) = (rows t * cols t)%nat.
Proof. apply loops_length. Qed.

Lemma cells_lookup (t : CollageTemplate) (row col : nat) :
  (row < rows t)%nat → (col < cols t)%nat →
  cells t !! (row * cols t + col)%nat = Some (row, col).
Proof. intros Hr Hc. unfold cells. by rewrite loops_lookup. Qed.

Lemma cells_lookup_inv (t : CollageTemplate) (k row col : nat) :
  cells t !! k = Some (row, col) →
  (row < rows t)%nat ∧ (col < cols t)%nat ∧ k = (row * cols t + col)%nat.
Proof.
  intros Hk.
  assert (k < rows t * cols t)%nat as Hlt.
  { rewrite <- cells_length. apply lookup_lt_is_Some. by eexists. }
  assert (cols t ≠ 0)%nat as Hm by lia.
  pose proof (Nat.div_mod_eq k (cols t)) as Hdm.
  pose proof (Nat.mod_upper_bound k (cols t) Hm) as Hmod.
  assert (k `div` cols t < rows t)%nat as Hdiv
    by (apply Nat.Div0.div_lt_upper_bound; lia).
  pose proof (cells_lookup t _ _ Hdiv Hmod) as Hfwd.
  replace (k `div` cols t * cols t + k `mod` cols t)%nat with k in Hfwd by lia.
  rewrite Hk in Hfwd. injection Hfwd as -> ->. repeat split; [done.. | lia].
Qed.

Lemma cellRects_lookup (t : CollageTemplate) (W H : Q) (k : nat) (r : Rect) :
  cellRects t W H !! k = Some r ↔
  ∃ row col, cells t !! k = Some (row, col) ∧ r = cellRect t W H row col.
Proof.
  unfold cellRects. rewrite list_lookup_fmap_Some. split.
  - intros ([row col] & Hk & ->). by exists row, col.
  - intros (row & col & Hk & ->). by exists (row, col).
Qed.

Lemma isPolaroid_style (t : CollageTemplate) :
  isPolaroid t = bool_decide (style t = Some "polaroid"%string).
Proof.
  unfold isPolaroid. destruct (style t) as [s |].
  - destruct (String.eqb_spec s "polaroid") as [-> | Hne].
    + by rewrite bool_decide_eq_true_2.
    + rewrite bool_decide_eq_false_2; [reflexivity | congruence].
  - by rewrite bool_decide_eq_false_2.
Qed.

Lemma gap_literal (t : CollageTemplate) (W H : Q) :
  gap t W H ==
    if decide (style t = Some "polaroid"%string)
    then 2 * ((2 # 100) * Qmin W H) else (1 # 2) * ((2 # 100) * Qmin W H).
Proof.
  unfold gap, padding. rewrite isPolaroid_style.
  case_decide as Hs.
  - rewrite bool_decide_eq_true_2 by done. ring.
  - rewrite bool_decide_eq_false_2 by done. ring.
Qed.

Lemma covers_nonneg (r : Rect) (qx qy : Q) :
  0 <= rw r → 0 <= rh r → covers r qx qy →
  rx r <= qx ∧ qx <= rx r + rw r ∧ ry r <= qy ∧ qy <= ry r + rh r.
Proof.
  intros Hw Hh (Hx0 & Hx1 & Hy0 & Hy1).
  rewrite Q.min_l in Hx0 by lra. rewrite Q.max_r in Hx1 by lra.
  rewrite Q.min_l in Hy0 by lra. rewrite Q.max_r in Hy1 by lra.
  auto.
Qed.

(** The cells of a grid of at most 24 rows and columns take up at least a
    25th of the canvas along each axis. *)
Lemma axis_size_margin (L m g n cw : Q) :
  0 < m → m <= L → 0 < g → g <= m * (2 # 100) * 2 →
  1 <= n → n <= 24 →
  cw * n == L - m * (2 # 100) * 2 - g * (n - 1) → L <= 25 * (n * cw).
Proof.
  intros Hm HmL Hg Hg2 Hn Hn24 Hcw.
  assert (0 <= (m * (2 # 100) * 2 - g) * (n - 1)) as H1
    by (apply Qmult_le_0_compat; lra).
  assert (0 <= (24 - n) * (m * (2 # 100) * 2)) as H2
    by (apply Qmult_le_0_compat; lra).
  ring_simplify in H1. ring_simplify in H2.
  assert (n * cw == cw * n) as -> by ring. rewrite Hcw. lra.
Qed.

Lemma cell_size_margin (t : CollageTemplate) (W H : Q) :
  0 < W → 0 < H →
  (1 <= rows t <= 24)%nat → (1 <= cols t <= 24)%nat →
  W <= 25 * (Qnat (cols t) * cellWidth t W H) ∧
  H <= 25 * (Qnat (rows t) * cellHeight t W H).
Proof.
  intros HW HH [Hr1 Hr24] [Hc1 Hc24].
  assert (0 < Qmin W H) as Hmin
    by (destruct (Q.min_spec W H) as [[_ ->] | [_ ->]]; lra).
  pose proof (gap_pos t W H HW HH) as Hg.
  assert (gap t W H <= Qmin W H * (2 # 100) * 2) as Hg2.
  { unfold gap, padding. destruct (isPolaroid t); lra. }
  split.
  - apply (axis_size_margin W (Qmin W H) (gap t W H) (Qnat (cols t)));
      auto using Q.le_min_l, Qnat_ge_1.
    + apply (Qnat_le _ 24). lia.
    + apply (cellWidth_cols t W H Hc1).
  - apply (axis_size_margin H (Qmin W H) (gap t W H) (Qnat (rows t)));
      auto using Q.le_min_r, Qnat_ge_1.
    + apply (Qnat_le _ 24). lia.
    + apply (cellHeight_rows t W H Hr1).
Qed.

Lemma margin_positive (L n cw : Q) : 0 < L → 1 <= n → L <= 25 * (n * cw) → 0 < cw.
Proof.
  intros HL Hn Hm.
  destruct (Qlt_le_dec 0 cw) as [? | Hneg]; [assumption | exfalso].
  assert (0 <= n * (- cw)) as Hprod by (apply Qmult_le_0_compat; lra).
  ring_simplify in Hprod. lra.
Qed.

(** C2, as the code has it.  For a grid of at least one row and one column
    on an output size with positive sides, with the padding [p] at 2% of
    the smaller side and the gap [g] at twice the padding for the style
    [polaroid] (the specification's "framed") and half the padding for any
    other style: the loops over the cells produce [rows * cols]
    rectangles, row by row (cell [(row, col)] is number [row * cols + col]
    and stands at [(p + col * (w + g), p + row * (h + g))]), all of the
    same width [w] and height [h], which are such that the cells, the gaps
    and the padding fill the canvas exactly.  When [w] and [h] are not
    negative, every rectangle lies within the canvas minus the padding and
    no two of them overlap; this is so in every grid of at most 24 rows
    and columns, where the cells take up at least a 25th of each side. *)
Theorem cellRects_grid (t : CollageTemplate) (W H : Q) :
  0 < W → 0 < H → (1 <= rows t)%nat → (1 <= cols t)%nat →
  let p := (2 # 100) * Qmin W H in
  let g := if decide (style t = Some "polaroid"%string)
           then 2 * p else (1 # 2) * p in
  ∃ w h : Q,
    Qnat (cols t) * w + (Qnat (cols t) - 1) * g == W - 2 * p ∧
    Qnat (rows t) * h + (Qnat (rows t) - 1) * g == H - 2 * p ∧
    length (cellRects t W H) = (rows t * cols t)%nat ∧
    (∀ row col, (row < rows t)%nat → (col < cols t)%nat →
       ∃ r, cellRects t W H !! (row * cols t + col)%nat = Some r ∧
            rx r == p + Qnat col * (w + g) ∧
            ry r == p + Qnat row * (h + g) ∧
            rw r == w ∧ rh r == h) ∧
    (0 <= w → 0 <= h →
       (∀ k r, cellRects t W H !! k = Some r → insidePadding W H r) ∧
       (∀ k1 k2 r1 r2, k1 ≠ k2 →
          cellRects t W H !! k1 = Some r1 →
          cellRects t W H !! k2 = Some r2 →
          disjointRects r1 r2)) ∧
    ((rows t <= 24)%nat → (cols t <= 24)%nat →
       W <= 25 * (Qnat (cols t) * w) ∧ H <= 25 * (Qnat (rows t) * h) ∧
       0 < w ∧ 0 < h).
Proof.
  intros HW HH Hrows Hcols p g.
  assert (padding W H == p) as Hp by (unfold padding, p; ring).
  assert (gap t W H == g) as Hg by apply gap_literal.
  pose proof (cellWidth_cols t W H Hcols) as Hcw.
  pose proof (cellHeight_rows t W H Hrows) as Hch.
  unfold availableWidth in Hcw. unfold availableHeight in Hch.
  exists (cellWidth t W H), (cellHeight t W H).
  split; [rewrite <- Hp, <- Hg; lra |].
  split; [rewrite <- Hp, <- Hg; lra |].
  split; [unfold cellRects; by rewrite length_fmap, cells_length |].
  split.
  { intros row col Hr Hc. exists (cellRect t W H row col). split.
    - apply cellRects_lookup. exists row, col.
      split; [by apply cells_lookup | reflexivity].
    - cbn [rx ry rw rh cellRect]. unfold cellX, cellY.
      rewrite <- Hp, <- Hg. repeat split; reflexivity. }
  split.
  { intros Hw Hh. split.
    - intros k r (row & col & Hk & ->)%cellRects_lookup qx qy Hcov.
      apply cells_lookup_inv in Hk as (Hr & Hc & _).
      apply covers_nonneg in Hcov; [| exact Hw | exact Hh].
      cbn [rx ry rw rh cellRect] in Hcov.
      pose proof (cellRect_bounds t W H HW HH Hrows Hcols row col Hr Hc)
        as Hb.
      fold p. rewrite <- Hp. lra.
    - intros k1 k2 r1 r2 Hne (row1 & col1 & Hk1 & ->)%cellRects_lookup
        (row2 & col2 & Hk2 & ->)%cellRects_lookup qx qy [Hc1 Hc2].
      apply cells_lookup_inv in Hk1 as (_ & _ & ->).
      apply cells_lookup_inv in Hk2 as (_ & _ & ->).
      apply covers_nonneg in Hc1; [| exact Hw | exact Hh].
      apply covers_nonneg in Hc2; [| exact Hw | exact Hh].
      cbn [rx ry rw rh cellRect] in Hc1, Hc2.
      assert ((row1, col1) ≠ (row2, col2)) as Hne' by congruence.
      pose proof (cellRect_apart t W H HW HH Hrows Hcols _ _ _ _ Hne').
      lra. }
  intros Hr24 Hc24.
  destruct (cell_size_margin t W H HW HH (conj Hrows Hr24) (conj Hcols Hc24))
    as [Hmw Hmh].
  split; [exact Hmw |]. split; [exact Hmh |]. split.
  - apply (margin_positive W (Qnat (cols t))); auto using Qnat_ge_1.
  - apply (margin_positive H (Qnat (rows t))); auto using Qnat_ge_1.
Qed.

(** The template [polaroid-4] at 1080 x 1080: the padding is 21.6 and the
    gap 43.2, twice the padding; the four cells are 496.8 wide, the second
    one stands at 561.6, within the padded canvas and apart from the
    first. *)
Lemma cellRects_grid_witness :
  length (cellRects polaroidFour 1080 1080) = 4%nat ∧
  ∃ r0 r1,
    cellRects polaroidFour 1080 1080 !! 0%nat = Some r0 ∧
    cellRects polaroidFour 1080 1080 !! 1%nat = Some r1 ∧
    rx r0 == 216 # 10 ∧ rx r1 == 5616 # 10 ∧ rw r1 == 4968 # 10 ∧
    insidePadding 1080 1080 r1 ∧ disjointRects r0 r1.
Proof.
  assert (0 < 1080) as Hpos by reflexivity.
  assert (1 <= 2)%nat as H12 by lia.
  assert (0 < 2)%nat as H02 by lia.
  assert (1 < 2)%nat as H1 by lia.
  destruct (cellRects_grid polaroidFour 1080 1080 Hpos Hpos H12 H12)
    as (w & h & Hw & Hh & Hlen & Hcell & Hfit & _).
  rewrite decide_True in Hw, Hh, Hcell by reflexivity.
  change (Qnat (cols polaroidFour)) with 2 in Hw.
  change (Qnat (rows polaroidFour)) with 2 in Hh.
  assert ((2 # 100) * Qmin 1080 1080 == 216 # 10) as Hp by reflexivity.
  rewrite Hp in Hw, Hh.
  assert (w == 4968 # 10) as Hwv by lra.
  assert (h == 4968 # 10) as Hhv by lra.
  destruct (Hcell 0%nat 0%nat H02 H02) as (r0 & Hr0 & Hx0 & _).
  destruct (Hcell 0%nat 1%nat H02 H1) as (r1 & Hr1 & Hx1 & _ & Hw1 & _).
  destruct Hfit as [Hin Hdis]; [lra | lra |].
  split; [exact Hlen |].
  exists r0, r1. split; [exact Hr0 |]. split; [exact Hr1 |].
  rewrite Hp in Hx0, Hx1. change (Qnat 0) with 0 in Hx0.
  change (Qnat 1) with 1 in Hx1.
  split; [rewrite Hx0; lra |]. split; [rewrite Hx1; lra |].
  split; [rewrite Hw1; exact Hwv |].
  split; [exact (Hin _ _ Hr1) |].
  refine (Hdis 0%nat 1%nat _ _ _ Hr0 Hr1). lia.
Defined.

(** C2, as the specification words it, fails.  One row of sixty framed
    cells on 1080 x 1080: the gaps alone are wider than the canvas, the
    cells come out 25.2 pixels narrower than nothing, and a canvas takes
    such a rectangle from its corner to the left.  The first two cells
    both cover the point (18, 540), and the first one covers the point
    (-3, 540), which is not on the canvas at all. *)
Lemma cells_of_sixty_framed_columns_overlap :
  ∃ r0 r1,
    cellRects sixtyFramed 1080 1080 !! 0%nat = Some r0 ∧
    cellRects sixtyFramed 1080 1080 !! 1%nat = Some r1 ∧
    rw r0 == - (252 # 10) ∧
    covers r0 18 540 ∧ covers r1 18 540 ∧ covers r0 (-3) 540 ∧
    ¬ disjointRects r0 r1 ∧ ¬ insidePadding 1080 1080 r0.
Proof.
  eexists _, _. split; [reflexivity |]. split; [reflexivity |].
  assert (∀ r qx qy,
            Qle_bool (Qmin (rx r) (rx r + rw r)) qx
            && Qle_bool qx (Qmax (rx r) (rx r + rw r))
            && Qle_bool (Qmin (ry r) (ry r + rh r)) qy
            && Qle_bool qy (Qmax (ry r) (ry r + rh r)) = true →
            covers r qx qy) as Hcov.
  { intros r qx qy Hb. rewrite !andb_true_iff, !Qle_bool_iff in Hb.
    unfold covers. tauto. }
  assert (covers (cellRect sixtyFramed 1080 1080 0 0) 18 540) as H0
    by (apply Hcov; by vm_compute).
  assert (covers (cellRect sixtyFramed 1080 1080 0 1) 18 540) as H1
    by (apply Hcov; by vm_compute).
  assert (covers (cellRect sixtyFramed 1080 1080 0 0) (-3) 540) as H2
    by (apply Hcov; by vm_compute).
  split; [by vm_compute |].
  split; [exact H0 |]. split; [exact H1 |]. split; [exact H2 |]. split.
  - intros Hdis. exact (Hdis 18 540 (conj H0 H1)).
  - intros Hin. destruct (Hin (-3) 540 H2) as [Hx _].
    revert Hx. by vm_compute.
Qed.

Example cellRects_classicFour_1080 :
  Forall2 (λ a b, rx a == rx b ∧ ry a == ry b ∧ rw a == rw b ∧ rh a == rh b)
    (cellRects classicFour 1080 1080)
    [ mkRect (216 # 10) (216 # 10) 513 513;
      mkRect (5454 # 10) (216 # 10) 513 513;
      mkRect (216 # 10) (5454 # 10) 513 513;
      mkRect (5454 # 10) (5454 # 10) 513 513 ].
Proof. repeat (constructor; [by vm_compute |]). constructor. Qed.

(** ** C9: the watermark and failed loads *)







Section CompositorFacts.
Variable loadImage : string → option HTMLImageElement.
Variable random : nat → Q.

Lemma loadLoop_loaded (i : nat) (srcs : list string)
    (acc : list HTMLImageElement) (log : list nat) :
  (loadLoop loadImage i srcs acc log).1 = acc ++ omap loadImage srcs.
Proof.
  revert i acc log. induction srcs as [| src srcs IH]; intros i acc log.
  - simpl. by rewrite app_nil_r.
  - simpl. destruct (loadImage src) as [img |].
    + rewrite IH. by rewrite <- app_assoc.
    + apply IH.
Qed.


Lemma loadImages_loaded (imgs : list string) (totalSlots : nat) :
  (loadImages loadImage imgs totalSlots).1
  = omap loadImage (take totalSlots imgs).
Proof.
  unfold loadImages. rewrite loadLoop_loaded. simpl. f_equal.
  destruct (Nat.min_spec (length imgs) totalSlots) as [[Hlt ->] | [Hle ->]].
  - rewrite !take_ge by lia. reflexivity.
  - reflexivity.
Qed.



End CompositorFacts.

Section Watermark.
Variable loadImage : string → option HTMLImageElement.
Variable random : nat → Q.
Variables (p : Props) (st : State) (cv : Canvas).
Hypothesis Hcanvas : canvas p = Some cv.
Hypothesis Hctx : context2d cv = true.

Let t := template p.
Let slots := (rows t * cols t)%nat.
Let loaded := omap loadImage (take slots (images st)).
Let mark :=
  DrawWatermark (outW p - padding (outW p) (outH p))
                (outH p - padding (outW p) (outH p) / 2).

Lemma drawCollage_ops :
  ops (drawCollage loadImage random p st)
  = FillBackground (outW p) (outH p) ::
    (cells t ≫= λ rc, drawCell random p st loaded rc.1 rc.2) ++
    (if (0 <? length loaded)%nat then [mark] else []).
Proof using Hcanvas Hctx.
  unfold drawCollage. rewrite Hcanvas, Hctx. cbn [negb].
  pose proof (loadImages_loaded loadImage (images st) slots) as Hl.
  unfold slots, t in Hl. cbv zeta.
  destruct (loadImages loadImage (images st)
              (rows (template p) * cols (template p))) as [l e].
  simpl in Hl. subst l. reflexivity.
Qed.






End Watermark.





(** The failed source's cell is not the one left empty: the images that
    did load close ranks, and the placeholders come last. *)
Example drawCollage_oneBadOfThree_order :
  isImageOp <$> ops (drawCollage loadUnlessBad (λ _, 1 # 2) fourSlots
                       oneBadOfThree)
  = [false; true; true; false; false; false] ∧
  errors (drawCollage loadUnlessBad (λ _, 1 # 2) fourSlots oneBadOfThree)
  = [1%nat].
Proof. split; reflexivity. Qed.

(** ** C6: the hit test *)

Lemma toCanvas_finite (displayed logical coord : Q) :
  0 < displayed → 0 < logical →
  toCanvas displayed logical coord = Num (coord / (displayed / logical)).
Proof.
  intros Hd Hl. unfold toCanvas, jsdiv.
  destruct (Qeq_bool logical 0) eqn:E1.
  { apply Qeq_bool_eq in E1. rewrite E1 in Hl. lra. }
  destruct (Qeq_bool (displayed / logical) 0) eqn:E2; [| reflexivity].
  apply Qeq_bool_eq in E2.
  assert (0 < displayed / logical) by (apply Qlt_shift_div_l; lra).
  lra.
Qed.

Lemma In_cells (t : CollageTemplate) (row col : nat) :
  (row < rows t)%nat → (col < cols t)%nat → In (row, col) (cells t).
Proof.
  intros Hr Hc. apply list_elem_of_In.
  eapply list_elem_of_lookup_2. by apply cells_lookup.
Qed.

Lemma In_cells_inv (t : CollageTemplate) (row col : nat) :
  In (row, col) (cells t) → (row < rows t)%nat ∧ (col < cols t)%nat.
Proof.
  intros [k Hk]%list_elem_of_In%list_elem_of_lookup_1.
  apply cells_lookup_inv in Hk. tauto.
Qed.

Lemma half_between (a w : Q) : 0 <= w → a <= a + w / 2 ∧ a + w / 2 <= a + w.
Proof.
  intros Hw. unfold Qdiv. change (/ 2) with (1 # 2). split; lra.
Qed.

Section HitTest.
Variables (p : Props) (st : State) (cv : Canvas) (rect : DOMRect).
Hypothesis Hrect : canvasRect st = Some rect.
Hypothesis Hcanvas : canvas p = Some cv.

Let t := template p.
Let W := outW p.
Let H := outH p.
Let canvasX (px : Q) := toCanvas (offsetWidth cv) W px.
Let canvasY (py : Q) := toCanvas (offsetHeight cv) H py.

Lemma getImageIndexAtPosition_find (px py : Q) :
  getImageIndexAtPosition p st px py =
  match find (λ rc,
                negb (length (images st) <=? rc.1 * cols t + rc.2)%nat &&
                insideCell t W H (canvasX px) (canvasY py) rc.1 rc.2)
             (cells t) with
  | Some rc => Z.of_nat (rc.1 * cols t + rc.2)
  | None => (-1)%Z
  end.
Proof using Hrect Hcanvas.
  unfold getImageIndexAtPosition. rewrite Hrect, Hcanvas. reflexivity.
Qed.


Hypothesis HW : 0 < W.
Hypothesis HH : 0 < H.

(** A point in the cell [(row, col)]: the index of the cell when there
    is an image for it, and no match when there is none. *)
Lemma hit_inside (px py : Q) (row col : nat) :
  (row < rows t)%nat → (col < cols t)%nat →
  insideCell t W H (canvasX px) (canvasY py) row col = true →
  getImageIndexAtPosition p st px py =
  if (row * cols t + col <? length (images st))%nat
  then Z.of_nat (row * cols t + col) else (-1)%Z.
Proof using All.
  intros Hr Hc Hin. rewrite getImageIndexAtPosition_find.
  assert (1 <= rows t)%nat as Hrows by lia.
  assert (1 <= cols t)%nat as Hcols by lia.
  destruct (find _ (cells t)) as [[row' col'] |] eqn:Hfind.
  - apply find_some in Hfind as [_ Htest].
    simpl in Htest. apply andb_true_iff in Htest as [Hidx Hin'].
    apply negb_true_iff, Nat.leb_gt in Hidx.
    pose proof (insideCell_unique t W H HW HH Hrows Hcols _ _ _ _ _ _
                  Hin' Hin) as [= -> ->].
    simpl. by apply Nat.ltb_lt in Hidx as ->.
  - destruct (Nat.ltb_spec (row * cols t + col) (length (images st)))
      as [Hidx | Hidx]; [| reflexivity].
    pose proof (find_none _ _ Hfind (row, col) (In_cells t row col Hr Hc))
      as Htest.
    simpl in Htest. rewrite Hin, andb_true_r in Htest.
    apply negb_false_iff, Nat.leb_le in Htest. lia.
Qed.

Hypothesis Hshown : 0 < offsetWidth cv ∧ 0 < offsetHeight cv.

(** The centre of a cell whose width and height are not negative lies
    in the cell. *)
Lemma centre_inside (px py : Q) (row col : nat) :
  0 <= cellWidth t W H → 0 <= cellHeight t W H →
  px / (offsetWidth cv / W) == cellX t W H col + cellWidth t W H / 2 →
  py / (offsetHeight cv / H) == cellY t W H row + cellHeight t W H / 2 →
  insideCell t W H (canvasX px) (canvasY py) row col = true.
Proof using HW HH Hshown.
  intros Hcw Hch Hx Hy. destruct Hshown as [Hsw Hsh].
  apply insideCell_true. unfold canvasX, canvasY.
  rewrite !toCanvas_finite by assumption.
  eexists _, _. split; [reflexivity |]. split; [reflexivity |].
  rewrite Hx, Hy.
  destruct (half_between (cellX t W H col) (cellWidth t W H) Hcw).
  destruct (half_between (cellY t W H row) (cellHeight t W H) Hch).
  auto.
Qed.

End HitTest.




(** In that state the second image has failed to load, so that the
    cell (1, 0) shows the placeholder numbered 3 and no image; its centre
    is hit all the same, and a pointer-down there starts a drag of the
    transform at index 2. *)
Example placeholder_cell_is_hit :
  DrawPlaceholder (cellRect classicFour 1080 1080 1 0) 3
  ∈ ops (drawCollage loadUnlessBad (λ _, 1 # 2) fourSlots oneBadOfThree) ∧
  getImageIndexAtPosition fourSlots oneBadOfThree (309 # 4) (891 # 4) = 2%Z ∧
  (imageIndex
     <$> dragState (handleCanvasDragStart fourSlots (309 # 4) (891 # 4)
                      oneBadOfThree)) = Some 2%nat.
Proof.
  split; [| split; by vm_compute].
  apply list_elem_of_In. vm_compute. tauto.
Qed.


(** The template [2x2] with three images: a point of the first cell, a
    point of the fourth cell (which has no image), and a point of the gap
    between the first two cells. *)
Example hit_classicFour_first_cell :
  getImageIndexAtPosition fourSlots oneBadOfThree 50 50 = 0%Z ∧
  getImageIndexAtPosition fourSlots oneBadOfThree 200 200 = (-1)%Z ∧
  getImageIndexAtPosition fourSlots oneBadOfThree 149 50 = (-1)%Z.
Proof. repeat split; by vm_compute. Qed.

Lemma axis_size_nonneg (L m g n cw : Q) :
  0 < m → m <= L → 0 < g → g <= m * (2 # 100) * 2 →
  1 <= n → n <= 25 →
  cw * n == L - m * (2 # 100) * 2 - g * (n - 1) → 0 <= cw.
Proof.
  intros Hm HmL Hg Hg2 Hn Hn25 Hcw.
  assert (0 <= (m * (2 # 100) * 2 - g) * (n - 1)) as H1
    by (apply Qmult_le_0_compat; lra).
  assert (0 <= (25 - n) * (m * (2 # 100) * 2)) as H2
    by (apply Qmult_le_0_compat; lra).
  ring_simplify in H1. ring_simplify in H2.
  assert (0 <= cw * n) as Hprod by (rewrite Hcw; ring_simplify; lra).
  destruct (Qlt_le_dec cw 0) as [Hneg | ?]; [exfalso | assumption].
  assert (0 < (- cw) * n) as Hpos by (apply Qmult_lt_0_compat; lra).
  ring_simplify in Hpos. lra.
Qed.

(** In exact arithmetic the width and the height of the cells are not
    negative in any grid of at most 25 rows and 25 columns, whatever the
    style; 25 framed columns leave a width of exactly zero. *)
Lemma cell_size_nonneg (t : CollageTemplate) (W H : Q) :
  0 < W → 0 < H →
  (1 <= rows t <= 25)%nat → (1 <= cols t <= 25)%nat →
  0 <= cellWidth t W H ∧ 0 <= cellHeight t W H.
Proof.
  intros HW HH [Hr1 Hr25] [Hc1 Hc25].
  assert (0 < Qmin W H) as Hmin
    by (destruct (Q.min_spec W H) as [[_ ->] | [_ ->]]; lra).
  pose proof (gap_pos t W H HW HH) as Hg.
  assert (gap t W H <= Qmin W H * (2 # 100) * 2) as Hg2.
  { unfold gap, padding. destruct (isPolaroid t); lra. }
  split.
  - apply (axis_size_nonneg W (Qmin W H) (gap t W H) (Qnat (cols t)));
      auto using Q.le_min_l, Qnat_ge_1.
    + apply (Qnat_le _ 25). lia.
    + apply (cellWidth_cols t W H Hc1).
  - apply (axis_size_nonneg H (Qmin W H) (gap t W H) (Qnat (rows t)));
      auto using Q.le_min_r, Qnat_ge_1.
    + apply (Qnat_le _ 25). lia.
    + apply (cellHeight_rows t W H Hr1).
Qed.

(** * Further properties of the code *)

(** ** The reconciling effect *)

Lemma reconcileTransforms_idempotent (imgs : list string)
    (prev : list ImageTransform) :
  reconcileTransforms imgs (reconcileTransforms imgs prev)
  = reconcileTransforms imgs prev.
Proof.
  apply list_eq. intros k. rewrite !reconcileTransforms_lookup.
  by case_decide.
Qed.

(** The effect that reconciles the transforms keeps the selection exactly
    when it points at an image, and leaves the state settled: one
    transform per image, and a selection that is an image index. *)
Theorem reconcileEffect_settles (st : State) :
  settled (reconcileEffect st) ∧
  (∀ sel, selectedImageIndex (reconcileEffect st) = Some sel ↔
          selectedImageIndex st = Some sel ∧ (sel < length (images st))%nat) ∧
  dragState (reconcileEffect st) = dragState st ∧
  dragIndex (reconcileEffect st) = dragIndex st ∧
  dropIndex (reconcileEffect st) = dropIndex st.
Proof.
  destruct (reconcileEffect_fields st) as [Hi Ht].
  assert (∀ sel, selectedImageIndex (reconcileEffect st) = Some sel ↔
            selectedImageIndex st = Some sel ∧ (sel < length (images st))%nat)
    as Hsel.
  { intros sel. unfold reconcileEffect.
    destruct (selectedImageIndex st) as [s |] eqn:Hs; simpl.
    - destruct (Nat.leb_spec (length (images st)) s); simpl; rewrite ?Hs.
      + split; [discriminate | intros [[= ->] ?]; lia].
      + split; [intros [= ->]; split; [done | lia] | by intros [? _]].
    - rewrite Hs. split; [discriminate | by intros [? _]]. }
  split; [split |].
  - rewrite Ht, Hi. unfold reconcileTransforms. apply length_imap.
  - intros sel Hs. rewrite Hi. by apply Hsel in Hs as [_ ?].
  - split; [exact Hsel |]. unfold reconcileEffect.
    destruct (selectedImageIndex st) as [s |]; [| done].
    by destruct (length (images st) <=? s)%nat.
Qed.

(** Run a second time on its own result, the effect changes nothing. *)
Theorem reconcileEffect_idempotent (st : State) :
  reconcileEffect (reconcileEffect st) = reconcileEffect st.
Proof.
  destruct st as [imgs trs sel di dp ds cr]. unfold reconcileEffect. simpl.
  destruct sel as [s |]; simpl.
  - destruct (Nat.leb_spec (length imgs) s) as [Hle | Hlt]; simpl.
    + unfold setSelectedImageIndex, setImageTransforms. simpl.
      by rewrite reconcileTransforms_idempotent.
    + destruct (Nat.leb_spec (length imgs) s); [lia |].
      unfold setImageTransforms. simpl.
      by rewrite reconcileTransforms_idempotent.
  - unfold setImageTransforms. simpl.
    by rewrite reconcileTransforms_idempotent.
Qed.

(** ** The hit test and the start of a canvas drag *)

Lemma hit_range (p : Props) (st : State) (px py : Q) :
  getImageIndexAtPosition p st px py = (-1)%Z ∨
  ∃ k : nat,
    getImageIndexAtPosition p st px py = Z.of_nat k ∧
    (k < length (images st))%nat ∧
    (k < rows (template p) * cols (template p))%nat.
Proof.
  unfold getImageIndexAtPosition.
  destruct (canvasRect st); [| by left].
  destruct (canvas p) as [cv |]; [| by left]. cbv zeta.
  destruct (find _ (cells (template p))) as [[row col] |] eqn:Hfind;
    [| by left].
  right. apply find_some in Hfind as [[Hr Hc]%In_cells_inv Htest].
  simpl in Htest. apply andb_true_iff in Htest as [Hidx _].
  apply negb_true_iff, Nat.leb_gt in Hidx.
  exists (row * cols (template p) + col)%nat. simpl.
  split; [reflexivity |]. split; [exact Hidx | nia].
Qed.

(** The hit test answers [-1] or the index of an image that has a cell:
    never an index past the images or past the grid. *)
Theorem getImageIndexAtPosition_range (p : Props) (st : State) (px py : Q) :
  getImageIndexAtPosition p st px py = (-1)%Z ∨
  ∃ k : nat,
    getImageIndexAtPosition p st px py = Z.of_nat k ∧
    (k < length (images st))%nat ∧
    (k < rows (template p) * cols (template p))%nat.
Proof. exact (hit_range p st px py). Qed.

(** A pointer-down on the canvas never changes the images or the
    transforms.  Either it changes nothing at all, or it starts a drag:
    then the hit test has found an image [k] that has a transform, the
    drag state records [k], the pointer position and that transform, and
    [k] becomes the selection. *)
Theorem handleCanvasDragStart_cases (p : Props) (clientX clientY : Q)
    (st : State) :
  let st' := handleCanvasDragStart p clientX clientY st in
  images st' = images st ∧ imageTransforms st' = imageTransforms st ∧
  (st' = st ∨
   ∃ (rect : DOMRect) (k : nat) (t : ImageTransform),
     canvasRect st = Some rect ∧
     getImageIndexAtPosition p st (clientX - left rect) (clientY - top rect)
     = Z.of_nat k ∧
     (k < length (images st))%nat ∧
     imageTransforms st !! k = Some t ∧
     selectedImageIndex st' = Some k ∧
     dragState st'
     = Some {| isDragging := true; imageIndex := k;
               startX := clientX; startY := clientY;
               initialTransform := t |}).
Proof.
  unfold handleCanvasDragStart.
  destruct (canvasRect st) as [rect |] eqn:Hrect; [| by auto].
  cbv zeta.
  destruct (hit_range p st (clientX - left rect)
              (clientY - top rect)) as [-> | (k & Hk & Hlt & _)].
  { simpl. auto. }
  rewrite Hk. destruct (Z.leb_spec 0 (Z.of_nat k)); [| lia].
  rewrite Nat2Z.id.
  destruct (imageTransforms st !! k) as [t |] eqn:Ht; [| by auto].
  split; [reflexivity |]. split; [reflexivity |].
  right. exists rect, k, t. by repeat split.
Qed.

(** ** Moves of a canvas drag, and resets *)

Lemma imap_imap {A B C} (f : nat → A → B) (g : nat → B → C) (l : list A) :
  imap g (imap f l) = imap (λ i a, g i (f i a)) l.
Proof.
  apply list_eq. intros k. rewrite !list_lookup_imap.
  by destruct (l !! k).
Qed.

Lemma imap_ext_eq {A B} (f g : nat → A → B) (l : list A) :
  (∀ i a, f i a = g i a) → imap f l = imap g l.
Proof. intros Hfg. apply imap_ext. auto. Qed.

Lemma updateImageTransform_twice (index : nat) (p1 p2 : PartialTransform)
    (st : State) :
  (∀ t, spread (spread t p1) p2 = spread t p2) →
  updateImageTransform index p2 (updateImageTransform index p1 st)
  = updateImageTransform index p2 st.
Proof.
  intros Hspread. unfold updateImageTransform, setImageTransforms. simpl.
  f_equal. rewrite imap_imap. apply imap_ext_eq. intros i t.
  destruct (i =? index)%nat; [apply Hspread | reflexivity].
Qed.

Lemma clamp_Qeq (a b lo hi : Q) : a == b → clamp a lo hi == clamp b lo hi.
Proof.
  intros Hab. unfold clamp.
  destruct (Qltb a lo) eqn:A1, (Qltb b lo) eqn:B1.
  - reflexivity.
  - apply Qltb_lt in A1. apply Qltb_ge in B1. exfalso. lra.
  - apply Qltb_ge in A1. apply Qltb_lt in B1. exfalso. lra.
  - destruct (Qltb hi a) eqn:A2, (Qltb hi b) eqn:B2.
    + reflexivity.
    + apply Qltb_lt in A2. apply Qltb_ge in B2. exfalso. lra.
    + apply Qltb_ge in A2. apply Qltb_lt in B2. exfalso. lra.
    + exact Hab.
Qed.

(** The moves of a canvas drag are absolute: each one is computed from
    the transform and the pointer position that the drag began with, so
    after two moves the state is what the second move alone gives.  Once
    the drag has ended, a move changes nothing. *)
Theorem handleCanvasDragMove_absolute (st : State) (x1 y1 x2 y2 : Q) :
  handleCanvasDragMove x2 y2 (handleCanvasDragMove x1 y1 st)
  = handleCanvasDragMove x2 y2 st ∧
  handleCanvasDragMove x2 y2 (handleCanvasDragEnd st) = handleCanvasDragEnd st.
Proof.
  split; [| reflexivity].
  unfold handleCanvasDragMove at 2.
  destruct (dragState st) as [ds |] eqn:Hds; [| reflexivity].
  destruct (isDragging ds) eqn:Hdrag; cbn [negb]; [| reflexivity].
  cbv zeta. unfold handleCanvasDragMove.
  change (dragState (updateImageTransform ?i ?q st)) with (dragState st).
  rewrite Hds, Hdrag. cbn [negb]. cbv zeta.
  by apply updateImageTransform_twice.
Qed.

(** A pointer-down that starts a drag on image [k], followed by a move to
    the very point of the pointer-down, leaves the transform of [k] as it
    was when its offsets are within the drag bounds [-100, 100] (as they
    are after slider edits, resets and earlier drags); an offset beyond
    the bounds is pulled back to the bound by that first move. *)
Theorem drag_start_then_still (p : Props) (st : State) (rect : DOMRect)
    (k : nat) (t : ImageTransform) (clientX clientY : Q) :
  canvasRect st = Some rect →
  getImageIndexAtPosition p st (clientX - left rect) (clientY - top rect)
  = Z.of_nat k →
  imageTransforms st !! k = Some t →
  let st' :=
    handleCanvasDragMove clientX clientY
      (handleCanvasDragStart p clientX clientY st) in
  ∃ t', imageTransforms st' !! k = Some t' ∧
        x t' == clamp (x t) (-100) 100 ∧ y t' == clamp (y t) (-100) 100 ∧
        scale t' = scale t ∧
        (-100 <= x t <= 100 → x t' == x t) ∧
        (-100 <= y t <= 100 → y t' == y t) ∧
        (∀ j, j ≠ k → imageTransforms st' !! j = imageTransforms st !! j).
Proof.
  intros Hrect Hhit Ht st'. subst st'.
  unfold handleCanvasDragStart. rewrite Hrect. cbv zeta. rewrite Hhit.
  destruct (Z.leb_spec 0 (Z.of_nat k)); [| lia].
  rewrite Nat2Z.id, Ht.
  unfold handleCanvasDragMove. cbn [dragState setSelectedImageIndex
    setDragState isDragging negb]. cbv zeta.
  cbn [imageIndex startX startY initialTransform].
  assert (∀ v, v + (clientX - clientX) * (1 # 2) == v) as Hx by (intros; ring).
  assert (∀ v, v + (clientY - clientY) * (1 # 2) == v) as Hy by (intros; ring).
  eexists. split.
  { rewrite updateImageTransform_lookup. cbn [imageTransforms
      setSelectedImageIndex setDragState]. rewrite Ht. simpl.
    rewrite Nat.eqb_refl. reflexivity. }
  cbn [x y scale spread p_x p_y p_scale default].
  assert (∀ v d, v + d == v → clampOffset (v + d) == clamp v (-100) 100)
    as Hclamp.
  { intros v d Hd. rewrite clampOffset_clamp. by apply clamp_Qeq. }
  assert (∀ v, -100 <= v <= 100 → clamp v (-100) 100 == v) as Hin.
  { intros v [Hlo Hhi]. unfold clamp.
    destruct (Qltb v (-100)) eqn:E1;
      [apply Qltb_lt in E1; exfalso; lra |].
    destruct (Qltb 100 v) eqn:E2;
      [apply Qltb_lt in E2; exfalso; lra | reflexivity]. }
  split; [apply Hclamp, Hx |]. split; [apply Hclamp, Hy |].
  split; [reflexivity |].
  split; [intros Hb; rewrite (Hclamp _ _ (Hx _)); by apply Hin |].
  split; [intros Hb; rewrite (Hclamp _ _ (Hy _)); by apply Hin |].
  intros j Hj. rewrite updateImageTransform_lookup.
  cbn [imageTransforms setSelectedImageIndex setDragState].
  destruct (imageTransforms st !! j); [simpl | reflexivity].
  by destruct (Nat.eqb_spec j k).
Qed.

Lemma drag_start_then_still_witness :
  ∃ t', imageTransforms
          (handleCanvasDragMove 50 50
             (handleCanvasDragStart fourSlots 50 50 oneBadOfThree)) !! 0%nat
        = Some t' ∧
        x t' == 0 ∧ y t' == 0 ∧ scale t' = 1.
Proof.
  destruct (drag_start_then_still fourSlots oneBadOfThree
              {| left := 0; top := 0 |} 0 defaultTransform 50 50
              eq_refl ltac:(by vm_compute) eq_refl)
    as (t' & Hl & Hx & Hy & Hs & _).
  exists t'. split; [exact Hl |]. split; [rewrite Hx; reflexivity |].
  split; [rewrite Hy; reflexivity | exact Hs].
Defined.

(** A reset puts the default transform [{0, 0, 1}] at its index and
    touches nothing else (past the end of the array it does nothing); it
    wipes out whatever update came before it at that index, and a second
    reset changes nothing. *)
Theorem resetImageTransform_default (index : nat) (st : State)
    (patch : PartialTransform) :
  imageTransforms (resetImageTransform index st)
  = <[index := defaultTransform]> (imageTransforms st) ∧
  resetImageTransform index (updateImageTransform index patch st)
  = resetImageTransform index st ∧
  resetImageTransform index (resetImageTransform index st)
  = resetImageTransform index st.
Proof.
  split; [| split].
  - unfold resetImageTransform, updateImageTransform. simpl.
    apply list_eq. intros k. rewrite list_lookup_imap.
    destruct (Nat.eqb_spec k index) as [-> | Hne].
    + destruct (imageTransforms st !! index) eqn:Hl.
      * rewrite list_lookup_insert_eq by (by eapply lookup_lt_Some).
        reflexivity.
      * rewrite list_insert_ge by (by apply lookup_ge_None_1).
        by rewrite Hl.
    + rewrite list_lookup_insert_ne by done.
      by destruct (imageTransforms st !! k).
  - by apply updateImageTransform_twice.
  - by apply updateImageTransform_twice.
Qed.

(** ** Thumbnail drags: there and back *)

(** A term in which no conditional is left. *)
Ltac plain a :=
  lazymatch a with
  | context [if _ then _ else _] => fail
  | _ => idtac
  end.

Lemma movedFrom_inverse (i j k : nat) :
  movedFrom i j (movedFrom j i k) = k.
Proof.
  unfold movedFrom.
  repeat match goal with
  | |- context [(?a =? ?b)%nat] => plain a; plain b; destruct (Nat.eqb_spec a b)
  | |- context [(?a <? ?b)%nat] => plain a; plain b; destruct (Nat.ltb_spec a b)
  | |- context [(?a <=? ?b)%nat] => plain a; plain b; destruct (Nat.leb_spec a b)
  | _ => progress cbn [andb]
  end; lia.
Qed.

Lemma moveItem_back {A} `{Inhabited A} (l : list A) (i j : nat) :
  (i < length l)%nat → (j < length l)%nat →
  moveItem j i (moveItem i j l) = l.
Proof.
  intros Hi Hj. apply list_eq. intros k.
  rewrite moveItem_lookup by (by rewrite moveItem_length).
  rewrite moveItem_lookup by done.
  by rewrite movedFrom_inverse.
Qed.

Lemma dragThumbnail_fields (i j : nat) (st : State) :
  i ≠ j →
  images (dragThumbnail i j st) = moveItem i j (images st) ∧
  imageTransforms (dragThumbnail i j st) = moveItem i j (imageTransforms st).
Proof.
  intros Hne. unfold dragThumbnail, handleDragEnd. simpl.
  by destruct (Nat.eqb_spec i j).
Qed.

(** Dragging the thumbnail at [i] onto [j] and then the thumbnail at [j]
    back onto [i] restores the order of the images and of their
    transforms. *)
Theorem dragThumbnail_round_trip (st : State) (i j : nat) :
  (i < length (images st))%nat → (j < length (images st))%nat →
  length (imageTransforms st) = length (images st) →
  let back := dragThumbnail j i (dragThumbnail i j st) in
  images back = images st ∧ imageTransforms back = imageTransforms st ∧
  dragIndex back = None ∧ dropIndex back = None.
Proof.
  intros Hi Hj Hlen back. subst back.
  destruct (decide (i = j)) as [-> | Hne].
  { unfold dragThumbnail, handleDragEnd. simpl. by rewrite Nat.eqb_refl. }
  destruct (dragThumbnail_fields j i (dragThumbnail i j st)) as [-> ->];
    [done |].
  destruct (dragThumbnail_fields i j st Hne) as [-> ->].
  rewrite !moveItem_back by lia. done.
Qed.

Lemma dragThumbnail_round_trip_witness :
  images (dragThumbnail 2 0 (dragThumbnail 0 2 draggedFirstToThird))
  = ["A"; "B"; "C"]%string.
Proof.
  assert (0 < length (images draggedFirstToThird))%nat as H0 by (simpl; lia).
  assert (2 < length (images draggedFirstToThird))%nat as H2 by (simpl; lia).
  exact (proj1 (dragThumbnail_round_trip draggedFirstToThird 0 2 H0 H2 eq_refl)).
Defined.

(** ** The filters *)

Lemma assoc_In (key : string) (table : list (string * string)) (v : string) :
  assoc key table = Some v → In (key, v) table.
Proof.
  induction table as [| [k w] rest IH]; simpl; [discriminate |].
  destruct (String.eqb_spec k key) as [-> | _].
  - intros [= ->]. by left.
  - intros Hv. right. by apply IH.
Qed.

(** The filter that the canvas applies is the one that the filter picker
    of FilterSelector.tsx shows for the same id; an id that is neither in
    the table nor a name inherited from [Object.prototype] gives ['none'];
    and whatever the id, a filter string that comes back is one of the
    table. *)
Theorem getFilterCSS_agrees :
  Forall (λ option, getFilterCSS option.1 = Css option.2) filterOptions ∧
  (∀ filterId, filterId ∉ filterMap.*1 → filterId ∉ objectPrototypeKeys →
     getFilterCSS filterId = Css "none") ∧
  (∀ filterId css, getFilterCSS filterId = Css css →
     css ∈ filterOptions.*2).
Proof.
  split; [| split].
  - repeat constructor.
  - intros filterId Hid Hproto. unfold getFilterCSS.
    destruct (assoc filterId filterMap) as [css |] eqn:Hassoc.
    + exfalso. apply Hid. apply assoc_In, list_elem_of_In in Hassoc.
      apply list_elem_of_fmap. by exists (filterId, css).
    + by rewrite bool_decide_eq_false_2.
  - intros filterId css. unfold getFilterCSS.
    destruct (assoc filterId filterMap) as [css' |] eqn:Hassoc.
    + intros [= <-]. apply assoc_In, list_elem_of_In in Hassoc.
      apply list_elem_of_fmap. by exists (filterId, css').
    + case_bool_decide; [discriminate |]. intros [= <-].
      apply list_elem_of_fmap. exists ("none", "none")%string.
      split; [reflexivity | by left].
Qed.

Lemma getFilterCSS_agrees_witness :
  getFilterCSS "sparkle" = Css "none".
Proof.
  destruct getFilterCSS_agrees as (_ & Hnone & _).
  apply Hnone; apply (bool_decide_eq_true_1 _); by vm_compute.
Defined.

(** ** The style renderer: where the image lands *)

Lemma Qeq_bool_pos (q : Q) : 0 < q → Qeq_bool q 0 = false.
Proof.
  intros Hq. destruct (Qeq_bool q 0) eqn:E; [| reflexivity].
  apply Qeq_bool_eq in E. rewrite E in Hq. lra.
Qed.

Lemma placeImage_finite (img : HTMLImageElement) (ox oy w h : Q)
    (t : ImageTransform) :
  0 < img_width img → 0 < img_height img →
  let m := Qmax (w / img_width img) (h / img_height img) in
  let sw := img_width img * (m * scale t) in
  let sh := img_height img * (m * scale t) in
  placeImage img ox oy w h t
  = {| dx := Num (ox + ((w + - sw) / 2 + x t));
       dy := Num (oy + ((h + - sh) / 2 + y t));
       dw := Num sw; dh := Num sh |}.
Proof.
  intros Hw Hh m sw sh. unfold placeImage. cbv zeta.
  assert (jsdiv (Num w) (Num (img_width img)) = Num (w / img_width img))
    as -> by (unfold jsdiv; by rewrite (Qeq_bool_pos _ Hw)).
  assert (jsdiv (Num h) (Num (img_height img)) = Num (h / img_height img))
    as -> by (unfold jsdiv; by rewrite (Qeq_bool_pos _ Hh)).
  reflexivity.
Qed.

Lemma cover_arith (iw ih w h s : Q) :
  0 < iw → 0 < ih → 0 <= w → 0 <= h →
  let m := Qmax (w / iw) (h / ih) in
  w <= iw * m ∧ h <= ih * m ∧
  (1 <= s → w <= iw * (m * s) ∧ h <= ih * (m * s)) ∧
  (s == 1 → iw * (m * s) == w ∨ ih * (m * s) == h).
Proof.
  intros Hiw Hih Hw Hh m.
  assert (iw * (w / iw) == w) as Ew by (apply Qmult_div_r; lra).
  assert (ih * (h / ih) == h) as Eh by (apply Qmult_div_r; lra).
  assert (w <= iw * m) as Hwm.
  { rewrite <- Ew at 1. apply Qmult_le_l; [done | apply Q.le_max_l]. }
  assert (h <= ih * m) as Hhm.
  { rewrite <- Eh at 1. apply Qmult_le_l; [done | apply Q.le_max_r]. }
  split; [done |]. split; [done |]. split.
  - intros Hs.
    assert (0 <= (iw * m) * (s - 1)) by (apply Qmult_le_0_compat; lra).
    assert (0 <= (ih * m) * (s - 1)) by (apply Qmult_le_0_compat; lra).
    split.
    + assert (iw * (m * s) == iw * m + iw * m * (s - 1)) as -> by ring.
      lra.
    + assert (ih * (m * s) == ih * m + ih * m * (s - 1)) as -> by ring.
      lra.
  - intros ->. subst m.
    destruct (Q.max_spec (w / iw) (h / ih)) as [[_ ->] | [_ ->]].
    + right. rewrite Qmult_1_r. exact Eh.
    + left. rewrite Qmult_1_r. exact Ew.
Qed.

Lemma placeImage_covers (img : HTMLImageElement) (ox oy w h : Q)
    (t : ImageTransform) :
  0 < img_width img → 0 < img_height img → 0 <= w → 0 <= h →
  ∃ ix iy iw ih : Q,
    placeImage img ox oy w h t
    = {| dx := Num ix; dy := Num iy; dw := Num iw; dh := Num ih |} ∧
    iw * img_height img == ih * img_width img ∧
    ix + iw / 2 == ox + w / 2 + x t ∧
    iy + ih / 2 == oy + h / 2 + y t ∧
    (1 <= scale t → w <= iw ∧ h <= ih) ∧
    (1 <= scale t → x t == 0 → y t == 0 →
       ix <= ox ∧ ox + w <= ix + iw ∧ iy <= oy ∧ oy + h <= iy + ih) ∧
    (scale t == 1 → iw == w ∨ ih == h).
Proof.
  intros Hiw Hih Hw Hh.
  rewrite (placeImage_finite img ox oy w h t Hiw Hih). cbv zeta.
  destruct (cover_arith (img_width img) (img_height img) w h (scale t)
              Hiw Hih Hw Hh) as (_ & _ & Hbig & Htight).
  set (m := Qmax (w / img_width img) (h / img_height img)) in *.
  set (sw := img_width img * (m * scale t)) in *.
  set (sh := img_height img * (m * scale t)) in *.
  eexists _, _, _, _. split; [reflexivity |].
  split; [unfold sw, sh; ring |].
  split; [field |]. split; [field |].
  split; [exact Hbig |]. split; [| exact Htight].
  intros Hs Hx Hy. destruct (Hbig Hs) as [Hbw Hbh].
  rewrite Hx, Hy. unfold Qdiv. change (/ 2) with (1 # 2).
  repeat split; lra.
Qed.

(** In each of the four styles, for an image of positive size and a cell
    of non-negative size, the image is drawn with its own aspect ratio,
    centred on the clip area and then shifted by the pan [(x, y)] of its
    transform.  With a scale of at least 1 it is at least as large as the
    clip area, and with no pan it covers the area; at scale 1 it fits the
    area exactly along one axis.  The clip area lies within the cell; for
    the polaroid style it is the cell less a border of a tenth of the
    smaller side. *)
Theorem drawWithStyle_placement (img : HTMLImageElement) (r : Rect)
    (style_ filterId : string) (t : ImageTransform) :
  0 < img_width img → 0 < img_height img → 0 <= rw r → 0 <= rh r →
  let d := drawWithStyle img r style_ filterId t in
  let c := clipBounds (sd_clip d) in
  (∃ ix iy iw ih : Q,
     sd_image d = {| dx := Num ix; dy := Num iy; dw := Num iw; dh := Num ih |} ∧
     iw * img_height img == ih * img_width img ∧
     ix + iw / 2 == rx c + rw c / 2 + x t ∧
     iy + ih / 2 == ry c + rh c / 2 + y t ∧
     (1 <= scale t → rw c <= iw ∧ rh c <= ih) ∧
     (1 <= scale t → x t == 0 → y t == 0 →
        ix <= rx c ∧ rx c + rw c <= ix + iw ∧
        iy <= ry c ∧ ry c + rh c <= iy + ih) ∧
     (scale t == 1 → iw == rw c ∨ ih == rh c)) ∧
  rx r <= rx c ∧ rx c + rw c <= rx r + rw r ∧
  ry r <= ry c ∧ ry c + rh c <= ry r + rh r ∧
  (style_ = "polaroid"%string →
     rx c == rx r + Qmin (rw r) (rh r) / 10 ∧
     rw c == rw r - 2 * (Qmin (rw r) (rh r) / 10)).
Proof.
  intros Hiw Hih Hw Hh d c. subst c d. unfold drawWithStyle.
  pose proof (Q.le_min_l (rw r) (rh r)) as Hml.
  pose proof (Q.le_min_r (rw r) (rh r)) as Hmr.
  assert (0 <= Qmin (rw r) (rh r)) as Hm0
    by (destruct (Q.min_spec (rw r) (rh r)) as [[_ ->] | [_ ->]]; lra).
  destruct (String.eqb_spec style_ "polaroid") as [-> | Hp].
  { cbn [sd_image sd_clip clipBounds rx ry rw rh].
    split; [apply placeImage_covers; try assumption; lra |].
    repeat split; try lra. all: field. }
  assert (rx r <= rx r ∧ rx r + rw r <= rx r + rw r ∧
          ry r <= ry r ∧ ry r + rh r <= ry r + rh r) as Hself
    by (repeat split; lra).
  destruct (String.eqb style_ "magazine");
    [| destruct (String.eqb style_ "creative")];
    cbn [sd_image sd_clip clipBounds];
    (split; [by apply placeImage_covers |]);
    destruct Hself as (? & ? & ? & ?); repeat split; try done.
Qed.

Lemma drawWithStyle_placement_witness :
  ∃ ix iy iw ih : Q,
    sd_image (drawWithStyle {| img_src := "a"; img_width := 640;
                               img_height := 480 |}
                (cellRect classicFour 1080 1080 0 0) "grid" "none"
                defaultTransform)
    = {| dx := Num ix; dy := Num iy; dw := Num iw; dh := Num ih |} ∧
    iw * 480 == ih * 640.
Proof.
  destruct (drawWithStyle_placement
              {| img_src := "a"; img_width := 640; img_height := 480 |}
              (cellRect classicFour 1080 1080 0 0) "grid" "none"
              defaultTransform)
    as ((ix & iy & iw & ih & Himg & Hasp & _) & _); try by vm_compute.
  exists ix, iy, iw, ih. split; [exact Himg | exact Hasp].
Defined.

(** ** More on the compositor *)

Lemma loadImages_take (loadImage : string → option HTMLImageElement)
    (imgs : list string) (n : nat) :
  loadImages loadImage (take n imgs) n = loadImages loadImage imgs n.
Proof.
  unfold loadImages. f_equal. rewrite length_take, take_take. f_equal. lia.
Qed.

(** The render reads the first [rows * cols] images only: the images
    past the last cell are neither loaded nor drawn, and with or without
    them the drawing and the log are the same. *)
Theorem drawCollage_ignores_surplus
    (loadImage : string → option HTMLImageElement) (random : nat → Q)
    (p : Props) (st : State) :
  drawCollage loadImage random p
    (setImages (take (rows (template p) * cols (template p)) (images st)) st)
  = drawCollage loadImage random p st.
Proof.
  unfold drawCollage. destruct (canvas p) as [cv |]; [| reflexivity].
  destruct (context2d cv); [| reflexivity]. cbn [negb]. cbv zeta.
  cbn [images setImages]. rewrite loadImages_take.
  destruct (loadImages loadImage (images st) _) as [loaded log].
  reflexivity.
Qed.

Section CellOperations.
Variable loadImage : string → option HTMLImageElement.
Variable random : nat → Q.
Variables (p : Props) (st : State).



(** The rectangle of a cell operation: the size is that of the grid's
    cells; the corner is the grid's, moved by the jitter when the style is
    polaroid and a loaded image is left for the cell. *)
Lemma drawCell_rects (loaded : list HTMLImageElement) (row col : nat)
    (op : DrawOp) (r : Rect) :
  let t := template p in
  let index := (row * cols t + col)%nat in
  op ∈ drawCell random p st loaded row col → opRect op = Some r →
  rw r = cellWidth t (outW p) (outH p) ∧
  rh r = cellHeight t (outW p) (outH p) ∧
  (isPolaroid t && (index <? length loaded)%nat = false →
     r = cellRect t (outW p) (outH p) row col) ∧
  (isPolaroid t && (index <? length loaded)%nat = true →
     rx r = cellX t (outW p) (outH p) col
            + (random (2 * index) - (1 # 2)) * padding (outW p) (outH p) ∧
     ry r = cellY t (outW p) (outH p) row
            + (random (2 * index + 1) - (1 # 2)) * padding (outW p) (outH p)).
Proof.
  intros t index. unfold drawCell. fold t index. cbv zeta.
  set (cell := {| rx := _; ry := _; rw := _; rh := _ |}).
  intros Hop Hr.
  assert (r = cell) as ->.
  { destruct (loaded !! index), (imageTransforms st !! index);
      try case_decide;
      repeat (apply elem_of_cons in Hop as [-> | Hop]);
      try (by apply elem_of_nil in Hop);
      simpl in Hr; congruence. }
  subst cell. simpl.
  split; [reflexivity |]. split; [reflexivity |].
  destruct (isPolaroid t && (index <? length loaded)%nat);
    split; try done.
Qed.

End CellOperations.




Section CollageOperations.
Variable loadImage : string → option HTMLImageElement.
Variable random : nat → Q.
Variables (p : Props) (st : State) (cv : Canvas).
Hypothesis Hcanvas : canvas p = Some cv.
Hypothesis Hctx : context2d cv = true.

Let t := template p.
Let slots := (rows t * cols t)%nat.
Let loaded := omap loadImage (take slots (images st)).




Lemma drawCollage_rects (op : DrawOp) (r : Rect) :
  op ∈ ops (drawCollage loadImage random p st) → opRect op = Some r →
  ∃ row col,
    (row < rows t)%nat ∧ (col < cols t)%nat ∧
    op ∈ drawCell random p st loaded row col.
Proof using Hcanvas Hctx.
  rewrite (drawCollage_ops loadImage random p st cv Hcanvas Hctx).
  fold t slots loaded. intros Hop Hr.
  apply elem_of_cons in Hop as [-> | Hop]; [discriminate |].
  apply elem_of_app in Hop as [Hop | Hop].
  - apply list_elem_of_bind in Hop as ([row col] & Hin & Hcell).
    apply list_elem_of_In, In_cells_inv in Hcell as [? ?].
    by exists row, col.
  - destruct (0 <? length loaded)%nat.
    + apply list_elem_of_singleton in Hop as ->. discriminate.
    + by apply elem_of_nil in Hop.
Qed.

End CollageOperations.





(** Every image, highlight and placeholder is drawn on a rectangle of the
    grid's cell size that belongs to a cell [(row, col)] of the grid.  For
    a style other than polaroid, and for a cell past the loaded images, it
    is the cell's own rectangle.  For the polaroid style the corner of a
    cell with a loaded image is moved at random, by at most half the
    padding along each axis. *)
Theorem drawCollage_jitter
    (loadImage : string → option HTMLImageElement) (random : nat → Q)
    (p : Props) (st : State) (op : DrawOp) (r : Rect) :
  op ∈ ops (drawCollage loadImage random p st) → opRect op = Some r →
  let t := template p in
  let W := outW p in
  let H := outH p in
  let loaded := omap loadImage (take (rows t * cols t) (images st)) in
  ∃ row col,
    (row < rows t)%nat ∧ (col < cols t)%nat ∧
    rw r = cellWidth t W H ∧ rh r = cellHeight t W H ∧
    (style t ≠ Some "polaroid"%string → r = cellRect t W H row col) ∧
    ((length loaded <= row * cols t + col)%nat → r = cellRect t W H row col) ∧
    ((∀ k, 0 <= random k ∧ random k < 1) → 0 < W → 0 < H →
       - (padding W H / 2) <= rx r - cellX t W H col <= padding W H / 2 ∧
       - (padding W H / 2) <= ry r - cellY t W H row <= padding W H / 2).
Proof.
  intros Hop Hr t W H loaded.
  destruct (canvas p) as [cv |] eqn:Hcanvas;
    [| unfold drawCollage in Hop; rewrite Hcanvas in Hop;
       by apply elem_of_nil in Hop].
  destruct (context2d cv) eqn:Hctx;
    [| unfold drawCollage in Hop; rewrite Hcanvas, Hctx in Hop;
       by apply elem_of_nil in Hop].
  destruct (drawCollage_rects loadImage random p st cv Hcanvas Hctx op r
              Hop Hr) as (row & col & Hrow & Hcol & Hcell).
  destruct (drawCell_rects random p st _ row col op r Hcell Hr)
    as (Hw & Hh & Hplain & Hjit).
  fold t W H loaded in Hw, Hh, Hplain, Hjit.
  exists row, col. split; [exact Hrow |]. split; [exact Hcol |].
  split; [exact Hw |]. split; [exact Hh |]. split; [| split].
  - intros Hpol. apply Hplain.
    rewrite isPolaroid_style, bool_decide_eq_false_2 by done. reflexivity.
  - intros Hidx. apply Hplain.
    destruct (Nat.ltb_spec (row * cols t + col) (length loaded)); [lia |].
    by rewrite andb_false_r.
  - intros Hrnd HW HH.
    pose proof (padding_pos W H HW HH) as Hpad.
    destruct (isPolaroid t && (row * cols t + col <? length loaded)%nat)
      eqn:Hj.
    + destruct (Hjit eq_refl) as [-> ->].
      destruct (Hrnd (2 * (row * cols t + col))%nat) as [Hx0 Hx1].
      destruct (Hrnd (2 * (row * cols t + col) + 1)%nat) as [Hy0 Hy1].
      set (cx := cellX t W H col). set (cy := cellY t W H row).
      set (u := random (2 * (row * cols t + col))%nat) in *.
      set (v := random (2 * (row * cols t + col) + 1)%nat) in *.
      set (pad := padding W H) in *.
      assert (0 <= u * pad) by (apply Qmult_le_0_compat; lra).
      assert (0 <= (1 - u) * pad) by (apply Qmult_le_0_compat; lra).
      assert (0 <= v * pad) by (apply Qmult_le_0_compat; lra).
      assert (0 <= (1 - v) * pad) by (apply Qmult_le_0_compat; lra).
      assert (cx + (u - (1 # 2)) * pad - cx == u * pad - pad / 2)
        as -> by field.
      assert (cy + (v - (1 # 2)) * pad - cy == v * pad - pad / 2)
        as -> by field.
      assert ((1 - u) * pad == pad - u * pad) as Eu by ring.
      assert ((1 - v) * pad == pad - v * pad) as Ev by ring.
      assert (pad / 2 == pad * (1 # 2)) as -> by field.
      rewrite Eu in *. rewrite Ev in *. repeat split; lra.
    + rewrite (Hplain eq_refl). simpl.
      fold W H. set (cx := cellX t W H col). set (cy := cellY t W H row).
      assert (padding W H / 2 == padding W H * (1 # 2)) as -> by field.
      assert (cx - cx == 0) as -> by ring.
      assert (cy - cy == 0) as -> by ring.
      repeat split; lra.
Qed.

(** The template [polaroid-4] at 1080 x 1080 with two images, and
    [Math.random] giving 0.75 each time: the first image is drawn 5.4
    pixels, a quarter of the padding, to the right of and below its cell,
    within the half padding of 10.8 that the jitter can reach. *)
Lemma drawCollage_jitter_witness :
  let r := {| rx := cellX polaroidFour 1080 1080 0
                    + ((3 # 4) - (1 # 2)) * padding 1080 1080;
              ry := cellY polaroidFour 1080 1080 0
                    + ((3 # 4) - (1 # 2)) * padding 1080 1080;
              rw := cellWidth polaroidFour 1080 1080;
              rh := cellHeight polaroidFour 1080 1080 |} in
  DrawWithStyle {| img_src := "a"; img_width := 640; img_height := 480 |}
    r "polaroid" "none" defaultTransform
  ∈ ops (drawCollage loadUnlessBad (λ _, 3 # 4) fourFramedSlots twoImages) ∧
  rx r == 27 ∧ ry r == 27 ∧
  ∃ row col,
    (row < 2)%nat ∧ (col < 2)%nat ∧
    - (108 # 10) <= rx r - cellX polaroidFour 1080 1080 col <= 108 # 10 ∧
    - (108 # 10) <= ry r - cellY polaroidFour 1080 1080 row <= 108 # 10.
Proof.
  intros r.
  assert (DrawWithStyle
            {| img_src := "a"; img_width := 640; img_height := 480 |}
            r "polaroid" "none" defaultTransform
          ∈ ops (drawCollage loadUnlessBad (λ _, 3 # 4) fourFramedSlots
                   twoImages)) as Hop
    by (apply list_elem_of_In; right; left; reflexivity).
  split; [exact Hop |].
  split; [by vm_compute |]. split; [by vm_compute |].
  destruct (drawCollage_jitter loadUnlessBad (λ _, 3 # 4) fourFramedSlots
              twoImages _ r Hop eq_refl)
    as (row & col & Hrow & Hcol & _ & _ & _ & _ & Hjit).
  assert (0 < 1080) as Hpos by reflexivity.
  destruct Hjit as [Hx Hy]; [intros _; split; [discriminate | reflexivity]
                            | exact Hpos | exact Hpos |].
  assert (padding 1080 1080 / 2 == 108 # 10) as Hhalf by reflexivity.
  cbn [template outW outH fourFramedSlots] in Hx, Hy.
  rewrite Hhalf in Hx, Hy.
  exists row, col. split; [exact Hrow |]. split; [exact Hcol |].
  split; [exact Hx | exact Hy].
Defined.

(** ** The sizes that the size selector can ask for *)

Lemma round_quotient (x : Q) (a b : Z) :
  x == inject_Z a → (0 < b)%Z →
  ∃ n : Z,
    Math_round (jsdiv (Num x) (Num (inject_Z b))) = Num (inject_Z n) ∧
    (2 * n * b - b <= 2 * a)%Z ∧ (2 * a < 2 * n * b + b)%Z.
Proof.
  intros Hx Hb.
  assert (inject_Z 0 < inject_Z b) as HbQ by (by rewrite <- Zlt_Qlt).
  change (inject_Z 0) with 0 in HbQ.
  unfold jsdiv. rewrite (Qeq_bool_pos _ HbQ). simpl Math_round.
  set (q := x / inject_Z b).
  exists (Qfloor (q + (1 # 2))). split; [reflexivity |].
  pose proof (Qfloor_le (q + (1 # 2))) as Hlo.
  pose proof (Qlt_floor (q + (1 # 2))) as Hhi.
  rewrite inject_Z_plus in Hhi. change (inject_Z 1) with 1 in Hhi.
  set (n := Qfloor (q + (1 # 2))) in *.
  assert (q * inject_Z b == inject_Z a) as Hq.
  { rewrite <- Hx. unfold q. field. intros Hz. rewrite Hz in HbQ. lra. }
  assert ((inject_Z n - (1 # 2)) * inject_Z b <= q * inject_Z b) as H1
    by (apply Qmult_le_compat_r; lra).
  assert (q * inject_Z b < (inject_Z n + (1 # 2)) * inject_Z b) as H2
    by (apply Qmult_lt_compat_r; lra).
  rewrite Hq in H1, H2.
  split.
  - rewrite Zle_Qle. unfold Z.sub.
    rewrite inject_Z_plus, inject_Z_opp, !inject_Z_mult.
    change (inject_Z 2) with 2. lra.
  - rewrite Zlt_Qlt. rewrite inject_Z_plus, !inject_Z_mult.
    change (inject_Z 2) with 2. lra.
Qed.

Lemma sizeFor_sides (w h resolution : Z) :
  (0 < w)%Z → (0 < h)%Z → (0 < resolution)%Z →
  ∃ W H : Z,
    sizeFor (w, h) resolution
    = {| width := Num (inject_Z W); height := Num (inject_Z H) |} ∧
    (0 <= W <= resolution)%Z ∧ (0 <= H <= resolution)%Z ∧
    (W `max` H = resolution)%Z ∧
    (h <= w → W = resolution ∧ (2 * Z.abs (H * w - resolution * h) <= w))%Z ∧
    (w < h → H = resolution ∧ (2 * Z.abs (W * h - resolution * w) <= h))%Z ∧
    (w `max` h <= 2 * resolution * (w `min` h) → 0 < W ∧ 0 < H)%Z.
Proof.
  intros Hw Hh Hr. unfold sizeFor, calculateSize, calculateOutputSize.
  cbn [fst snd jsge jsmul].
  destruct (Qle_bool (inject_Z h) (inject_Z w)) eqn:Hcmp.
  - apply Qle_bool_iff in Hcmp. rewrite <- Zle_Qle in Hcmp.
    destruct (round_quotient (inject_Z resolution * inject_Z h)
                (resolution * h) w) as (n & -> & Hlo & Hhi);
      [by rewrite inject_Z_mult | done |].
    exists resolution, n. split; [reflexivity |].
    assert (0 <= n <= resolution)%Z by nia.
    repeat split; try lia; try nia.
  - assert (w < h)%Z as Hlt.
    { destruct (Z.lt_ge_cases w h) as [? | Hge]; [done |].
      rewrite Zle_Qle in Hge. apply Qle_bool_iff in Hge. congruence. }
    destruct (round_quotient (inject_Z resolution * inject_Z w)
                (resolution * w) h) as (n & -> & Hlo & Hhi);
      [by rewrite inject_Z_mult | done |].
    exists n, resolution. split; [reflexivity |].
    assert (0 <= n <= resolution)%Z by nia.
    repeat split; try lia; try nia.
Qed.

(** For an aspect ratio and a resolution that are positive integers of at
    most a million, the computed size has integer sides that are not
    negative; the longer side is the resolution, the shorter one is within
    half a pixel of the exact proportion, and both are positive unless the
    ratio is so extreme that the exact shorter side is below half a
    pixel.  (Within these bounds the product [resolution * h] is an exact
    double, the quotient is less than 2^-33 off and at least 2^-21 away
    from any tie that it does not hit, so that the doubles of the source
    round to the same integer; far beyond them its product overflows.) *)
Theorem calculateSize_integer_sides (w h resolution : Z) :
  (0 < w <= 1000000)%Z → (0 < h <= 1000000)%Z →
  (0 < resolution <= 1000000)%Z →
  ∃ W H : Z,
    sizeFor (w, h) resolution
    = {| width := Num (inject_Z W); height := Num (inject_Z H) |} ∧
    (0 <= W <= resolution)%Z ∧ (0 <= H <= resolution)%Z ∧
    (W `max` H = resolution)%Z ∧
    (h <= w → W = resolution ∧ (2 * Z.abs (H * w - resolution * h) <= w))%Z ∧
    (w < h → H = resolution ∧ (2 * Z.abs (W * h - resolution * w) <= h))%Z ∧
    (w `max` h <= 2 * resolution * (w `min` h) → 0 < W ∧ 0 < H)%Z.
Proof.
  intros [Hw _] [Hh _] [Hr _]. exact (sizeFor_sides w h resolution Hw Hh Hr).
Qed.

Lemma calculateSize_integer_sides_witness :
  ∃ W H : Z,
    sizeFor (16, 9)%Z 1080
    = {| width := Num (inject_Z W); height := Num (inject_Z H) |} ∧
    (W `max` H = 1080)%Z.
Proof.
  destruct (calculateSize_integer_sides 16 9 1080)
    as (W & H & Hs & _ & _ & Hmax & _); try lia.
  exists W, H. split; [exact Hs | exact Hmax].
Defined.

(** Every ratio and resolution that the size selector offers gives a
    size with positive integer sides, at most the resolution. *)
Theorem sizeSelector_sizes (ratio : string * (Z * Z)) (resolution : Z) :
  ratio ∈ aspectRatioOptions → resolution ∈ resolutionOptions →
  ∃ W H : Z,
    sizeFor ratio.2 resolution
    = {| width := Num (inject_Z W); height := Num (inject_Z H) |} ∧
    (0 < W <= resolution)%Z ∧ (0 < H <= resolution)%Z ∧
    (W `max` H = resolution)%Z.
Proof.
  intros Hratio Hres.
  assert ((0 < ratio.2.1 ∧ 0 < ratio.2.2 ∧ ratio.2.1 `max` ratio.2.2 <= 16)%Z)
    as (Hw & Hh & Hmax).
  { unfold aspectRatioOptions in Hratio.
    repeat (apply elem_of_cons in Hratio as [-> | Hratio]; [simpl; lia |]).
    by apply elem_of_nil in Hratio. }
  assert (720 <= resolution)%Z as Hr.
  { unfold resolutionOptions in Hres.
    repeat (apply elem_of_cons in Hres as [-> | Hres]; [lia |]).
    by apply elem_of_nil in Hres. }
  destruct ratio as [name [w h]]. simpl in *.
  destruct (sizeFor_sides w h resolution)
    as (W & H & Hs & HW & HH & HM & _ & _ & Hpos); try lia.
  exists W, H. split; [exact Hs |]. destruct Hpos; lia.
Qed.

Lemma sizeSelector_sizes_witness :
  ∃ W H : Z,
    sizeFor (9, 16)%Z 720
    = {| width := Num (inject_Z W); height := Num (inject_Z H) |} ∧
    (0 < W <= 720)%Z.
Proof.
  assert (("9:16"%string, (9, 16)%Z) ∈ aspectRatioOptions) as Hratio
    by (do 3 right; left).
  assert (720%Z ∈ resolutionOptions) as Hres by left.
  destruct (sizeSelector_sizes _ _ Hratio Hres) as (W & H & Hs & HW & _).
  exists W, H. split; [exact Hs | exact HW].
Defined.

(** ** The templates on offer *)

Lemma generateTemplatesForCount_large (count : nat) :
  (9 < count)%nat → generateTemplatesForCount count = [].
Proof.
  intros Hc. unfold generateTemplatesForCount.
  repeat match goal with
  | |- context [(count =? ?k)%nat] =>
      destruct (Nat.eqb_spec count k); [lia |]
  end.
  reflexivity.
Qed.

Lemma offered_fits (count : nat) :
  (generateTemplatesForCount count = [] ↔ count ∉ [1; 2; 3; 4; 6; 9]%nat) ∧
  NoDup (option_id <$> generateTemplatesForCount count) ∧
  ∀ o, o ∈ generateTemplatesForCount count →
       (count <= rows (layout o) * cols (layout o))%nat ∧
       (1 <= rows (layout o) <= 4)%nat ∧ (1 <= cols (layout o) <= 4)%nat ∧
       filledCells count (layout o) = count.
Proof.
  destruct (decide (9 < count)%nat) as [Hbig | Hsmall].
  { rewrite generateTemplatesForCount_large by done.
    split; [| split].
    - split; [| done]. intros _ Hin.
      repeat (apply elem_of_cons in Hin as [-> | Hin]; [lia |]).
      by apply elem_of_nil in Hin.
    - constructor.
    - intros o Ho. by apply elem_of_nil in Ho. }
  do 10 (destruct count as [| count]; [
    split; [split; [try discriminate; intros _ Hin;
                      repeat (apply elem_of_cons in Hin as [[=] | Hin]);
                      by apply elem_of_nil in Hin
                   | intros Hnot; try reflexivity; exfalso; apply Hnot;
                     apply (bool_decide_eq_true_1 _); reflexivity]
          | split; [by apply (bool_decide_eq_true_1 _)
                   | intros o Ho; cbn in Ho;
                     repeat (apply elem_of_cons in Ho as [-> | Ho];
                             [cbn; lia |]);
                     by apply elem_of_nil in Ho]] |]).
  lia.
Qed.

(** The template selector offers templates for 1, 2, 3, 4, 6 and 9 images
    and none for any other number.  Every template on offer has at least
    as many cells as there are images, between one and four rows and
    columns, and an id of its own. *)
Theorem generateTemplatesForCount_fits (count : nat) :
  (generateTemplatesForCount count = [] ↔ count ∉ [1; 2; 3; 4; 6; 9]%nat) ∧
  NoDup (option_id <$> generateTemplatesForCount count) ∧
  ∀ o, o ∈ generateTemplatesForCount count →
       (count <= rows (layout o) * cols (layout o))%nat ∧
       (1 <= rows (layout o) <= 4)%nat ∧ (1 <= cols (layout o) <= 4)%nat ∧
       filledCells count (layout o) = count.
Proof. exact (offered_fits count). Qed.

Lemma generateTemplatesForCount_fits_witness :
  templateOption "triangle-3" 2 2 "creative" ∈ generateTemplatesForCount 3 ∧
  (3 <= rows (layout (templateOption "triangle-3" 2 2 "creative"))
        * cols (layout (templateOption "triangle-3" 2 2 "creative")))%nat.
Proof.
  assert (templateOption "triangle-3" 2 2 "creative"
          ∈ generateTemplatesForCount 3) as Ho by (do 2 right; left).
  split; [exact Ho |].
  destruct (generateTemplatesForCount_fits 3) as (_ & _ & Hfit).
  exact (proj1 (Hfit _ Ho)).
Defined.

(** ** The automatic recommendation *)

Lemma getRecommendedTemplate_large (count : nat) :
  (9 < count)%nat →
  getRecommendedTemplate count = templateOption "3x3" 3 3 "grid".
Proof.
  intros Hc. unfold getRecommendedTemplate, recommendedTemplates.
  cbn [lookupCount firstAtLeast].
  repeat match goal with
  | |- context [(?k =? count)%nat] =>
      destruct (Nat.eqb_spec k count); [lia |]
  | |- context [(count <=? ?k)%nat] =>
      destruct (Nat.leb_spec count k); [lia |]
  end.
  reflexivity.
Qed.

Lemma recommended_fits (count : nat) :
  (1 <= count)%nat →
  let o := getRecommendedTemplate count in
  let slots := (rows (layout o) * cols (layout o))%nat in
  slots ∈ [1; 2; 3; 4; 6; 9]%nat ∧
  (count <= 9 → count <= slots ∧
     ∀ k, k ∈ [1; 2; 3; 4; 6; 9]%nat → count <= k → slots <= k)%nat ∧
  (9 < count → slots = 9)%nat ∧
  style (layout o) = Some "grid"%string ∧
  (1 <= rows (layout o) <= 3)%nat ∧ (1 <= cols (layout o) <= 3)%nat ∧
  (∀ first, head (generateTemplatesForCount count) = Some first → first = o).
Proof.
  intros Hc o slots. subst slots o.
  destruct (decide (9 < count)%nat) as [Hbig | Hsmall].
  { rewrite getRecommendedTemplate_large,
      generateTemplatesForCount_large by done.
    cbn. split; [do 5 right; left |].
    repeat split; try lia; try discriminate. }
  destruct count as [| count]; [lia |].
  do 9 (destruct count as [| count]; [
    cbn;
    split; [apply (bool_decide_eq_true_1 _); reflexivity |];
    split; [intros _; split; [lia |]; intros k Hk Hle;
            repeat (apply elem_of_cons in Hk as [-> | Hk]; [lia |]);
            by apply elem_of_nil in Hk |];
    split; [lia |]; split; [reflexivity |];
    split; [lia |]; split; [lia |];
    intros first [= <-]; reflexivity |]).
  lia.
Qed.

(** For one to nine images the recommended template has the smallest
    number of cells, among 1, 2, 3, 4, 6 and 9, that holds them all; for
    more than nine it is the 3 x 3 grid, which leaves images out.  The
    recommended template is always a plain grid of at most three rows and
    columns, and whenever the template selector has templates on offer for
    the same number of images, its first one (the one it labels as
    recommended) is this one. *)
Theorem getRecommendedTemplate_fits (count : nat) :
  (1 <= count)%nat →
  let o := getRecommendedTemplate count in
  let slots := (rows (layout o) * cols (layout o))%nat in
  slots ∈ [1; 2; 3; 4; 6; 9]%nat ∧
  (count <= 9 → count <= slots ∧
     ∀ k, k ∈ [1; 2; 3; 4; 6; 9]%nat → count <= k → slots <= k)%nat ∧
  (9 < count → slots = 9)%nat ∧
  style (layout o) = Some "grid"%string ∧
  (1 <= rows (layout o) <= 3)%nat ∧ (1 <= cols (layout o) <= 3)%nat ∧
  (∀ first, head (generateTemplatesForCount count) = Some first → first = o).
Proof. exact (recommended_fits count). Qed.

Lemma getRecommendedTemplate_fits_witness :
  (rows (layout (getRecommendedTemplate 5))
   * cols (layout (getRecommendedTemplate 5)))%nat
  ∈ [1; 2; 3; 4; 6; 9]%nat.
Proof.
  assert (1 <= 5)%nat as H5 by lia.
  exact (proj1 (getRecommendedTemplate_fits 5 H5)).
Defined.

(** The effect that follows the number of images never replaces a
    template that holds all the images.  For up to nine images the
    template it leaves holds them all, and a second run changes nothing;
    for more than nine a template that is too small is replaced by the
    3 x 3 grid, which still does not hold them. *)
Theorem recommendEffect_fits (count : nat) (selected : TemplateOption) :
  let slots o := (rows (layout o) * cols (layout o))%nat in
  ((count <= slots selected)%nat → recommendEffect count selected = selected) ∧
  ((count <= 9)%nat →
     (count <= slots (recommendEffect count selected))%nat ∧
     recommendEffect count (recommendEffect count selected)
     = recommendEffect count selected) ∧
  ((9 < count)%nat → (slots selected < count)%nat →
     recommendEffect count selected = templateOption "3x3" 3 3 "grid" ∧
     (slots (recommendEffect count selected) < count)%nat).
Proof.
  intros slots. subst slots.
  assert (∀ o, (count <= rows (layout o) * cols (layout o))%nat →
               recommendEffect count o = o) as Hkeep.
  { intros o Hfit. unfold recommendEffect.
    destruct (0 <? count)%nat; [| reflexivity]. cbv zeta.
    by destruct (Nat.ltb_spec (rows (layout o) * cols (layout o)) count);
      [lia |]. }
  split; [apply Hkeep |]. split.
  - intros Hc.
    assert (count <= rows (layout (recommendEffect count selected))
                     * cols (layout (recommendEffect count selected)))%nat
      as Hfit.
    { unfold recommendEffect.
      destruct (Nat.ltb_spec 0 count); [| lia]. cbv zeta.
      destruct (Nat.ltb_spec (rows (layout selected) * cols (layout selected))
                  count); [| lia].
      by apply recommended_fits. }
    split; [exact Hfit | by apply Hkeep].
  - intros Hbig Hsmall. unfold recommendEffect.
    destruct (Nat.ltb_spec 0 count); [| lia]. cbv zeta.
    destruct (Nat.ltb_spec (rows (layout selected) * cols (layout selected))
                count); [| lia].
    rewrite getRecommendedTemplate_large by done. cbn. split; [done | lia].
Qed.

Lemma recommendEffect_fits_witness :
  (5 <= rows (layout (recommendEffect 5 (templateOption "2x2" 2 2 "grid")))
        * cols (layout (recommendEffect 5 (templateOption "2x2" 2 2 "grid"))))%nat.
Proof.
  assert (5 <= 9)%nat as H5 by lia.
  destruct (recommendEffect_fits 5 (templateOption "2x2" 2 2 "grid"))
    as (_ & Hfit & _).
  exact (proj1 (Hfit H5)).
Defined.

(** ** The hit test on the templates on offer *)

(** On any template that the template selector offers or that Home
    recommends, whatever the positive output size, the cells have a width
    and a height that are not negative, and the screen point that maps to
    the centre of a cell gives the index of that cell when there is an
    image for it, and [-1] when there is none. *)
Theorem offered_templates_hit (p : Props) (st : State) (cv : Canvas)
    (rect : DOMRect) (count : nat) (o : TemplateOption)
    (row col : nat) (px py : Q) :
  o ∈ generateTemplatesForCount count ∨
    ((1 <= count)%nat ∧ o = getRecommendedTemplate count) →
  template p = layout o →
  canvasRect st = Some rect → canvas p = Some cv →
  0 < outW p → 0 < outH p → 0 < offsetWidth cv → 0 < offsetHeight cv →
  let t := template p in
  let W := outW p in
  let H := outH p in
  (row < rows t)%nat → (col < cols t)%nat →
  px / (offsetWidth cv / W) == cellX t W H col + cellWidth t W H / 2 →
  py / (offsetHeight cv / H) == cellY t W H row + cellHeight t W H / 2 →
  0 <= cellWidth t W H ∧ 0 <= cellHeight t W H ∧
  getImageIndexAtPosition p st px py =
    if (row * cols t + col <? length (images st))%nat
    then Z.of_nat (row * cols t + col) else (-1)%Z.
Proof.
  intros Ho Ht Hrect Hcanvas HW HH Hsw Hsh t W H Hr Hc Hx Hy.
  subst t W H.
  assert ((1 <= rows (layout o) <= 25)%nat ∧ (1 <= cols (layout o) <= 25)%nat)
    as [Hrows Hcols].
  { destruct Ho as [Ho | [Hcount ->]].
    - destruct (offered_fits count) as (_ & _ & Hfit).
      destruct (Hfit o Ho) as (_ & ? & ? & _). lia.
    - destruct (recommended_fits count Hcount) as (_ & _ & _ & _ & ? & ? & _).
      lia. }
  rewrite <- Ht in Hrows, Hcols.
  destruct (cell_size_nonneg (template p) (outW p) (outH p) HW HH Hrows Hcols)
    as [Hcw Hch].
  split; [exact Hcw |]. split; [exact Hch |].
  apply (hit_inside p st cv rect Hrect Hcanvas HW HH px py row col Hr Hc).
  by apply (centre_inside p cv HW HH (conj Hsw Hsh)).
Qed.

Lemma offered_templates_hit_witness :
  getImageIndexAtPosition fourSlots oneBadOfThree (309 # 4) (891 # 4) = 2%Z.
Proof.
  assert (templateOption "2x2" 2 2 "grid" ∈ generateTemplatesForCount 4)
    as Ho by left.
  assert (0 < 1080) as Hout by reflexivity.
  assert (0 < 300) as Hshown by reflexivity.
  assert (1 < 2)%nat as H1 by lia.
  assert (0 < 2)%nat as H0 by lia.
  destruct (offered_templates_hit fourSlots oneBadOfThree shownCanvas
              {| left := 0; top := 0 |} 4 _ 1 0 (309 # 4) (891 # 4)
              (or_introl Ho) eq_refl eq_refl eq_refl Hout Hout Hshown Hshown
              H1 H0 ltac:(by vm_compute) ltac:(by vm_compute))
    as (_ & _ & Hhit).
  exact Hhit.
Defined.

(** ** Removing an image *)

Lemma omap_imap_Some {A} (l : list A) :
  omap (λ x, x) (imap (λ _ a, Some a) l) = l.
Proof.
  induction l as [| a l IH]; [reflexivity |].
  rewrite imap_cons. cbn. f_equal. exact IH.
Qed.

Lemma handleRemoveImage_delete (index : nat) (imgs : list string) :
  handleRemoveImage index imgs = delete index imgs.
Proof.
  unfold handleRemoveImage. revert index.
  induction imgs as [| a l IH]; intros index; [reflexivity |].
  rewrite imap_cons. destruct index as [| index]; cbn.
  - apply omap_imap_Some.
  - f_equal. apply IH.
Qed.

(** After the image at [index] is removed in the uploader and the
    transforms are reconciled, the images past [index] have moved up by
    one place but the transforms have not: the transform array has lost
    its last entry, not the entry of the removed image, so that each image
    past [index] now carries the transform of its former left
    neighbour. *)
Theorem remove_then_reconcile (st : State) (index : nat) :
  (index < length (images st))%nat →
  length (imageTransforms st) = length (images st) →
  let st' :=
    reconcileEffect (setImages (handleRemoveImage index (images st)) st) in
  images st' = delete index (images st) ∧
  imageTransforms st'
  = take (length (images st) - 1) (imageTransforms st) ∧
  (∀ k, (index <= k)%nat → (S k < length (images st))%nat →
        images st' !! k = images st !! S k ∧
        imageTransforms st' !! k = imageTransforms st !! k).
Proof.
  intros Hidx Hlen st'. subst st'.
  rewrite handleRemoveImage_delete.
  destruct (reconcileEffect_fields
              (setImages (delete index (images st)) st))
    as [Hi Ht].
  cbn [images imageTransforms setImages] in Hi, Ht.
  assert (length (delete index (images st)) = (length (images st) - 1)%nat)
    as Hdel.
  { rewrite length_delete; [reflexivity |]. by apply lookup_lt_is_Some_2. }
  assert (imageTransforms
            (reconcileEffect (setImages (delete index (images st)) st))
          = take (length (images st) - 1) (imageTransforms st)) as Htake.
  { rewrite Ht, reconcileTransforms_spec, Hdel. unfold spec_reconcile.
    replace (length (images st) - 1 - length (imageTransforms st))%nat
      with 0%nat by lia.
    apply app_nil_r. }
  split; [exact Hi |]. split; [exact Htake |].
  intros k Hk Hlt. split.
  - rewrite Hi. by apply list_lookup_delete_ge.
  - rewrite Htake. apply lookup_take_lt. lia.
Qed.

Lemma remove_then_reconcile_witness :
  let st' :=
    reconcileEffect
      (setImages (handleRemoveImage 0 (images draggedFirstToThird))
         draggedFirstToThird) in
  images st' = ["B"; "C"]%string ∧
  imageTransforms st'
  = [ {| x := 1; y := 1; scale := 1 |}; {| x := 2; y := 2; scale := 1 |} ].
Proof.
  assert (0 < length (images draggedFirstToThird))%nat as H0 by (simpl; lia).
  destruct (remove_then_reconcile draggedFirstToThird 0 H0 eq_refl)
    as (Hi & Ht & _).
  split; [exact Hi | exact Ht].
Defined.

(** ** The puzzle game *)

Lemma random_index (r : Q) (i : nat) :
  0 <= r → r < 1 →
  (0 <= Qfloor (r * inject_Z (Z.of_nat i + 1)) <= Z.of_nat i)%Z.
Proof.
  intros H0 H1.
  assert (inject_Z 0 < inject_Z (Z.of_nat i + 1)) as Hk
    by (rewrite <- Zlt_Qlt; lia).
  change (inject_Z 0) with 0 in Hk.
  split.
  - rewrite <- (Qfloor_Z 0). apply Qfloor_resp_le.
    change (inject_Z 0) with 0. apply Qmult_le_0_compat; lra.
  - pose proof (Qfloor_le (r * inject_Z (Z.of_nat i + 1))) as Hlo.
    assert (r * inject_Z (Z.of_nat i + 1) < 1 * inject_Z (Z.of_nat i + 1))
      as Hhi by (apply Qmult_lt_compat_r; assumption).
    assert (inject_Z (Qfloor (r * inject_Z (Z.of_nat i + 1)))
            < inject_Z (Z.of_nat i + 1)) as Hlt by lra.
    rewrite <- Zlt_Qlt in Hlt. lia.
Qed.

Lemma swapEntries_perm (i : nat) (j : Z) (a : list nat) :
  (i < length a)%nat → (0 <= j <= Z.of_nat i)%Z →
  ∃ a', PuzzleBoard.swapEntries i j a = Some a' ∧ a' ≡ₚ a.
Proof.
  intros Hi Hj. unfold PuzzleBoard.swapEntries.
  destruct (Z.leb_spec 0 j) as [_ | Hneg]; [| lia].
  destruct (lookup_lt_is_Some_2 a i Hi) as [ai Hai].
  assert (Z.to_nat j < length a)%nat as Hjlt by lia.
  destruct (lookup_lt_is_Some_2 a (Z.to_nat j) Hjlt) as [aj Haj].
  rewrite Hai, Haj. eexists. split; [reflexivity |].
  by apply Permutation_insert_swap.
Qed.

Lemma shuffleFrom_perm (random : nat → Q) (i call : nat) (a : list nat) :
  (∀ k, 0 <= random k ∧ random k < 1) →
  (i < length a)%nat ∨ i = 0%nat →
  ∃ a', PuzzleBoard.shuffleFrom random call i a = Some a' ∧ a' ≡ₚ a.
Proof.
  intros Hrandom. revert call a.
  induction i as [| i IH]; intros call a Hi.
  - exists a. by split.
  - destruct Hi as [Hi | Hi]; [| discriminate].
    cbn [PuzzleBoard.shuffleFrom]. cbv zeta.
    destruct (Hrandom call) as [H0 H1].
    destruct (swapEntries_perm (S i)
                (Qfloor (random call * inject_Z (Z.of_nat (S i) + 1))) a Hi
                (random_index _ (S i) H0 H1)) as (a1 & Hswap & Hperm).
    rewrite Hswap. cbn [mbind option_bind].
    destruct (IH (S call) a1) as (a2 & Hrest & Hperm2).
    { left. rewrite (Permutation_length Hperm). lia. }
    exists a2. split; [exact Hrest |]. by rewrite Hperm2.
Qed.

Lemma fmap_zip_with_left {A B C D} (f : A → B → C) (g : C → D) (h : A → D)
    (l : list A) (k : list B) :
  (∀ x y, g (f x y) = h x) → length l = length k →
  g <$> zip_with f l k = h <$> l.
Proof.
  intros Hg. revert k.
  induction l as [| x l IH]; intros [| y k] Hlen; try discriminate;
    [reflexivity |].
  cbn. rewrite Hg. f_equal. apply IH. by injection Hlen.
Qed.

Lemma initializePuzzle_fields (image : string) (size : nat)
    (random : nat → Q) (st : PuzzleBoard.State) :
  (∀ k, 0 <= random k ∧ random k < 1) →
  ∃ st',
    PuzzleBoard.initializePuzzle image size random st = Some st' ∧
    PuzzleBoard.id <$> PuzzleBoard.pieces st' = seq 0 (size * size) ∧
    PuzzleBoard.correctPosition <$> PuzzleBoard.pieces st'
    = seq 0 (size * size) ∧
    PuzzleBoard.currentPosition <$> PuzzleBoard.pieces st'
    ≡ₚ seq 0 (size * size) ∧
    PuzzleBoard.completedPieces st' = [] ∧
    PuzzleBoard.gameCompleted st' = false.
Proof.
  intros Hrandom. unfold PuzzleBoard.initializePuzzle. cbv zeta.
  destruct (shuffleFrom_perm random (size * size - 1) 0
              (seq 0 (size * size)) Hrandom) as (sh & Hsh & Hperm).
  { rewrite length_seq. lia. }
  rewrite Hsh. cbn [mbind option_bind].
  eexists. split; [reflexivity |].
  cbn [PuzzleBoard.pieces PuzzleBoard.completedPieces
         PuzzleBoard.gameCompleted].
  assert (length
            (map (λ i, {| PuzzleBoard.id := i;
                          PuzzleBoard.correctPosition := i;
                          PuzzleBoard.currentPosition := i;
                          PuzzleBoard.imageUrl := image |})
               (seq 0 (size * size)))
          = length sh) as Hlen.
  { rewrite length_map. symmetry. apply (Permutation_length Hperm). }
  repeat split.
  - rewrite (fmap_zip_with_left
               (λ piece position,
                  PuzzleBoard.setCurrentPosition position piece)
               PuzzleBoard.id PuzzleBoard.id _ _ (λ _ _, eq_refl) Hlen).
    rewrite <- list_fmap_compose. apply list_fmap_id.
  - rewrite (fmap_zip_with_left
               (λ piece position,
                  PuzzleBoard.setCurrentPosition position piece)
               PuzzleBoard.correctPosition PuzzleBoard.correctPosition _ _
               (λ _ _, eq_refl) Hlen).
    rewrite <- list_fmap_compose. apply list_fmap_id.
  - rewrite fmap_zip_with_r; [exact Hperm | reflexivity | lia].
Qed.

(** A new puzzle, whatever [Math.random] returns within its range [0, 1):
    the pieces carry the ids 0, 1, ..., size * size - 1 in this order, each
    with its id as its correct position, and their current positions are a
    permutation of the same numbers (every cell of the board holds exactly
    one piece).  No piece is marked as completed, also where the shuffle
    has left it in its place, and the game is not completed. *)
Theorem initializePuzzle_shuffles (image : string) (size : nat)
    (random : nat → Q) (st : PuzzleBoard.State) :
  (∀ k, 0 <= random k ∧ random k < 1) →
  ∃ st',
    PuzzleBoard.initializePuzzle image size random st = Some st' ∧
    PuzzleBoard.id <$> PuzzleBoard.pieces st' = seq 0 (size * size) ∧
    PuzzleBoard.correctPosition <$> PuzzleBoard.pieces st'
    = seq 0 (size * size) ∧
    PuzzleBoard.currentPosition <$> PuzzleBoard.pieces st'
    ≡ₚ seq 0 (size * size) ∧
    PuzzleBoard.completedPieces st' = [] ∧
    PuzzleBoard.gameCompleted st' = false.
Proof. apply initializePuzzle_fields. Qed.

Lemma initializePuzzle_shuffles_witness :
  ∃ st',
    PuzzleBoard.initializePuzzle "photo" 2 (λ _, 1 # 2)
      PuzzleBoard.initialState = Some st' ∧
    PuzzleBoard.id <$> PuzzleBoard.pieces st' = seq 0 (2 * 2) ∧
    PuzzleBoard.correctPosition <$> PuzzleBoard.pieces st' = seq 0 (2 * 2) ∧
    PuzzleBoard.currentPosition <$> PuzzleBoard.pieces st' ≡ₚ seq 0 (2 * 2) ∧
    PuzzleBoard.completedPieces st' = [] ∧
    PuzzleBoard.gameCompleted st' = false.
Proof.
  apply (initializePuzzle_shuffles "photo" 2 (λ _, 1 # 2)
           PuzzleBoard.initialState).
  intros _. split; [discriminate | reflexivity].
Defined.

Lemma alter_const {A} (v : A) (i : nat) (l : list A) :
  alter (λ _, v) i l = <[i:=v]> l.
Proof.
  revert i. induction l as [| a l IH]; intros [| i]; cbn; try reflexivity.
  f_equal. apply IH.
Qed.

Lemma fmap_alter_same {A B} (g : A → B) (f : A → A) (i : nat) (l : list A) :
  (∀ x, g (f x) = g x) → g <$> alter f i l = g <$> l.
Proof.
  intros Hg. revert i.
  induction l as [| a l IH]; intros [| i]; cbn; try reflexivity.
  - by rewrite Hg.
  - f_equal. apply IH.
Qed.

Lemma exchange_length (dragged target : nat)
    (ps : list PuzzleBoard.PuzzlePieceData) :
  length (PuzzleBoard.exchange dragged target ps) = length ps.
Proof.
  unfold PuzzleBoard.exchange.
  repeat case_match; try reflexivity.
  by rewrite !length_alter.
Qed.

Lemma exchange_keeps {B} (g : PuzzleBoard.PuzzlePieceData → B)
    (dragged target : nat) (ps : list PuzzleBoard.PuzzlePieceData) :
  (∀ v p, g (PuzzleBoard.setCurrentPosition v p) = g p) →
  g <$> PuzzleBoard.exchange dragged target ps = g <$> ps.
Proof.
  intros Hg. unfold PuzzleBoard.exchange.
  repeat case_match; try reflexivity.
  rewrite !fmap_alter_same; [reflexivity | |]; intros; apply Hg.
Qed.

Lemma exchange_positions (dragged target : nat)
    (ps : list PuzzleBoard.PuzzlePieceData) :
  PuzzleBoard.currentPosition <$> PuzzleBoard.exchange dragged target ps
  ≡ₚ PuzzleBoard.currentPosition <$> ps.
Proof.
  unfold PuzzleBoard.exchange.
  destruct (findIndex _ ps) as [di |]; [| reflexivity].
  destruct (findIndex _ ps) as [ti |]; [| reflexivity].
  destruct (ps !! di) as [pd |] eqn:Hd; [| reflexivity].
  destruct (ps !! ti) as [pt |] eqn:Ht; [| reflexivity].
  cbv zeta.
  rewrite (list_fmap_alter PuzzleBoard.currentPosition _
             (λ _, PuzzleBoard.currentPosition pd))
    by (apply Forall_forall; reflexivity).
  rewrite (list_fmap_alter PuzzleBoard.currentPosition _
             (λ _, PuzzleBoard.currentPosition pt))
    by (apply Forall_forall; reflexivity).
  rewrite !alter_const.
  apply Permutation_insert_swap; rewrite list_lookup_fmap.
  - by rewrite Hd.
  - by rewrite Ht.
Qed.

Lemma setCurrentPosition_same (p : PuzzleBoard.PuzzlePieceData) (v : nat) :
  PuzzleBoard.currentPosition p = v → PuzzleBoard.setCurrentPosition v p = p.
Proof. intros <-. by destruct p. Qed.

Lemma findIndex_Some {A} (f : A → bool) (l : list A) (i : nat) :
  findIndex f l = Some i → ∃ x, l !! i = Some x ∧ f x = true.
Proof.
  revert i. induction l as [| a l IH]; intros i Hi; [discriminate |].
  cbn [findIndex] in Hi. destruct (f a) eqn:Ha.
  - injection Hi as <-. by exists a.
  - destruct (findIndex f l) as [k |]; [| discriminate].
    injection Hi as <-. destruct (IH k eq_refl) as (x & Hx & Hfx).
    by exists x.
Qed.

Lemma findIndex_fmap_ext {A} (g : A → nat) (v : nat) (l1 l2 : list A) :
  g <$> l1 = g <$> l2 →
  findIndex (λ p, (g p =? v)%nat) l1 = findIndex (λ p, (g p =? v)%nat) l2.
Proof.
  revert l2. induction l1 as [| a l1 IH]; intros [| b l2] Heq;
    try discriminate; [reflexivity |].
  rewrite !fmap_cons in Heq. injection Heq as Hab Hrest.
  cbn [findIndex]. rewrite Hab. by rewrite (IH l2 Hrest).
Qed.

Lemma alter_fixed {A} (f : A → A) (i : nat) (l : list A) :
  (∀ x, l !! i = Some x → f x = x) → alter f i l = l.
Proof.
  intros Hf. apply list_eq. intros k.
  destruct (decide (i = k)) as [<- | Hne].
  - rewrite list_lookup_alter_eq.
    destruct (l !! i) as [x |] eqn:Hx; [| reflexivity].
    cbn. by rewrite (Hf x).
  - by rewrite list_lookup_alter_ne.
Qed.

(** A second run of the exchange on what the first run has left changes
    nothing: the held piece already stands on the target position. *)
Lemma exchange_idem (dragged target : nat)
    (ps : list PuzzleBoard.PuzzlePieceData) :
  PuzzleBoard.exchange dragged target (PuzzleBoard.exchange dragged target ps)
  = PuzzleBoard.exchange dragged target ps.
Proof.
  unfold PuzzleBoard.exchange at 2 3.
  destruct (findIndex (λ p, (PuzzleBoard.id p =? dragged)%nat) ps)
    as [di |] eqn:Hdi; [| unfold PuzzleBoard.exchange; by rewrite Hdi].
  destruct (findIndex (λ p, (PuzzleBoard.currentPosition p =? target)%nat) ps)
    as [ti |] eqn:Hti; [| unfold PuzzleBoard.exchange; by rewrite Hdi, Hti].
  destruct (ps !! di) as [pd |] eqn:Hpd;
    [| unfold PuzzleBoard.exchange; by rewrite Hdi, Hti, Hpd].
  destruct (ps !! ti) as [pt |] eqn:Hpt;
    [| unfold PuzzleBoard.exchange; by rewrite Hdi, Hti, Hpd, Hpt].
  cbv zeta.
  destruct (findIndex_Some _ _ _ Hti) as (pt' & Hpt' & Htarget).
  rewrite Hpt in Hpt'. injection Hpt' as <-.
  apply Nat.eqb_eq in Htarget.
  set (ps1 := alter _ ti (alter _ di ps)).
  assert (PuzzleBoard.id <$> ps1 = PuzzleBoard.id <$> ps) as Hids
    by (unfold ps1; by rewrite !fmap_alter_same).
  assert (∀ x, ps1 !! di = Some x → PuzzleBoard.currentPosition x = target)
    as Hheld.
  { intros x Hx. unfold ps1 in Hx.
    destruct (decide (ti = di)) as [-> | Hne].
    - rewrite list_lookup_alter_eq, list_lookup_alter_eq, Hpd in Hx.
      injection Hx as <-. cbn. congruence.
    - rewrite list_lookup_alter_ne, list_lookup_alter_eq, Hpd in Hx by done.
      injection Hx as <-. exact Htarget. }
  unfold PuzzleBoard.exchange.
  rewrite (findIndex_fmap_ext PuzzleBoard.id dragged ps1 ps Hids), Hdi.
  destruct (findIndex _ ps1) as [ti' |] eqn:Hti'; [| reflexivity].
  destruct (ps1 !! di) as [pd1 |] eqn:Hpd1; [| reflexivity].
  destruct (ps1 !! ti') as [pt1 |] eqn:Hpt1; [| reflexivity].
  cbv zeta.
  destruct (findIndex_Some _ _ _ Hti') as (pt1' & Hpt1' & Htarget1).
  rewrite Hpt1 in Hpt1'. injection Hpt1' as <-.
  apply Nat.eqb_eq in Htarget1.
  rewrite (Hheld pd1 eq_refl), Htarget1.
  rewrite (alter_fixed _ di ps1).
  - apply alter_fixed. intros x Hx. rewrite Hpt1 in Hx. injection Hx as <-.
    by apply setCurrentPosition_same.
  - intros x Hx. rewrite Hpd1 in Hx. injection Hx as <-.
    apply setCurrentPosition_same. exact (Hheld pd1 eq_refl).
Qed.

(** A drop of the held piece, field by field. *)
Lemma handleDrop_fields (target : nat) (st : PuzzleBoard.State)
    (dragged : nat) :
  PuzzleBoard.draggedPiece st = Some dragged →
  let newPieces :=
    PuzzleBoard.exchange dragged target (PuzzleBoard.pieces st) in
  let fire :=
    forallb PuzzleBoard.isCorrect newPieces
    && negb (PuzzleBoard.gameCompleted st) in
  PuzzleBoard.handleDrop target st
  = {| PuzzleBoard.pieces := newPieces;
       PuzzleBoard.completedPieces :=
         foldl (λ completed piece,
                  if PuzzleBoard.isCorrect piece
                  then setAdd (PuzzleBoard.id piece) completed
                  else completed) [] newPieces;
       PuzzleBoard.draggedPiece := Some dragged;
       PuzzleBoard.gameCompleted :=
         if fire then true else PuzzleBoard.gameCompleted st;
       PuzzleBoard.onCompleteTimers :=
         (PuzzleBoard.onCompleteTimers st
          + if fire then (if PuzzleBoard.strictMode st then 2 else 1)
            else 0)%nat;
       PuzzleBoard.strictMode := PuzzleBoard.strictMode st |}.
Proof.
  intros Hdrag. cbv zeta.
  unfold PuzzleBoard.handleDrop, PuzzleBoard.dropUpdater,
    PuzzleBoard.checkCompletion.
  rewrite Hdrag. cbv zeta.
  cbn [PuzzleBoard.pieces PuzzleBoard.completedPieces
         PuzzleBoard.draggedPiece PuzzleBoard.gameCompleted
         PuzzleBoard.onCompleteTimers PuzzleBoard.strictMode].
  rewrite exchange_idem.
  destruct (PuzzleBoard.strictMode st),
    (forallb PuzzleBoard.isCorrect
       (PuzzleBoard.exchange dragged target (PuzzleBoard.pieces st))),
    (PuzzleBoard.gameCompleted st);
    cbn; f_equal; lia.
Qed.

Lemma handleDrop_pieces (target : nat) (st : PuzzleBoard.State) :
  PuzzleBoard.pieces (PuzzleBoard.handleDrop target st)
  = match PuzzleBoard.draggedPiece st with
    | None => PuzzleBoard.pieces st
    | Some dragged => PuzzleBoard.exchange dragged target (PuzzleBoard.pieces st)
    end.
Proof.
  destruct (PuzzleBoard.draggedPiece st) as [dragged |] eqn:Hdrag.
  - by rewrite (handleDrop_fields target st dragged Hdrag).
  - unfold PuzzleBoard.handleDrop. by rewrite Hdrag.
Qed.

(** A drop never loses or doubles anything: whatever the piece held and the
    cell it is dropped on, the pieces keep their order, ids, correct
    positions and pictures, and their current positions are a permutation
    of what they were. *)
Theorem handleDrop_permutes (target : nat) (st : PuzzleBoard.State) :
  let st' := PuzzleBoard.handleDrop target st in
  PuzzleBoard.id <$> PuzzleBoard.pieces st'
  = PuzzleBoard.id <$> PuzzleBoard.pieces st ∧
  PuzzleBoard.correctPosition <$> PuzzleBoard.pieces st'
  = PuzzleBoard.correctPosition <$> PuzzleBoard.pieces st ∧
  PuzzleBoard.imageUrl <$> PuzzleBoard.pieces st'
  = PuzzleBoard.imageUrl <$> PuzzleBoard.pieces st ∧
  PuzzleBoard.currentPosition <$> PuzzleBoard.pieces st'
  ≡ₚ PuzzleBoard.currentPosition <$> PuzzleBoard.pieces st.
Proof.
  cbv zeta. rewrite handleDrop_pieces.
  destruct (PuzzleBoard.draggedPiece st) as [dragged |]; [| done].
  split; [by apply exchange_keeps |].
  split; [by apply exchange_keeps |].
  split; [by apply exchange_keeps |].
  apply exchange_positions.
Qed.

Lemma findIndex_unique {A} (g : A → nat) (v : nat) (l : list A) (i : nat)
    (x : A) :
  NoDup (g <$> l) → l !! i = Some x → g x = v →
  findIndex (λ p, (g p =? v)%nat) l = Some i.
Proof.
  revert i. induction l as [| a l IH]; intros i Hnd Hi Hv; [done |].
  rewrite fmap_cons in Hnd. apply NoDup_cons in Hnd as [Hnotin Hnd].
  cbn [findIndex]. destruct (Nat.eqb_spec (g a) v) as [Heq | Hne].
  - destruct i as [| i]; [reflexivity |]. exfalso. apply Hnotin.
    rewrite Heq, <- Hv. apply list_elem_of_fmap. exists x. split; [done |].
    by apply list_elem_of_lookup_2 with i.
  - destruct i as [| i].
    + injection Hi as ->. contradiction.
    + rewrite (IH i Hnd Hi Hv). reflexivity.
Qed.

Lemma unique_by {A} (g : A → nat) (l : list A) (x y : A) :
  NoDup (g <$> l) → x ∈ l → y ∈ l → g x = g y → x = y.
Proof.
  intros Hnd Hx Hy Hg.
  apply list_elem_of_lookup_1 in Hx as [i Hi].
  apply list_elem_of_lookup_1 in Hy as [j Hj].
  assert (i = j) as ->.
  { apply (NoDup_lookup (g <$> l) i j (g x)); [done | |];
      rewrite list_lookup_fmap; [by rewrite Hi | by rewrite Hj, Hg]. }
  congruence.
Qed.

(** The exchange, piece by piece, where ids and positions are unique. *)
Lemma exchange_map (ps : list PuzzleBoard.PuzzlePieceData) (d t : nat)
    (pd pt : PuzzleBoard.PuzzlePieceData) :
  NoDup (PuzzleBoard.id <$> ps) →
  NoDup (PuzzleBoard.currentPosition <$> ps) →
  pd ∈ ps → PuzzleBoard.id pd = d →
  pt ∈ ps → PuzzleBoard.currentPosition pt = t →
  PuzzleBoard.exchange d t ps
  = (λ q, if (PuzzleBoard.id q =? d)%nat
          then PuzzleBoard.setCurrentPosition t q
          else if (PuzzleBoard.currentPosition q =? t)%nat
               then PuzzleBoard.setCurrentPosition
                      (PuzzleBoard.currentPosition pd) q
               else q) <$> ps.
Proof.
  intros Hids Hpos Hpd Hd Hpt Ht.
  pose proof Hpd as Hpd'. pose proof Hpt as Hpt'.
  apply list_elem_of_lookup_1 in Hpd' as [di Hdi].
  apply list_elem_of_lookup_1 in Hpt' as [ti Hti].
  unfold PuzzleBoard.exchange.
  rewrite (findIndex_unique PuzzleBoard.id d ps di pd Hids Hdi Hd).
  rewrite (findIndex_unique PuzzleBoard.currentPosition t ps ti pt
             Hpos Hti Ht).
  rewrite Hdi, Hti. cbv zeta.
  apply list_eq. intros k. rewrite list_lookup_fmap.
  destruct (decide (ti = k)) as [<- | Hkt].
  - rewrite list_lookup_alter_eq.
    destruct (decide (di = ti)) as [-> | Hdt].
    + rewrite list_lookup_alter_eq, Hti. cbn.
      assert (pd = pt) as -> by congruence.
      rewrite Hd, Nat.eqb_refl. by rewrite Ht.
    + rewrite list_lookup_alter_ne by done. rewrite Hti. cbn.
      destruct (Nat.eqb_spec (PuzzleBoard.id pt) d) as [Heq | _].
      * exfalso. apply Hdt.
        assert (pt = pd) as Hsame
          by (apply (unique_by PuzzleBoard.id ps); congruence).
        subst pt.
        apply (NoDup_lookup (PuzzleBoard.id <$> ps) di ti d); [done | |];
          rewrite list_lookup_fmap; [by rewrite Hdi, <- Hd | by rewrite Hti, <- Hd].
      * by rewrite Ht, Nat.eqb_refl.
  - rewrite list_lookup_alter_ne by done.
    destruct (decide (di = k)) as [<- | Hkd].
    + rewrite list_lookup_alter_eq, Hdi. cbn.
      by rewrite Hd, Nat.eqb_refl, Ht.
    + rewrite list_lookup_alter_ne by done.
      destruct (ps !! k) as [q |] eqn:Hk; [| reflexivity]. cbn.
      assert (q ∈ ps) as Hq by (by apply list_elem_of_lookup_2 with k).
      destruct (Nat.eqb_spec (PuzzleBoard.id q) d) as [Heq | _].
      { exfalso. apply Hkd.
        apply (NoDup_lookup (PuzzleBoard.id <$> ps) di k d); [done | |];
          rewrite list_lookup_fmap; [by rewrite Hdi, <- Hd | by rewrite Hk, <- Heq]. }
      destruct (Nat.eqb_spec (PuzzleBoard.currentPosition q) t) as [Heq | _];
        [| reflexivity].
      exfalso. apply Hkt.
      apply (NoDup_lookup (PuzzleBoard.currentPosition <$> ps) ti k t);
        [done | |];
        rewrite list_lookup_fmap; [by rewrite Hti, <- Ht | by rewrite Hk, <- Heq].
Qed.

Lemma exchange_same (ps : list PuzzleBoard.PuzzlePieceData) (d t : nat)
    (pd : PuzzleBoard.PuzzlePieceData) :
  NoDup (PuzzleBoard.id <$> ps) →
  NoDup (PuzzleBoard.currentPosition <$> ps) →
  pd ∈ ps → PuzzleBoard.id pd = d → PuzzleBoard.currentPosition pd = t →
  PuzzleBoard.exchange d t ps = ps.
Proof.
  intros Hids Hpos Hpd Hd Ht.
  rewrite (exchange_map ps d t pd pd Hids Hpos Hpd Hd Hpd Ht).
  apply list_eq. intros k. rewrite list_lookup_fmap.
  destruct (ps !! k) as [q |] eqn:Hk; [| reflexivity]. cbn. f_equal.
  assert (q ∈ ps) as Hq by (by apply list_elem_of_lookup_2 with k).
  destruct (Nat.eqb_spec (PuzzleBoard.id q) d) as [Heq | _].
  - assert (q = pd) as ->
      by (apply (unique_by PuzzleBoard.id ps); congruence).
    by apply setCurrentPosition_same.
  - destruct (Nat.eqb_spec (PuzzleBoard.currentPosition q) t) as [Heq | _];
      [| reflexivity].
    apply setCurrentPosition_same. congruence.
Qed.

Lemma exchange_NoDup (ps : list PuzzleBoard.PuzzlePieceData) (d t : nat) :
  NoDup (PuzzleBoard.id <$> ps) →
  NoDup (PuzzleBoard.currentPosition <$> ps) →
  NoDup (PuzzleBoard.id <$> PuzzleBoard.exchange d t ps) ∧
  NoDup (PuzzleBoard.currentPosition <$> PuzzleBoard.exchange d t ps).
Proof.
  intros Hids Hpos. split.
  - by rewrite exchange_keeps.
  - by rewrite exchange_positions.
Qed.

Lemma exchange_twice (ps : list PuzzleBoard.PuzzlePieceData) (d t : nat)
    (pd pt : PuzzleBoard.PuzzlePieceData) :
  NoDup (PuzzleBoard.id <$> ps) →
  NoDup (PuzzleBoard.currentPosition <$> ps) →
  pd ∈ ps → PuzzleBoard.id pd = d →
  pt ∈ ps → PuzzleBoard.currentPosition pt = t →
  PuzzleBoard.exchange d t (PuzzleBoard.exchange d t ps)
  = PuzzleBoard.exchange d t ps.
Proof.
  intros Hids Hpos Hpd Hd Hpt Ht.
  destruct (exchange_NoDup ps d t Hids Hpos) as [Hids1 Hpos1].
  apply (exchange_same _ d t (PuzzleBoard.setCurrentPosition t pd));
    [done | done | | done | done].
  rewrite (exchange_map ps d t pd pt Hids Hpos Hpd Hd Hpt Ht).
  apply list_elem_of_fmap. exists pd. split; [| done].
  by rewrite Hd, Nat.eqb_refl.
Qed.

Lemma exchange_back (ps : list PuzzleBoard.PuzzlePieceData) (d t : nat)
    (pd pt : PuzzleBoard.PuzzlePieceData) :
  NoDup (PuzzleBoard.id <$> ps) →
  NoDup (PuzzleBoard.currentPosition <$> ps) →
  pd ∈ ps → PuzzleBoard.id pd = d →
  pt ∈ ps → PuzzleBoard.currentPosition pt = t →
  PuzzleBoard.exchange d (PuzzleBoard.currentPosition pd)
    (PuzzleBoard.exchange d t ps)
  = ps.
Proof.
  intros Hids Hpos Hpd Hd Hpt Ht.
  destruct (exchange_NoDup ps d t Hids Hpos) as [Hids1 Hpos1].
  set (p := PuzzleBoard.currentPosition pd) in *.
  set (F := λ q, if (PuzzleBoard.id q =? d)%nat
                 then PuzzleBoard.setCurrentPosition t q
                 else if (PuzzleBoard.currentPosition q =? t)%nat
                      then PuzzleBoard.setCurrentPosition p q
                      else q).
  assert (PuzzleBoard.exchange d t ps = F <$> ps) as Hfirst
    by apply (exchange_map ps d t pd pt Hids Hpos Hpd Hd Hpt Ht).
  assert (F pd = PuzzleBoard.setCurrentPosition t pd) as HFpd
    by (unfold F; by rewrite Hd, Nat.eqb_refl).
  assert (PuzzleBoard.currentPosition (F pt) = p) as HFpt.
  { unfold F. destruct (Nat.eqb_spec (PuzzleBoard.id pt) d) as [Heq | _].
    - assert (pt = pd) as ->
        by (apply (unique_by PuzzleBoard.id ps); congruence).
      cbn. symmetry. exact Ht.
    - by rewrite Ht, Nat.eqb_refl. }
  rewrite (exchange_map _ d p (PuzzleBoard.setCurrentPosition t pd) (F pt)
             Hids1 Hpos1).
  - rewrite Hfirst. apply list_eq. intros k. rewrite !list_lookup_fmap.
    destruct (ps !! k) as [q |] eqn:Hk; [| reflexivity]. cbn. f_equal.
    assert (q ∈ ps) as Hq by (by apply list_elem_of_lookup_2 with k).
    unfold F.
    destruct (Nat.eqb_spec (PuzzleBoard.id q) d) as [Heq | Hne].
    + assert (q = pd) as ->
        by (apply (unique_by PuzzleBoard.id ps); congruence).
      cbn. rewrite Hd, Nat.eqb_refl.
      change (PuzzleBoard.setCurrentPosition p pd = pd).
      by apply setCurrentPosition_same.
    + destruct (Nat.eqb_spec (PuzzleBoard.currentPosition q) t)
        as [Heq | Hne'].
      * cbn. destruct (Nat.eqb_spec (PuzzleBoard.id q) d); [done |].
        rewrite Nat.eqb_refl.
        change (PuzzleBoard.setCurrentPosition t q = q).
        by apply setCurrentPosition_same.
      * destruct (Nat.eqb_spec (PuzzleBoard.id q) d); [done |].
        destruct (Nat.eqb_spec (PuzzleBoard.currentPosition q) p)
          as [Heq | _]; [| reflexivity].
        exfalso. apply Hne. rewrite <- Hd. f_equal.
        apply (unique_by PuzzleBoard.currentPosition ps); done.
  - rewrite Hfirst, <- HFpd. apply list_elem_of_fmap. by exists pd.
  - exact Hd.
  - rewrite Hfirst. apply list_elem_of_fmap. by exists pt.
  - exact HFpt.
Qed.

(** Where every piece has its own id and its own cell, dropping the held
    piece [d] on the cell [t] puts it there and puts the piece that was in
    [t] where [d] came from; no other piece changes.  A second drop on the
    same cell changes nothing more. *)
Theorem handleDrop_exchanges (st : PuzzleBoard.State) (d t : nat)
    (pd pt : PuzzleBoard.PuzzlePieceData) :
  PuzzleBoard.draggedPiece st = Some d →
  NoDup (PuzzleBoard.id <$> PuzzleBoard.pieces st) →
  NoDup (PuzzleBoard.currentPosition <$> PuzzleBoard.pieces st) →
  pd ∈ PuzzleBoard.pieces st → PuzzleBoard.id pd = d →
  pt ∈ PuzzleBoard.pieces st → PuzzleBoard.currentPosition pt = t →
  let st' := PuzzleBoard.handleDrop t st in
  PuzzleBoard.pieces st'
  = (λ q, if (PuzzleBoard.id q =? d)%nat
          then PuzzleBoard.setCurrentPosition t q
          else if (PuzzleBoard.currentPosition q =? t)%nat
               then PuzzleBoard.setCurrentPosition
                      (PuzzleBoard.currentPosition pd) q
               else q) <$> PuzzleBoard.pieces st ∧
  PuzzleBoard.pieces (PuzzleBoard.handleDrop t st') = PuzzleBoard.pieces st'.
Proof.
  intros Hdrag Hids Hpos Hpd Hd Hpt Ht. cbv zeta.
  assert (PuzzleBoard.draggedPiece (PuzzleBoard.handleDrop t st) = Some d)
    as Hdrag' by (by rewrite (handleDrop_fields t st d Hdrag)).
  rewrite (handleDrop_pieces t (PuzzleBoard.handleDrop t st)), Hdrag'.
  rewrite handleDrop_pieces, Hdrag.
  split.
  - by apply (exchange_map _ d t pd pt).
  - by apply exchange_twice with pd pt.
Qed.

Lemma handleDrop_exchanges_witness :
  PuzzleBoard.currentPosition
    <$> PuzzleBoard.pieces (PuzzleBoard.handleDrop 1 swappedCorners)
  = [1; 3; 2; 0]%nat.
Proof.
  assert (NoDup (PuzzleBoard.id <$> PuzzleBoard.pieces swappedCorners))
    as Hids by (apply (bool_decide_eq_true_1 _); by vm_compute).
  assert (NoDup (PuzzleBoard.currentPosition
                   <$> PuzzleBoard.pieces swappedCorners))
    as Hpos by (apply (bool_decide_eq_true_1 _); by vm_compute).
  destruct (handleDrop_exchanges swappedCorners 0 1
              {| PuzzleBoard.id := 0; PuzzleBoard.correctPosition := 0;
                 PuzzleBoard.currentPosition := 3;
                 PuzzleBoard.imageUrl := "photo" |}
              {| PuzzleBoard.id := 1; PuzzleBoard.correctPosition := 1;
                 PuzzleBoard.currentPosition := 1;
                 PuzzleBoard.imageUrl := "photo" |}
              eq_refl Hids Hpos) as [Hfirst _].
  - by apply (list_elem_of_lookup_2 _ 0%nat).
  - reflexivity.
  - by apply (list_elem_of_lookup_2 _ 1%nat).
  - reflexivity.
  - rewrite Hfirst. reflexivity.
Defined.

(** Where every piece has its own id and its own cell: after the held
    piece was dropped on another cell, picking it up again and dropping
    it on the cell it came from restores the board. *)
Theorem handleDrop_back (st : PuzzleBoard.State) (d t : nat)
    (pd pt : PuzzleBoard.PuzzlePieceData) :
  PuzzleBoard.draggedPiece st = Some d →
  NoDup (PuzzleBoard.id <$> PuzzleBoard.pieces st) →
  NoDup (PuzzleBoard.currentPosition <$> PuzzleBoard.pieces st) →
  pd ∈ PuzzleBoard.pieces st → PuzzleBoard.id pd = d →
  pt ∈ PuzzleBoard.pieces st → PuzzleBoard.currentPosition pt = t →
  PuzzleBoard.pieces
    (PuzzleBoard.play
       [ PuzzleBoard.Drop t; PuzzleBoard.DragEnd; PuzzleBoard.DragStart d;
         PuzzleBoard.Drop (PuzzleBoard.currentPosition pd) ] st)
  = PuzzleBoard.pieces st.
Proof.
  intros Hdrag Hids Hpos Hpd Hd Hpt Ht.
  cbn [PuzzleBoard.play foldl PuzzleBoard.handle].
  rewrite handleDrop_pieces.
  cbn [PuzzleBoard.handleDragStart PuzzleBoard.handleDragEnd
         PuzzleBoard.draggedPiece PuzzleBoard.pieces].
  rewrite handleDrop_pieces, Hdrag.
  by apply exchange_back with pt.
Qed.

Lemma handleDrop_back_witness :
  PuzzleBoard.pieces
    (PuzzleBoard.play
       [ PuzzleBoard.Drop 1; PuzzleBoard.DragEnd; PuzzleBoard.DragStart 0;
         PuzzleBoard.Drop 3 ] swappedCorners)
  = PuzzleBoard.pieces swappedCorners.
Proof.
  assert (NoDup (PuzzleBoard.id <$> PuzzleBoard.pieces swappedCorners))
    as Hids by (apply (bool_decide_eq_true_1 _); by vm_compute).
  assert (NoDup (PuzzleBoard.currentPosition
                   <$> PuzzleBoard.pieces swappedCorners))
    as Hpos by (apply (bool_decide_eq_true_1 _); by vm_compute).
  apply (handleDrop_back swappedCorners 0 1
           {| PuzzleBoard.id := 0; PuzzleBoard.correctPosition := 0;
              PuzzleBoard.currentPosition := 3;
              PuzzleBoard.imageUrl := "photo" |}
           {| PuzzleBoard.id := 1; PuzzleBoard.correctPosition := 1;
              PuzzleBoard.currentPosition := 1;
              PuzzleBoard.imageUrl := "photo" |}
           eq_refl Hids Hpos).
  - by apply (list_elem_of_lookup_2 _ 0%nat).
  - reflexivity.
  - by apply (list_elem_of_lookup_2 _ 1%nat).
  - reflexivity.
Defined.

Lemma handle_pieces (e : PuzzleBoard.Event) (st : PuzzleBoard.State) :
  PuzzleBoard.id <$> PuzzleBoard.pieces (PuzzleBoard.handle e st)
  = PuzzleBoard.id <$> PuzzleBoard.pieces st ∧
  PuzzleBoard.currentPosition <$> PuzzleBoard.pieces (PuzzleBoard.handle e st)
  ≡ₚ PuzzleBoard.currentPosition <$> PuzzleBoard.pieces st.
Proof.
  destruct e as [pieceId | | position]; cbn [PuzzleBoard.handle];
    [done | done |].
  rewrite handleDrop_pieces.
  destruct (PuzzleBoard.draggedPiece st) as [dragged |]; [| done].
  split; [by apply exchange_keeps | apply exchange_positions].
Qed.

Lemma play_pieces (events : list PuzzleBoard.Event) (st : PuzzleBoard.State) :
  PuzzleBoard.id <$> PuzzleBoard.pieces (PuzzleBoard.play events st)
  = PuzzleBoard.id <$> PuzzleBoard.pieces st ∧
  PuzzleBoard.currentPosition
    <$> PuzzleBoard.pieces (PuzzleBoard.play events st)
  ≡ₚ PuzzleBoard.currentPosition <$> PuzzleBoard.pieces st.
Proof.
  revert st. induction events as [| e events IH]; intros st; [done |].
  cbn [PuzzleBoard.play foldl].
  destruct (IH (PuzzleBoard.handle e st)) as [Hids Hpos].
  destruct (handle_pieces e st) as [Hids' Hpos'].
  unfold PuzzleBoard.play in Hids, Hpos.
  split; [by rewrite Hids | by rewrite Hpos].
Qed.

Lemma pieceAt_shown (st : PuzzleBoard.State) (q : PuzzleBoard.PuzzlePieceData) :
  NoDup (PuzzleBoard.currentPosition <$> PuzzleBoard.pieces st) →
  q ∈ PuzzleBoard.pieces st →
  PuzzleBoard.pieceAt (PuzzleBoard.currentPosition q) st = Some q.
Proof.
  intros Hpos Hq. unfold PuzzleBoard.pieceAt.
  destruct (find _ (PuzzleBoard.pieces st)) as [p |] eqn:Hfind.
  - apply find_some in Hfind as [Hin Heq].
    apply Nat.eqb_eq in Heq. f_equal.
    apply (unique_by PuzzleBoard.currentPosition (PuzzleBoard.pieces st));
      [done | by apply list_elem_of_In | done | done].
  - apply list_elem_of_In in Hq.
    pose proof (find_none _ _ Hfind q Hq) as Hno. cbn in Hno.
    by rewrite Nat.eqb_refl in Hno.
Qed.

(** Every cell of the board always shows exactly one piece: in a new
    puzzle and after any sequence of drags and drops there are
    size * size pieces, each cell below size * size shows the piece that is
    there, and each piece is the one shown in its cell. *)
Theorem board_stays_full (image : string) (size : nat) (random : nat → Q)
    (st st0 : PuzzleBoard.State) (events : list PuzzleBoard.Event) :
  (∀ k, 0 <= random k ∧ random k < 1) →
  PuzzleBoard.initializePuzzle image size random st = Some st0 →
  let st' := PuzzleBoard.play events st0 in
  length (PuzzleBoard.pieces st') = (size * size)%nat ∧
  (∀ position, (position < size * size)%nat →
     ∃ p, PuzzleBoard.pieceAt position st' = Some p ∧
          PuzzleBoard.currentPosition p = position) ∧
  (∀ q, q ∈ PuzzleBoard.pieces st' →
     PuzzleBoard.pieceAt (PuzzleBoard.currentPosition q) st' = Some q ∧
     (PuzzleBoard.currentPosition q < size * size)%nat).
Proof.
  intros Hrandom Hinit st'.
  destruct (initializePuzzle_fields image size random st Hrandom)
    as (st1 & Hst1 & Hids0 & _ & Hpos0 & _).
  rewrite Hinit in Hst1. injection Hst1 as <-.
  destruct (play_pieces events st0) as [Hids Hpos]. fold st' in Hids, Hpos.
  rewrite Hids0 in Hids. rewrite Hpos0 in Hpos.
  assert (NoDup (PuzzleBoard.currentPosition <$> PuzzleBoard.pieces st'))
    as Hnd by (rewrite Hpos; apply NoDup_seq).
  split; [| split].
  - rewrite <- (length_fmap PuzzleBoard.id), Hids. apply length_seq.
  - intros position Hlt.
    assert (position ∈ PuzzleBoard.currentPosition <$> PuzzleBoard.pieces st')
      as Hin by (rewrite Hpos; apply elem_of_seq; lia).
    apply list_elem_of_fmap in Hin as (p & -> & Hp).
    exists p. split; [by apply pieceAt_shown | reflexivity].
  - intros q Hq. split; [by apply pieceAt_shown |].
    assert (PuzzleBoard.currentPosition q
            ∈ PuzzleBoard.currentPosition <$> PuzzleBoard.pieces st')
      as Hin by (apply list_elem_of_fmap; by exists q).
    rewrite Hpos in Hin. apply elem_of_seq in Hin. lia.
Qed.

Lemma board_stays_full_witness :
  ∃ st0,
    PuzzleBoard.initializePuzzle "photo" 2 (λ _, 1 # 2)
      PuzzleBoard.initialState = Some st0 ∧
    length (PuzzleBoard.pieces
              (PuzzleBoard.play
                 [PuzzleBoard.DragStart 0; PuzzleBoard.Drop 1] st0))
    = 4%nat.
Proof.
  eexists. split; [vm_compute; reflexivity |].
  refine (proj1 (board_stays_full "photo" 2 (λ _, 1 # 2)
                   PuzzleBoard.initialState _
                   [PuzzleBoard.DragStart 0; PuzzleBoard.Drop 1] _ _)).
  - intros _. split; [discriminate | reflexivity].
  - vm_compute. reflexivity.
Defined.

Lemma handle_completion (e : PuzzleBoard.Event) (st : PuzzleBoard.State) :
  PuzzleBoard.strictMode (PuzzleBoard.handle e st) = PuzzleBoard.strictMode st ∧
  (PuzzleBoard.gameCompleted st = true →
   PuzzleBoard.gameCompleted (PuzzleBoard.handle e st) = true ∧
   PuzzleBoard.onCompleteTimers (PuzzleBoard.handle e st)
   = PuzzleBoard.onCompleteTimers st) ∧
  (PuzzleBoard.gameCompleted st = false →
   PuzzleBoard.onCompleteTimers (PuzzleBoard.handle e st)
   = (PuzzleBoard.onCompleteTimers st
      + if PuzzleBoard.gameCompleted (PuzzleBoard.handle e st)
        then (if PuzzleBoard.strictMode st then 2 else 1) else 0)%nat).
Proof.
  destruct e as [pieceId | | position]; cbn [PuzzleBoard.handle].
  - split; [done |]. split; intros H; cbn; rewrite ?H; [done | lia].
  - split; [done |]. split; intros H; cbn; rewrite ?H; [done | lia].
  - destruct (PuzzleBoard.draggedPiece st) as [dragged |] eqn:Hdrag.
    + rewrite (handleDrop_fields position st dragged Hdrag).
      cbn [PuzzleBoard.gameCompleted PuzzleBoard.onCompleteTimers
             PuzzleBoard.strictMode].
      split; [done |].
      destruct (forallb PuzzleBoard.isCorrect _); split; intros H;
        rewrite H; cbn; first [done | lia].
    + unfold PuzzleBoard.handleDrop. rewrite Hdrag.
      split; [done |]. split; intros H; rewrite ?H; [done | lia].
Qed.

(** The completion of a game is reported by one drop only: over any
    sequence of drags and drops, [onComplete] is scheduled in the drop in
    which [gameCompleted] becomes set and never again, and [gameCompleted]
    stays set from then on, whatever is moved afterwards.  That one drop
    schedules one call, and two calls when React runs in StrictMode, where
    the updater that calls [checkCompletion] runs twice with the same
    [gameCompleted]. *)
Theorem play_completes_in_one_drop (events : list PuzzleBoard.Event)
    (st : PuzzleBoard.State) :
  let st' := PuzzleBoard.play events st in
  let calls := if PuzzleBoard.strictMode st then 2%nat else 1%nat in
  PuzzleBoard.strictMode st' = PuzzleBoard.strictMode st ∧
  (PuzzleBoard.gameCompleted st = true →
   PuzzleBoard.gameCompleted st' = true ∧
   PuzzleBoard.onCompleteTimers st' = PuzzleBoard.onCompleteTimers st) ∧
  (PuzzleBoard.gameCompleted st = false →
   PuzzleBoard.onCompleteTimers st'
   = (PuzzleBoard.onCompleteTimers st
      + if PuzzleBoard.gameCompleted st' then calls else 0)%nat).
Proof.
  cbv zeta. revert st.
  induction events as [| e events IH]; intros st.
  - cbn. split; [done |]. split; intros H; rewrite ?H; [done | lia].
  - cbn [PuzzleBoard.play foldl].
    destruct (IH (PuzzleBoard.handle e st)) as (IHs & IHt & IHf).
    destruct (handle_completion e st) as (Hs & Ht & Hf).
    unfold PuzzleBoard.play in IHs, IHt, IHf.
    split; [congruence |].
    split; intros H.
    + destruct (Ht H) as [H1 H2]. destruct (IHt H1) as [H3 H4].
      split; [exact H3 | congruence].
    + specialize (Hf H).
      destruct (PuzzleBoard.gameCompleted (PuzzleBoard.handle e st)) eqn:E.
      * destruct (IHt eq_refl) as [H3 H4]. rewrite H3, H4, Hf. reflexivity.
      * rewrite (IHf eq_refl), Hf, Hs. lia.
Qed.

(** On the board of the swapped corners the first drop completes the
    game: it schedules [onComplete] once, and twice in StrictMode; the two
    drops that follow schedule nothing. *)
Lemma play_completes_in_one_drop_witness :
  let events :=
    [ PuzzleBoard.Drop 0; PuzzleBoard.Drop 1; PuzzleBoard.Drop 0 ] in
  PuzzleBoard.onCompleteTimers (PuzzleBoard.play events swappedCorners)
  = 1%nat ∧
  PuzzleBoard.onCompleteTimers (PuzzleBoard.play events swappedCornersStrict)
  = 2%nat.
Proof.
  intros events. split.
  - exact (proj2 (proj2 (play_completes_in_one_drop events swappedCorners))
             eq_refl).
  - exact (proj2 (proj2 (play_completes_in_one_drop events
                           swappedCornersStrict)) eq_refl).
Defined.

Lemma setAdd_elem (x y : nat) (s : list nat) :
  y ∈ setAdd x s ↔ y = x ∨ y ∈ s.
Proof.
  unfold setAdd. case_bool_decide as Hin.
  - split; [by right | intros [-> | H]; done].
  - rewrite elem_of_app, list_elem_of_singleton. tauto.
Qed.

Lemma setAdd_NoDup (x : nat) (s : list nat) : NoDup s → NoDup (setAdd x s).
Proof.
  intros Hs. unfold setAdd. case_bool_decide as Hin; [done |].
  apply NoDup_app. split; [done |]. split; [| apply NoDup_singleton].
  intros y Hy Hy'. apply list_elem_of_singleton in Hy'. by subst y.
Qed.

Lemma setAdd_length (x : nat) (s : list nat) :
  (length (setAdd x s) <= S (length s))%nat.
Proof.
  unfold setAdd. case_bool_decide; [lia |]. rewrite length_app. cbn. lia.
Qed.

Lemma completed_fold (ps : list PuzzleBoard.PuzzlePieceData) (acc : list nat) :
  NoDup acc →
  let completed :=
    foldl (λ completed piece,
             if PuzzleBoard.isCorrect piece
             then setAdd (PuzzleBoard.id piece) completed
             else completed) acc ps in
  NoDup completed ∧
  (length completed <= length acc + length ps)%nat ∧
  ∀ x, x ∈ completed ↔
       x ∈ acc ∨
       ∃ p, p ∈ ps ∧ PuzzleBoard.id p = x ∧ PuzzleBoard.isCorrect p = true.
Proof.
  cbv zeta. revert acc.
  induction ps as [| a ps IH]; intros acc Hacc.
  - cbn. split; [done |]. split; [lia |].
    intros x. split; [by left |].
    intros [H | (p & Hp & _)]; [done | by apply elem_of_nil in Hp].
  - cbn [foldl]. destruct (PuzzleBoard.isCorrect a) eqn:Ha.
    + destruct (IH (setAdd (PuzzleBoard.id a) acc)
                  (setAdd_NoDup _ _ Hacc)) as (Hnd & Hlen & Hmem).
      split; [done |]. split.
      { pose proof (setAdd_length (PuzzleBoard.id a) acc). cbn. lia. }
      intros x. rewrite Hmem, setAdd_elem. split.
      * intros [[-> | H] | (p & Hp & Hid & Hc)].
        -- right. exists a. split; [apply list_elem_of_here | done].
        -- by left.
        -- right. exists p. split; [by apply list_elem_of_further | done].
      * intros [H | (p & Hp & Hid & Hc)]; [left; by right |].
        apply elem_of_cons in Hp as [-> | Hp].
        -- left. left. done.
        -- right. by exists p.
    + destruct (IH acc Hacc) as (Hnd & Hlen & Hmem).
      split; [done |]. split; [cbn; lia |].
      intros x. rewrite Hmem. split.
      * intros [H | (p & Hp & Hid & Hc)]; [by left |].
        right. exists p. split; [by apply list_elem_of_further | done].
      * intros [H | (p & Hp & Hid & Hc)]; [by left |].
        apply elem_of_cons in Hp as [-> | Hp]; [congruence |].
        right. by exists p.
Qed.

(** After a drop of a held piece, the completed pieces are exactly the ids
    of the pieces that stand in their correct position, each listed once,
    and the game is completed if it was before or if every piece now
    stands in its correct position. *)
Theorem handleDrop_completion (st : PuzzleBoard.State) (d t : nat) :
  PuzzleBoard.draggedPiece st = Some d →
  let st' := PuzzleBoard.handleDrop t st in
  NoDup (PuzzleBoard.completedPieces st') ∧
  (∀ x, x ∈ PuzzleBoard.completedPieces st' ↔
        ∃ p, p ∈ PuzzleBoard.pieces st' ∧ PuzzleBoard.id p = x ∧
             PuzzleBoard.correctPosition p = PuzzleBoard.currentPosition p) ∧
  PuzzleBoard.gameCompleted st'
  = PuzzleBoard.gameCompleted st
    || forallb PuzzleBoard.isCorrect (PuzzleBoard.pieces st').
Proof.
  intros Hdrag st'. subst st'.
  rewrite (handleDrop_fields t st d Hdrag).
  cbn [PuzzleBoard.pieces PuzzleBoard.completedPieces
         PuzzleBoard.gameCompleted].
  destruct (completed_fold (PuzzleBoard.exchange d t (PuzzleBoard.pieces st))
              [] (NoDup_nil_2)) as (Hnd & _ & Hmem).
  split; [exact Hnd |]. split.
  - intros x. rewrite Hmem. split.
    + intros [H | (p & Hp & Hid & Hc)]; [by apply elem_of_nil in H |].
      exists p. split; [done |]. split; [done |]. by apply Nat.eqb_eq.
    + intros (p & Hp & Hid & Hc). right. exists p.
      split; [done |]. split; [done |]. by apply Nat.eqb_eq.
  - destruct (forallb _ _), (PuzzleBoard.gameCompleted st); reflexivity.
Qed.

Lemma handleDrop_completion_witness :
  let st' := PuzzleBoard.handleDrop 0 swappedCorners in
  NoDup (PuzzleBoard.completedPieces st') ∧
  PuzzleBoard.gameCompleted st' = true.
Proof.
  destruct (handleDrop_completion swappedCorners 0 0 eq_refl)
    as (Hnd & _ & Hdone).
  split; [exact Hnd | exact Hdone].
Defined.

Lemma handle_completed_le (e : PuzzleBoard.Event) (st : PuzzleBoard.State) :
  (length (PuzzleBoard.completedPieces st)
   <= length (PuzzleBoard.pieces st))%nat →
  (length (PuzzleBoard.completedPieces (PuzzleBoard.handle e st))
   <= length (PuzzleBoard.pieces (PuzzleBoard.handle e st)))%nat.
Proof.
  intros Hle. destruct e as [pieceId | | position]; cbn [PuzzleBoard.handle];
    [exact Hle | exact Hle |].
  destruct (PuzzleBoard.draggedPiece st) as [dragged |] eqn:Hdrag;
    [| unfold PuzzleBoard.handleDrop; rewrite Hdrag; exact Hle].
  rewrite (handleDrop_fields position st dragged Hdrag).
  cbn [PuzzleBoard.pieces PuzzleBoard.completedPieces].
  destruct (completed_fold
              (PuzzleBoard.exchange dragged position (PuzzleBoard.pieces st))
              [] (NoDup_nil_2)) as (_ & Hlen & _).
  exact Hlen.
Qed.

Lemma play_completed_le (events : list PuzzleBoard.Event)
    (st : PuzzleBoard.State) :
  (length (PuzzleBoard.completedPieces st)
   <= length (PuzzleBoard.pieces st))%nat →
  (length (PuzzleBoard.completedPieces (PuzzleBoard.play events st))
   <= length (PuzzleBoard.pieces (PuzzleBoard.play events st)))%nat.
Proof.
  revert st. induction events as [| e events IH]; intros st Hle; [exact Hle |].
  cbn [PuzzleBoard.play foldl]. apply IH. by apply handle_completed_le.
Qed.

Lemma percentage (c n : nat) :
  (c <= n)%nat → (0 < n)%nat →
  ∃ k : Z,
    Math_round (jsmul (jsdiv (ofNat c) (ofNat n)) (Num 100))
    = Num (inject_Z k) ∧
    (0 <= k <= 100)%Z ∧ (c = n → k = 100%Z).
Proof.
  intros Hle Hpos. unfold ofNat.
  assert (inject_Z 0 < inject_Z (Z.of_nat n)) as Hn
    by (rewrite <- Zlt_Qlt; lia).
  assert (inject_Z 0 <= inject_Z (Z.of_nat c)) as Hc0
    by (rewrite <- Zle_Qle; lia).
  assert (inject_Z (Z.of_nat c) <= inject_Z (Z.of_nat n)) as Hcn
    by (rewrite <- Zle_Qle; lia).
  change (inject_Z 0) with 0 in Hn, Hc0.
  unfold jsdiv. rewrite (Qeq_bool_pos _ Hn). unfold jsmul, Math_round.
  set (C := inject_Z (Z.of_nat c)) in *.
  set (N := inject_Z (Z.of_nat n)) in *.
  assert (0 <= C / N) as Hq0.
  { apply Qle_shift_div_l; [exact Hn |]. lra. }
  assert (C / N <= 1) as Hq1.
  { apply Qle_shift_div_r; [exact Hn |]. lra. }
  eexists. split; [reflexivity |]. split; [split |].
  - rewrite <- (Qfloor_Z 0). apply Qfloor_resp_le.
    change (inject_Z 0) with 0. set (q := C / N) in *. lra.
  - apply Z.le_trans with (Qfloor (100 + (1 # 2))); [| by vm_compute].
    apply Qfloor_resp_le. set (q := C / N) in *. lra.
  - intros Heq. transitivity (Qfloor (100 + (1 # 2))); [| reflexivity].
    apply Qfloor_comp.
    assert (C / N == 1) as ->; [| reflexivity].
    unfold C, N. rewrite Heq. field. fold N. lra.
Qed.

(** The progress shown is a whole percentage between 0 and 100, and 100
    when as many pieces are completed as there are pieces; with no piece
    on the board (the first render, or size 0) it is NaN.  This holds
    after any sequence of drags and drops from a state that lists no more
    completed pieces than it has pieces. *)
Theorem progress_percentage (events : list PuzzleBoard.Event)
    (st : PuzzleBoard.State) :
  (length (PuzzleBoard.completedPieces st)
   <= length (PuzzleBoard.pieces st))%nat →
  let st' := PuzzleBoard.play events st in
  (PuzzleBoard.pieces st' = [] → PuzzleBoard.progress st' = NaN) ∧
  (PuzzleBoard.pieces st' ≠ [] →
   ∃ k : Z,
     PuzzleBoard.progress st' = Num (inject_Z k) ∧ (0 <= k <= 100)%Z ∧
     (length (PuzzleBoard.completedPieces st')
      = length (PuzzleBoard.pieces st') → k = 100%Z)).
Proof.
  intros Hle st'.
  pose proof (play_completed_le events st Hle) as Hle'. fold st' in Hle'.
  unfold PuzzleBoard.progress. split.
  - intros Hnil. rewrite Hnil in Hle' |- *. cbn [length] in Hle' |- *.
    replace (length (PuzzleBoard.completedPieces st')) with 0%nat by lia.
    reflexivity.
  - intros Hne. apply percentage; [exact Hle' |].
    destruct (PuzzleBoard.pieces st'); [done | cbn; lia].
Qed.

Lemma progress_percentage_witness :
  PuzzleBoard.progress (PuzzleBoard.play [PuzzleBoard.Drop 0] swappedCorners)
  = Num (inject_Z 100).
Proof.
  assert (length (PuzzleBoard.completedPieces swappedCorners)
          <= length (PuzzleBoard.pieces swappedCorners))%nat as Hle
    by (cbn; lia).
  destruct (progress_percentage [PuzzleBoard.Drop 0] swappedCorners Hle)
    as [_ Hsome].
  destruct Hsome as (k & Hk & _ & Hfull); [discriminate |].
  rewrite Hk, (Hfull eq_refl). reflexivity.
Defined.

Lemma quotient_of_naturals (n s : Z) :
  (0 <= n)%Z → (0 < s)%Z →
  0 <= inject_Z n / inject_Z s ∧
  Qfloor (inject_Z n / inject_Z s) = (n / s)%Z ∧
  inject_Z n - inject_Z s * inject_Z (n / s) == inject_Z (n mod s).
Proof.
  intros Hn Hs.
  assert (inject_Z 0 < inject_Z s) as HsQ by (by rewrite <- Zlt_Qlt).
  assert (inject_Z 0 <= inject_Z n) as HnQ by (by rewrite <- Zle_Qle).
  change (inject_Z 0) with 0 in HsQ, HnQ.
  split; [| split].
  - apply Qle_shift_div_l; [exact HsQ |]. lra.
  - symmetry. apply Zdiv_Qdiv.
  - rewrite (Z.mod_eq n s) by lia. unfold Z.sub.
    rewrite inject_Z_plus, inject_Z_opp, inject_Z_mult. ring.
Qed.

Lemma percent_bounds (k s : Z) (q : Q) :
  (0 <= k <= s - 1)%Z → (2 <= s)%Z → q == inject_Z k →
  Qeq_bool (inject_Z s + - (1)) 0 = false ∧
  0 <= q / (inject_Z s + - (1)) * 100 ∧
  q / (inject_Z s + - (1)) * 100 <= 100.
Proof.
  intros Hk Hs Hq.
  assert (inject_Z 2 <= inject_Z s) as HsQ by (by rewrite <- Zle_Qle).
  assert (inject_Z 0 <= inject_Z k) as Hk0 by (rewrite <- Zle_Qle; lia).
  assert (inject_Z k <= inject_Z (s - 1)) as Hk1 by (rewrite <- Zle_Qle; lia).
  unfold Z.sub in Hk1. rewrite inject_Z_plus, inject_Z_opp in Hk1.
  change (inject_Z 2) with 2 in HsQ. change (inject_Z 0) with 0 in Hk0.
  change (inject_Z 1) with 1 in Hk1.
  assert (0 < inject_Z s + - (1)) as Hpos by lra.
  split; [by apply Qeq_bool_pos |].
  assert (0 <= q / (inject_Z s + - (1))) as H0.
  { apply Qle_shift_div_l; [exact Hpos |]. lra. }
  assert (q / (inject_Z s + - (1)) <= 1) as H1.
  { apply Qle_shift_div_r; [exact Hpos |]. lra. }
  set (r := q / (inject_Z s + - (1))) in *. split; lra.
Qed.

(** On a board of size 2 or more, the background position of a piece is a
    pair of finite percentages between 0 and 100: horizontally the column
    [pieceId mod size], vertically the row [pieceId / size], each divided
    by [size - 1] and multiplied by 100. *)
Theorem getBackgroundPosition_range (size pieceId : nat) :
  (2 <= size)%nat → (pieceId < size * size)%nat →
  ∃ percentX percentY : Q,
    PuzzleBoard.getBackgroundPosition size pieceId
    = (Num percentX, Num percentY) ∧
    percentX == inject_Z (Z.of_nat (pieceId mod size))
                / inject_Z (Z.of_nat (size - 1)) * 100 ∧
    percentY == inject_Z (Z.of_nat (pieceId / size))
                / inject_Z (Z.of_nat (size - 1)) * 100 ∧
    0 <= percentX ∧ percentX <= 100 ∧ 0 <= percentY ∧ percentY <= 100.
Proof.
  intros Hsize Hid.
  assert (0 <= Z.of_nat pieceId)%Z as Hn by lia.
  assert (0 < Z.of_nat size)%Z as Hs by lia.
  destruct (quotient_of_naturals _ _ Hn Hs) as (Hq0 & Hfloor & Hmod).
  assert (inject_Z 0 < inject_Z (Z.of_nat size)) as HsQ
    by (by rewrite <- Zlt_Qlt).
  change (inject_Z 0) with 0 in HsQ.
  assert (0 <= Z.of_nat pieceId mod Z.of_nat size <= Z.of_nat size - 1)%Z
    as Hcol by (pose proof (Z.mod_pos_bound (Z.of_nat pieceId)
                              (Z.of_nat size) Hs); lia).
  assert (0 <= Z.of_nat pieceId / Z.of_nat size <= Z.of_nat size - 1)%Z
    as Hrow.
  { split; [apply Z.div_pos; lia |].
    assert (Z.of_nat pieceId / Z.of_nat size < Z.of_nat size)%Z; [| lia].
    apply Z.div_lt_upper_bound; nia. }
  assert (2 <= Z.of_nat size)%Z as Hs2 by lia.
  destruct (percent_bounds _ _ _ Hcol Hs2 Hmod) as (Hnz & Hx0 & Hx1).
  destruct (percent_bounds _ _ (inject_Z (Z.of_nat pieceId / Z.of_nat size))
              Hrow Hs2 (Qeq_refl _)) as (_ & Hy0 & Hy1).
  assert (inject_Z (Z.of_nat (size - 1)) == inject_Z (Z.of_nat size) + - (1))
    as Hpred.
  { rewrite Nat2Z.inj_sub by lia. unfold Z.sub.
    rewrite inject_Z_plus, inject_Z_opp. reflexivity. }
  unfold PuzzleBoard.getBackgroundPosition, ofNat. cbv zeta.
  unfold jsmod, jsdiv at 3. rewrite (Qeq_bool_pos _ HsQ).
  unfold Math_floor, Qtruncate.
  apply Qle_bool_iff in Hq0. rewrite Hq0, Hfloor.
  unfold jssub, jsneg, jsadd, jsdiv. rewrite Hnz. unfold jsmul.
  eexists _, _. split; [reflexivity |].
  split; [| split; [| by repeat split]].
  - rewrite Nat2Z.inj_mod, Hpred, Hmod. reflexivity.
  - rewrite Nat2Z.inj_div, Hpred. reflexivity.
Qed.

Lemma getBackgroundPosition_range_witness :
  ∃ percentX percentY : Q,
    PuzzleBoard.getBackgroundPosition 3 5 = (Num percentX, Num percentY) ∧
    percentX == 100 ∧ percentY == 50.
Proof.
  assert (2 <= 3)%nat as Hsize by lia.
  assert (5 < 3 * 3)%nat as Hid by (cbn; lia).
  destruct (getBackgroundPosition_range 3 5 Hsize Hid)
    as (px & py & Heq & Hx & Hy & _).
  exists px, py. split; [exact Heq |]. split.
  - rewrite Hx. by vm_compute.
  - rewrite Hy. by vm_compute.
Defined.

(** On a 1 by 1 board the division by [size - 1] is a division by zero:
    the horizontal percentage is NaN for every piece id, and for piece 0,
    the only piece of that board, both percentages are NaN. *)
Theorem getBackgroundPosition_single (pieceId : nat) :
  (PuzzleBoard.getBackgroundPosition 1 pieceId).1 = NaN ∧
  PuzzleBoard.getBackgroundPosition 1 0 = (NaN, NaN).
Proof.
  split; [| reflexivity].
  assert (0 <= Z.of_nat pieceId)%Z as Hn by lia.
  destruct (quotient_of_naturals (Z.of_nat pieceId) 1 Hn eq_refl)
    as (Hq0 & Hfloor & Hmod).
  unfold PuzzleBoard.getBackgroundPosition, ofNat. cbv zeta.
  cbn [fst]. unfold jsmod.
  change (Qeq_bool (inject_Z (Z.of_nat 1)) 0) with false. cbv iota.
  unfold Qtruncate. apply Qle_bool_iff in Hq0.
  change (inject_Z (Z.of_nat 1)) with (inject_Z 1).
  rewrite Hq0, Hfloor.
  unfold jssub, jsneg, jsadd, jsdiv.
  change (Qeq_bool (inject_Z 1 + - (1)) 0) with true. cbv iota.
  rewrite Z.mod_1_r in Hmod.
  assert (Qeq_bool
            (inject_Z (Z.of_nat pieceId)
             - inject_Z 1 * inject_Z (Z.of_nat pieceId / 1)) 0 = true)
    as -> by (by apply Qeq_eq_bool).
  reflexivity.
Qed.
